(** * Uniplex MCP SDK: the local permission gate, embedded and verified

    A shallow embedding of the TypeScript sources
    - [transforms.ts]   (decimal normaliser [transformToCanonical]),
    - [types.ts]        (constraint registry, commerce arithmetic),
    - [commerce.ts]     (consumption attestations: issue and verify),
    - [verification.ts] (rate limiter, constraint merge, [verifyLocally]),
    in its two revisions 1.0.0 and 1.2.0.

    Conventions of the embedding.
    - A JavaScript [number] that carries money, counts or milliseconds is an
      integer [Z]; [NaN] is [None] where the code can produce it.  The
      products, sums and quotients of the commerce arithmetic are rounded to
      the nearest double ([Float64]); clock values and counters stay far
      below [2^53], where the arithmetic of doubles is exact.
    - A [bigint] is a [Z].
    - A thrown exception is the [Thrown] alternative of [Outcome].
    - [Record<string, unknown>] is a finite map [gmap string JSValue]: an
      object is its set of own properties, and its prototype is
      [Object.prototype].  A read [obj[key]] with a computed key sees the
      members of the prototype ([js_get]) and an assignment [obj[key] = v]
      under the name [__proto__] stores no property ([js_set]).  The
      insertion order of the properties is not modelled; [Object.entries] is
      [map_to_list], and nothing proved below depends on its order.
    - Reads of the wall clock ([Date.now()], [new Date()]) are explicit
      arguments, and so are the random and time-derived identifiers.
    - Code outside the repository ([@noble/ed25519], the protocol SDK
      [uniplex], built-in conversions of strings to numbers) enters as the
      members of a class. *)

From Stdlib Require Import ZArith Lia Ascii String List Bool.
From stdpp Require Import base option list numbers strings gmap.

Local Open Scope Z_scope.

(** ** Exceptions *)

Inductive Outcome (E A : Type) : Type :=
| Returned (a : A)
| Thrown (e : E).
Arguments Returned {E A} a.
Arguments Thrown {E A} e.

#[global] Instance Outcome_ret {E} : MRet (Outcome E) := fun _ a => Returned a.

#[global] Instance Outcome_bind {E} : MBind (Outcome E) := fun _ _ k m =>
  match m with
  | Returned a => k a
  | Thrown e => Thrown e
  end.

(** * transforms.ts *)

Module Transforms.

Inductive TransformMode := strict | round | truncate.

(** The three [throw new Error(...)] sites of [transformToCanonical], and the
    [SyntaxError] that [BigInt(string)] raises on a string that is not a
    numeral. *)
Inductive TransformError :=
| InvalidNumericValue
| DecimalPlacesExceeded
| ExceedsSafeIntegerRange
| BigIntSyntaxError.

Definition is_digit (c : ascii) : bool :=
  let n := nat_of_ascii c in (48 <=? n)%nat && (n <=? 57)%nat.

Definition digit_value (c : ascii) : Z := Z.of_nat (nat_of_ascii c) - 48.

(** ASCII white space removed by [String.prototype.trim]. *)
Definition is_space (c : ascii) : bool :=
  let n := nat_of_ascii c in
  ((9 <=? n)%nat && (n <=? 13)%nat) || (n =? 32)%nat.

Fixpoint drop_spaces (s : list ascii) : list ascii :=
  match s with
  | c :: r => if is_space c then drop_spaces r else s
  | [] => []
  end.

Definition trim (s : list ascii) : list ascii :=
  reverse (drop_spaces (reverse (drop_spaces s))).

Definition is_sign (c : ascii) : bool :=
  (Ascii.eqb c "+" || Ascii.eqb c "-")%char.

(** [str.replace(/^[+-]/, '')] *)
Definition strip_sign (s : list ascii) : list ascii :=
  match s with
  | c :: r => if is_sign c then r else s
  | [] => []
  end.

(** [str.startsWith('-')] *)
Definition startsWith_minus (s : list ascii) : bool :=
  match s with
  | c :: _ => Ascii.eqb c "-"%char
  | [] => false
  end.

Fixpoint span_digits (s : list ascii) : list ascii * list ascii :=
  match s with
  | c :: r =>
      if is_digit c then let (d, t) := span_digits r in (c :: d, t)
      else ([], s)
  | [] => ([], [])
  end.

(** [/^[+-]?\d+(\.\d+)?$/.test(s)] *)
Definition test_numeric (s : list ascii) : bool :=
  let (w, rest) := span_digits (strip_sign s) in
  match w with
  | [] => false
  | _ :: _ =>
      match rest with
      | [] => true
      | c :: d =>
          Ascii.eqb c "."%char &&
          match d with [] => false | _ :: _ => forallb is_digit d end
      end
  end.

(** [str.split('.')] *)
Fixpoint split_dot (s : list ascii) : list (list ascii) :=
  match s with
  | [] => [[]]
  | c :: r =>
      if Ascii.eqb c "."%char then [] :: split_dot r
      else match split_dot r with
           | p :: ps => (c :: p) :: ps
           | [] => [[c]]
           end
  end.

(** [s.padEnd(n, '0')] *)
Definition padEnd0 (s : list ascii) (n : nat) : list ascii :=
  s ++ repeat "0"%char (n - length s).

(** [BigInt(s)] on a string of decimal digits; the empty string is [0n]. *)
Fixpoint BigInt_acc (acc : Z) (s : list ascii) : Outcome TransformError Z :=
  match s with
  | [] => Returned acc
  | c :: r =>
      if is_digit c then BigInt_acc (10 * acc + digit_value c) r
      else Thrown BigIntSyntaxError
  end.

Definition BigInt (s : list ascii) : Outcome TransformError Z := BigInt_acc 0 s.

Definition MAX_SAFE_INTEGER : Z := 9007199254740991.

Definition build (whole : list ascii) (base : Z) (precision : nat)
    (decDigits : list ascii) : Outcome TransformError Z :=
  let padded := take precision (padEnd0 decDigits precision) in
  w ← BigInt whole;
  p ← (match padded with [] => Returned 0 | _ :: _ => BigInt padded end);
  Returned (w * base + p).

Definition transformToCanonical (value : string) (precision : nat)
    (mode : TransformMode) : Outcome TransformError Z :=
  let str0 := trim (list_ascii_of_string value) in
  if negb (test_numeric str0) then Thrown InvalidNumericValue
  else
    let isNegative := startsWith_minus str0 in
    let str := strip_sign str0 in
    let parts := split_dot str in
    let wholeRaw := List.nth 0 parts [] in
    let decRaw := List.nth 1 parts [] in
    let whole := match wholeRaw with [] => ["0"%char] | _ :: _ => wholeRaw end in
    let dec := decRaw in
    let MAX := MAX_SAFE_INTEGER in
    let base := 10 ^ Z.of_nat precision in
    result ←
      (if (precision <? length dec)%nat then
         match mode with
         | strict => Thrown DecimalPlacesExceeded
         | truncate => build whole base precision (take precision dec)
         | round =>
             truncated ← build whole base precision (take precision dec);
             let nextDigit := digit_value <$> (dec !! precision) in
             Returned
               (match nextDigit with
                | Some d => if 5 <=? d then truncated + 1 else truncated
                | None => truncated
                end)
         end
       else build whole base precision dec);
    let result := if isNegative then - result else result in
    if (MAX <? result) || (result <? - MAX) then Thrown ExceedsSafeIntegerRange
    else Returned result.

Definition dollarsToCents (value : string) (mode : TransformMode) :=
  transformToCanonical value 2 mode.

(** [canTransform] and [transformSafe]: a [try]/[catch] around
    [transformToCanonical] that answers [false], respectively [null], for
    every exception. *)
Definition canTransform (value : string) (precision : nat) (mode : TransformMode)
    : bool :=
  match transformToCanonical value precision mode with
  | Returned _ => true
  | Thrown _ => false
  end.

Definition transformSafe (value : string) (precision : nat) (mode : TransformMode)
    : option Z :=
  match transformToCanonical value precision mode with
  | Returned r => Some r
  | Thrown _ => None
  end.

(** ** The normaliser as the specification words it

    A numeral [sign w . f] of the grammar [[+-]?\d+(\.\d+)?] denotes the
    rational [± N / 10^L], where [N] is the integer written by the digits
    [w ++ f] and [L] is the number of fractional digits.  Its canonical form
    at precision [P] is [± N * 10^P / 10^L]: exact when [L <= P], and when
    [L > P] refused (strict), rounded towards zero (truncate) or rounded
    half away from zero (round). *)

Inductive Sign := NoSign | Plus | Minus.

Definition sign_chars (sg : Sign) : list ascii :=
  match sg with
  | NoSign => []
  | Plus => ["+"%char]
  | Minus => ["-"%char]
  end.

Definition fraction_chars (f : list ascii) : list ascii :=
  match f with
  | [] => []
  | _ :: _ => "."%char :: f
  end.

Definition numeral_chars (sg : Sign) (w f : list ascii) : list ascii :=
  sign_chars sg ++ w ++ fraction_chars f.

Definition numeral (sg : Sign) (w f : list ascii) : string :=
  string_of_list_ascii (numeral_chars sg w f).

Definition is_minus (sg : Sign) : bool :=
  match sg with Minus => true | _ => false end.

(** The natural number written by a string of decimal digits. *)
Definition digits_value (ds : list ascii) : Z :=
  fold_left (fun acc c => 10 * acc + digit_value c) ds 0.

Definition spec_magnitude (N : Z) (L P : nat) (mode : TransformMode) : option Z :=
  if (L <=? P)%nat then Some (N * 10 ^ Z.of_nat (P - L))
  else
    let D := 10 ^ Z.of_nat (L - P) in
    match mode with
    | strict => None
    | truncate => Some (N / D)
    | round => Some ((2 * N + D) / (2 * D))
    end.

Definition spec_canonical (sg : Sign) (N : Z) (L P : nat) (mode : TransformMode)
    : Outcome TransformError Z :=
  match spec_magnitude N L P mode with
  | None => Thrown DecimalPlacesExceeded
  | Some m =>
      let r := if is_minus sg then - m else m in
      if 2 ^ 53 - 1 <? Z.abs r then Thrown ExceedsSafeIntegerRange
      else Returned r
  end.

End Transforms.

(** * IEEE 754 doubles of integer value *)

(** The arithmetic of [number] on integers: a product, sum or quotient is
    the exact result rounded to 53 significant bits, ties to even.  The
    exponent is not bounded here, so the functions agree with the hardware
    as long as no result reaches [2^1024], which holds for arguments within
    the safe-integer range. *)
Module Float64.

(** [num / den / 2^e] as a fraction. *)
Definition scale (num den e : Z) : Z * Z :=
  if 0 <=? e then (num, den * 2 ^ e) else (num * 2 ^ (- e), den).

(** The integer nearest to [num / den], the even one of two that are
    equally near. *)
Definition round_half_even (num den : Z) : Z :=
  let q := num / den in
  let r := num mod den in
  if 2 * r <? den then q
  else if den <? 2 * r then q + 1
  else if Z.even q then q else q + 1.

(** The exponent [e] with [2^52 <= num / den / 2^e < 2^53], for positive
    [num] and [den]. *)
Definition exponent (num den : Z) : Z :=
  let e := Z.log2 num - Z.log2 den - 53 in
  let '(n, d) := scale num den e in
  if 2 ^ 53 <=? n / d then e + 1 else e.

(** The double nearest to [num / den], as the pair [(m, e)] that stands for
    [m * 2^e]. *)
Definition nearest (num den : Z) : Z * Z :=
  let e := exponent num den in
  let '(n, d) := scale num den e in
  (round_half_even n d, e).

(** The double nearest to the integer [n]; it is an integer. *)
Definition of_Z (n : Z) : Z :=
  if Z.abs n <? 2 ^ 53 then n
  else let '(m, e) := nearest (Z.abs n) 1 in Z.sgn n * (m * 2 ^ e).

(** [a * b] and [a + b] *)
Definition mul (a b : Z) : Z := of_Z (a * b).
Definition add (a b : Z) : Z := of_Z (a + b).

Definition ceil_of (m e : Z) : Z :=
  if 0 <=? e then m * 2 ^ e else - ((- m) / 2 ^ (- e)).

Definition floor_of (m e : Z) : Z :=
  if 0 <=? e then m * 2 ^ e else m / 2 ^ (- e).

(** [Math.ceil(a / b)] for a positive [b]. *)
Definition ceil_quotient (a b : Z) : Z :=
  if a =? 0 then 0
  else if 0 <? a then let '(m, e) := nearest a b in ceil_of m e
  else let '(m, e) := nearest (- a) b in - floor_of m e.

End Float64.

(** * types.ts *)

Module Types.

(** Run-time values of type [unknown].  [JObject] stands for an array or a
    plain object; its argument is the string that [ToPrimitive] obtains from
    it ([Some "[object Object]"], [Some "1,2"], ...), or [None] when the
    object has no callable [valueOf] or [toString], in which case any
    conversion to a primitive throws [TypeError].  Converting a [JSymbol] to
    a number throws [TypeError] as well. *)
Inductive JSValue :=
| JNull
| JBool (b : bool)
| JNum (n : Z)
| JStr (s : string)
| JSymbol
| JObject (toPrimitive : option string).

Inductive JSError := TypeError | RangeError | SyntaxError | Error (message : string).

(** [typeof v === 'number'] *)
Definition typeof_number (v : JSValue) : option Z :=
  match v with
  | JNum n => Some n
  | _ => None
  end.

(** ** Objects used as maps *)

(** The property names that every object literal inherits from
    [Object.prototype]. *)
Definition Object_prototype_names : list string :=
  [ "constructor"; "__defineGetter__"; "__defineSetter__"; "hasOwnProperty";
    "__lookupGetter__"; "__lookupSetter__"; "isPrototypeOf";
    "propertyIsEnumerable"; "toString"; "valueOf"; "__proto__";
    "toLocaleString" ].

(** What a read [obj[key]] finds in an object literal used as a map: an own
    property, or a member inherited from [Object.prototype].  The inherited
    members are functions, and the prototype itself under [__proto__]: they
    are truthy, they are no strings, and they have none of the fields
    ([constraints], [default_template]) that the code reads from an entry. *)
Inductive Member (A : Type) : Type :=
| Own (a : A)
| Inherited.
Arguments Own {A} a.
Arguments Inherited {A}.

(** [obj[key]]; [None] is [undefined]. *)
Definition js_get {A} (obj : gmap string A) (key : string) : option (Member A) :=
  match obj !! key with
  | Some a => Some (Own a)
  | None => if bool_decide (key ∈ Object_prototype_names) then Some Inherited else None
  end.

(** [key in obj] *)
Definition js_in {A} (key : string) (obj : gmap string A) : bool :=
  bool_decide (is_Some (obj !! key)) || bool_decide (key ∈ Object_prototype_names).

(** [obj[key] = value] on an object whose prototype is [Object.prototype].
    The name [__proto__], when it is no own property of [obj], reaches the
    accessor of the prototype: no property is stored.  (The setter makes
    [value] the prototype of [obj] when it is an object or [null]; the reads
    of such an [obj] are outside the embedding, and the statements below
    that depend on them exclude it.) *)
Definition js_set {A} (key : string) (value : A) (obj : gmap string A) : gmap string A :=
  match obj !! key with
  | Some _ => <[key := value]> obj
  | None => if String.eqb key "__proto__" then obj else <[key := value]> obj
  end.

(** [entry.field] for what a read has found: [None] is [undefined]. *)
Definition field {A B} (f : A -> B) (entry : Member A) : option B :=
  match entry with
  | Own a => Some (f a)
  | Inherited => None
  end.

Inductive ConstraintType := limit | term.
Inductive ValueType := integer | string_value.

Record ConstraintTypeDefinition := {
  type : ConstraintType;
  valueType : ValueType;
}.

Inductive RiskLevel := low | medium | high | critical.

Record PassportPermission := {
  permission_key : string;
  constraints : gmap string JSValue;
}.

(** [expires_at] and [issued_at] hold the time value of [new Date(s)] for the
    RFC 3339 string [s] of the source: milliseconds since the epoch, or
    [None] for an Invalid Date. *)
Record Passport := {
  passport_id : string;
  issuer_id : string;
  agent_id : string;
  gate_id : string;
  permissions : list PassportPermission;
  passport_constraints : gmap string JSValue;
  signature : string;
  expires_at : option Z;
  issued_at : option Z;
  catalog_version_pin : option (gmap string Z);
  claimsByKey : gmap string PassportPermission;
}.

Record CatalogPermission := {
  cp_permission_key : string;
  display_name : string;
  description : option string;
  risk_level : RiskLevel;
  cp_constraints : gmap string JSValue;
  default_template : option string;
  required_constraints : option (list string);
}.

Record CatalogVersion := {
  version : Z;
  permissionsByKey : gmap string CatalogPermission;
  published_at : string;
}.

Record CachedCatalog := {
  cat_gate_id : string;
  current : CatalogVersion;
  versions : gmap Z CatalogVersion;
  min_compatible_version : Z;
  cached_at : Z;
  cat_permissionsByKey : gmap string CatalogPermission;
}.

(** ** Commerce types and functions *)

Inductive PricingModel := per_call | per_minute | subscription | usage.

Record PricingConstraints := {
  per_call_cents : option Z;
  per_minute_cents : option Z;
  subscription_cents : option Z;
  model : option PricingModel;
  currency : option string;
  free_tier_calls : option Z;
}.

Record PlatformFeeConstraints := {
  basis_points : option Z;
  recipient : option string;
}.

(** [Math.ceil(serviceCostCents * basisPoints / 10000)]: the product is
    rounded to a double before it is divided. *)
Definition computePlatformFee (serviceCostCents basisPoints : Z) : Outcome JSError Z :=
  if serviceCostCents <? 0 then Thrown (Error "Cost cannot be negative")
  else if basisPoints <? 0 then Thrown (Error "Basis points cannot be negative")
  else Returned (Float64.ceil_quotient (Float64.mul serviceCostCents basisPoints) 10000).

Definition computeCallCost (pricing : PricingConstraints) (units : Z) : Z :=
  match per_call_cents pricing with
  | Some c => Float64.mul c units
  | None => 0
  end.

Definition computeTimeCost (pricing : PricingConstraints) (durationMs : Z) : Z :=
  match per_minute_cents pricing with
  | Some c =>
      let minutes := Float64.ceil_quotient durationMs 60000 in
      Float64.mul c minutes
  | None => 0
  end.

(** The casts [as number | undefined], [as string | undefined] and
    [as PricingModel | undefined] do nothing at run time; the embedding
    covers constraint records whose values have the declared types and
    reads any other value as absent. *)
Definition as_number (v : option JSValue) : option Z :=
  match v with
  | Some (JNum n) => Some n
  | _ => None
  end.

Definition as_string (v : option JSValue) : option string :=
  match v with
  | Some (JStr s) => Some s
  | _ => None
  end.

Definition as_PricingModel (v : option JSValue) : option PricingModel :=
  match v with
  | Some (JStr s) =>
      if String.eqb s "per_call" then Some per_call
      else if String.eqb s "per_minute" then Some per_minute
      else if String.eqb s "subscription" then Some subscription
      else if String.eqb s "usage" then Some usage
      else None
  | _ => None
  end.

Definition extractPricingConstraints (constraints : gmap string JSValue)
    : PricingConstraints :=
  {| per_call_cents := as_number (constraints !! "core:pricing:per_call_cents");
     per_minute_cents := as_number (constraints !! "core:pricing:per_minute_cents");
     subscription_cents := as_number (constraints !! "core:pricing:subscription_cents");
     model := as_PricingModel (constraints !! "core:pricing:model");
     currency := as_string (constraints !! "core:pricing:currency");
     free_tier_calls := as_number (constraints !! "core:pricing:free_tier_calls") |}.

Definition extractPlatformFeeConstraints (constraints : gmap string JSValue)
    : PlatformFeeConstraints :=
  {| basis_points := as_number (constraints !! "core:platform_fee:basis_points");
     recipient := as_string (constraints !! "core:platform_fee:recipient") |}.

End Types.

(** * commerce.ts *)

Module Commerce.
Import Types.

Record ConsumptionData := {
  units : Z;
  cost_cents : Z;
  platform_fee_cents : Z;
  timestamp : string;
  duration_ms : option Z;
}.

Record EffectiveConstraints := {
  pricing : option PricingConstraints;
  platform_fee : option PlatformFeeConstraints;
}.

Record AttestationProof := {
  kid : string;
  sig : string;
}.

(** The object literal [attestationPayload]: a consumption attestation
    without its [proof]. *)
Record AttestationPayload := {
  attestation_id : string;
  gate_id : string;
  agent_id : string;
  passport_id : string;
  permission_key : string;
  catalog_version : Z;
  catalog_content_hash : option string;
  request_nonce : option string;
  effective_constraints : EffectiveConstraints;
  consumption : ConsumptionData;
}.

Record ConsumptionAttestation := {
  payload : AttestationPayload;
  proof : AttestationProof;
}.

Record IssueReceiptParams := {
  p_gate_id : string;
  p_agent_id : string;
  p_passport_id : string;
  p_permission_key : string;
  p_catalog_version : Z;
  p_catalog_content_hash : option string;
  p_effective_constraints : gmap string JSValue;
  p_request_nonce : option string;
  p_units : option Z;
  p_duration_ms : option Z;
  p_signing_key_id : string;
}.

(** Truthiness of an optional string and of an optional number. *)
Definition truthy_string (s : option string) : option string :=
  match s with
  | Some v => if String.eqb v EmptyString then None else Some v
  | None => None
  end.

Definition truthy_number (n : option Z) : option Z :=
  match n with
  | Some v => if v =? 0 then None else Some v
  | None => None
  end.

Definition model_is_per_minute (p : PricingConstraints) : bool :=
  match model p with
  | Some per_minute => true
  | _ => false
  end.

Definition empty_pricing : PricingConstraints :=
  {| per_call_cents := None; per_minute_cents := None; subscription_cents := None;
     model := None; currency := None; free_tier_calls := None |}.

Definition empty_platform_fee : PlatformFeeConstraints :=
  {| basis_points := None; recipient := None |}.

Inductive ReceiptError :=
| NonceMismatch                       (* 'Request nonce mismatch - ...' *)
| InvalidSignature                    (* 'Invalid signature' *)
| CostMismatch (expected got : Z)     (* `Cost mismatch: expected .., got ..` *)
| PlatformFeeMismatch (expected got : Z).

Record ReceiptVerdict := {
  valid : bool;
  error : option ReceiptError;
}.

Section Callbacks.
(** [JSON.stringify] on an attestation payload, the gate's signing
    callback and the agent's verification callback. *)
Variable JSON_stringify : AttestationPayload -> string.
Variable sign : string -> string.
Variable verify : string -> string -> string -> bool.

(** [attestation_id] and [now_iso] stand for
    [`catt_${Date.now()}_${Math.random()...}`] and
    [new Date().toISOString()]. *)
Definition issueConsumptionAttestation (params : IssueReceiptParams)
    (attestation_id now_iso : string) : Outcome JSError ConsumptionAttestation :=
  let units := default 1 (p_units params) in
  let duration_ms := p_duration_ms params in
  let pricing := extractPricingConstraints (p_effective_constraints params) in
  let platformFee := extractPlatformFeeConstraints (p_effective_constraints params) in
  let cost_cents :=
    if model_is_per_minute pricing then
      match duration_ms with
      | Some d => computeTimeCost pricing d
      | None => computeCallCost pricing units
      end
    else computeCallCost pricing units in
  platform_fee_cents ←
    (match truthy_number (basis_points platformFee) with
     | Some bp => computePlatformFee cost_cents bp
     | None => Returned 0
     end);
  let consumption :=
    {| units := units; cost_cents := cost_cents;
       platform_fee_cents := platform_fee_cents;
       timestamp := now_iso; duration_ms := duration_ms |} in
  let attestationPayload :=
    {| attestation_id := attestation_id;
       gate_id := p_gate_id params;
       agent_id := p_agent_id params;
       passport_id := p_passport_id params;
       permission_key := p_permission_key params;
       catalog_version := p_catalog_version params;
       catalog_content_hash := truthy_string (p_catalog_content_hash params);
       request_nonce := truthy_string (p_request_nonce params);
       effective_constraints :=
         {| pricing := Some pricing; platform_fee := Some platformFee |};
       consumption := consumption |} in
  let canonicalJson := JSON_stringify attestationPayload in
  let signature := sign canonicalJson in
  Returned {| payload := attestationPayload;
              proof := {| kid := p_signing_key_id params; sig := signature |} |}.

Definition verifyConsumptionAttestation (attestation : ConsumptionAttestation)
    (expected_nonce : option string) (gate_public_key : string)
    : Outcome JSError ReceiptVerdict :=
  let nonce_differs :=
    match truthy_string expected_nonce with
    | Some e =>
        match request_nonce (payload attestation) with
        | Some n => negb (String.eqb n e)
        | None => true
        end
    | None => false
    end in
  if nonce_differs then Returned {| valid := false; error := Some NonceMismatch |}
  else
    let payloadWithoutProof := payload attestation in
    let canonicalJson := JSON_stringify payloadWithoutProof in
    let signatureValid :=
      verify canonicalJson (sig (proof attestation)) gate_public_key in
    if negb signatureValid
    then Returned {| valid := false; error := Some InvalidSignature |}
    else
      let cons := consumption (payload attestation) in
      let pricing :=
        default empty_pricing (pricing (effective_constraints (payload attestation))) in
      let platformFee :=
        default empty_platform_fee
          (platform_fee (effective_constraints (payload attestation))) in
      let expectedCost :=
        if model_is_per_minute pricing then
          match truthy_number (duration_ms cons) with
          | Some d => computeTimeCost pricing d
          | None => computeCallCost pricing (units cons)
          end
        else computeCallCost pricing (units cons) in
      if negb (cost_cents cons =? expectedCost)
      then Returned {| valid := false;
                       error := Some (CostMismatch expectedCost (cost_cents cons)) |}
      else
        expectedFee ←
          (match truthy_number (basis_points platformFee) with
           | Some bp => computePlatformFee expectedCost bp
           | None => Returned 0
           end);
        if negb (platform_fee_cents cons =? expectedFee)
        then Returned {| valid := false;
                         error := Some (PlatformFeeMismatch expectedFee
                                          (platform_fee_cents cons)) |}
        else Returned {| valid := true; error := None |}.

End Callbacks.

(** ** Billing aggregation *)

Record BillingPeriod := {
  period_start : string;
  period_end : string;
  bp_agent_id : string;
  bp_gate_id : string;
  total_calls : Z;
  total_cost_cents : Z;
  total_platform_fee_cents : Z;
  attestation_ids : list string;
}.

(** The negation of the test of the validating loop:
    [att.agent_id !== agent_id || att.gate_id !== gate_id]. *)
Definition same_pair (agent gate : string) (att : ConsumptionAttestation) : bool :=
  String.eqb (agent_id (payload att)) agent && String.eqb (gate_id (payload att)) gate.

(** [None] is [null]. *)
Definition aggregateAttestations (attestations : list ConsumptionAttestation)
    (period_start period_end : string) : Outcome JSError (option BillingPeriod) :=
  match attestations with
  | [] => Returned None
  | first :: _ =>
      let agent_id := agent_id (payload first) in
      let gate_id := gate_id (payload first) in
      if negb (forallb (same_pair agent_id gate_id) attestations)
      then Thrown (Error "All attestations must be for the same agent/gate pair")
      else
        let total_calls :=
          fold_left (fun acc att => Float64.add acc (units (consumption (payload att))))
            attestations 0 in
        let total_cost_cents :=
          fold_left
            (fun acc att => Float64.add acc (cost_cents (consumption (payload att))))
            attestations 0 in
        let total_platform_fee_cents :=
          fold_left
            (fun acc att =>
               Float64.add acc (platform_fee_cents (consumption (payload att))))
            attestations 0 in
        let attestation_ids :=
          fold_left (fun ids att => ids ++ [attestation_id (payload att)])
            attestations [] in
        Returned (Some {| period_start := period_start;
                          period_end := period_end;
                          bp_agent_id := agent_id;
                          bp_gate_id := gate_id;
                          total_calls := total_calls;
                          total_cost_cents := total_cost_cents;
                          total_platform_fee_cents := total_platform_fee_cents;
                          attestation_ids := attestation_ids |})
  end.

(** ** Service advertisement helpers *)

Definition matchesDiscoveryCriteria (pricing : PricingConstraints)
    (maxPriceCents : option Z) (currency : option string) : bool :=
  let currency_differs :=
    match truthy_string currency, truthy_string (Types.currency pricing) with
    | Some wanted, Some offered => negb (String.eqb offered wanted)
    | _, _ => false
    end in
  if currency_differs then false
  else
    match maxPriceCents with
    | Some maxPrice =>
        let cost :=
          default (default 0 (per_minute_cents pricing)) (per_call_cents pricing) in
        if maxPrice <? cost then false else true
    | None => true
    end.

(** The fields of the first parameter of [meetsSLARequirements]. *)
Record SLA := {
  uptime_basis_points : option Z;
  response_time_ms : option Z;
}.

Definition meetsSLARequirements (sla : SLA)
    (minUptimeBasisPoints maxResponseTimeMs : option Z) : bool :=
  let uptime_fails :=
    match minUptimeBasisPoints with
    | Some minUptime =>
        match truthy_number (uptime_basis_points sla) with
        | Some uptime => uptime <? minUptime
        | None => true
        end
    | None => false
    end in
  if uptime_fails then false
  else
    match maxResponseTimeMs with
    | Some maxResponse =>
        match truthy_number (response_time_ms sla) with
        | Some response => if maxResponse <? response then false else true
        | None => false
        end
    | None => true
    end.

End Commerce.

(** * verification.ts *)

Module Verification.
Import Types.

(** ** Rate limiter (local, in memory) *)

Record RateLimitBucket := {
  count : Z;
  resetAt : Z;
}.

Record RateLimit := {
  max : Z;
  windowMs : Z;
}.

Record InMemoryRateLimiter := {
  buckets : gmap string RateLimitBucket;
  limits : gmap string RateLimit;
}.

Definition new_InMemoryRateLimiter : InMemoryRateLimiter :=
  {| buckets := ∅; limits := ∅ |}.

Definition setLimit (action : string) (max : Z) (windowMs : Z)
    (l : InMemoryRateLimiter) : InMemoryRateLimiter :=
  {| buckets := buckets l;
     limits := <[action := {| max := max; windowMs := windowMs |}]> (limits l) |}.

(** [passportId ? `${action}:${passportId}` : action]: an absent or empty
    passport id selects the bucket of the action alone. *)
Definition getBucketKey (action : string) (passportId : option string) : string :=
  match passportId with
  | Some pid => if String.eqb pid EmptyString then action else action +:+ ":" +:+ pid
  | None => action
  end.

(** [now] is the value read from [Date.now()]. *)
Definition check (l : InMemoryRateLimiter) (action : string)
    (passportId : option string) (now : Z) : bool :=
  match limits l !! action with
  | None => true
  | Some lim =>
      let key := getBucketKey action passportId in
      match buckets l !! key with
      | None => true
      | Some bucket =>
          if resetAt bucket <=? now then true
          else count bucket <? max lim
      end
  end.

Definition increment (l : InMemoryRateLimiter) (action : string)
    (passportId : option string) (now : Z) : InMemoryRateLimiter :=
  match limits l !! action with
  | None => l
  | Some lim =>
      let key := getBucketKey action passportId in
      let bucket :=
        match buckets l !! key with
        | Some b =>
            if resetAt b <=? now
            then {| count := 0; resetAt := now + windowMs lim |}
            else b
        | None => {| count := 0; resetAt := now + windowMs lim |}
        end in
      {| buckets := <[key := {| count := count bucket + 1; resetAt := resetAt bucket |}]>
                      (buckets l);
         limits := limits l |}
  end.

Definition reset (l : InMemoryRateLimiter) (action : string)
    (passportId : option string) : InMemoryRateLimiter :=
  {| buckets := delete (getBucketKey action passportId) (buckets l);
     limits := limits l |}.

(** ** Signature verification *)

(** The object literal [signedPayload]. *)
Record SignedPayload := {
  sp_passport_id : string;
  sp_issuer_id : string;
  sp_agent_id : string;
  sp_gate_id : string;
  sp_permissions : list PassportPermission;
  sp_constraints : gmap string JSValue;
  sp_expires_at : option Z;
  sp_issued_at : option Z;
  sp_catalog_version_pin : option (gmap string Z);
}.

Definition signedPayload (passport : Passport) : SignedPayload :=
  {| sp_passport_id := passport_id passport;
     sp_issuer_id := issuer_id passport;
     sp_agent_id := agent_id passport;
     sp_gate_id := gate_id passport;
     sp_permissions := permissions passport;
     sp_constraints := passport_constraints passport;
     sp_expires_at := expires_at passport;
     sp_issued_at := issued_at passport;
     sp_catalog_version_pin := catalog_version_pin passport |}.

(** What the run time and the libraries outside this repository provide.
    - [ed25519_verify payload signature publicKey] is the body of the [try]
      block of [verifySignatureSync] after the payload is built:
      [JSON.stringify], [TextEncoder], [hexToBytes] of both hex strings and
      [ed.verify] of [@noble/ed25519]; each of them may throw.
    - [StringToNumber] is [Number(s)] on a string, [None] for [NaN]. *)
Class Platform := {
  ed25519_verify : SignedPayload -> string -> string -> Outcome JSError bool;
  StringToNumber : string -> option Z;
}.

Section WithPlatform.
Context `{Platform}.

(** [issuerPublicKey] is what [issuerKeys[issuer_id]] has found.  An
    inherited member is no string: [hexToBytes] calls [startsWith] on it,
    which throws [TypeError] inside the [try] block. *)
Definition verifySignatureSync (passport : Passport) (issuerPublicKey : Member string)
    : bool :=
  match issuerPublicKey with
  | Own key =>
      match ed25519_verify (signedPayload passport) (signature passport) key with
      | Returned b => b
      | Thrown _ => false
      end
  | Inherited => false
  end.

(** ** Constraint validation *)

(** [Number(v)]: [None] is [NaN]. *)
Definition Number (v : JSValue) : Outcome JSError (option Z) :=
  match v with
  | JNull => Returned (Some 0)
  | JBool b => Returned (Some (if b then 1 else 0))
  | JNum n => Returned (Some n)
  | JStr s => Returned (StringToNumber s)
  | JSymbol => Thrown TypeError
  | JObject (Some s) => Returned (StringToNumber s)
  | JObject None => Thrown TypeError
  end.

Inductive ValidationMessage :=
| InvalidContextValue (key : string)
| ConstraintExceeded (key : string) (contextNum passportValue : Z).

Record ConstraintValidationResult := {
  valid : bool;
  message : option ValidationMessage;
}.

Section WithRegistry.
Variable CONSTRAINT_TYPES : gmap string ConstraintTypeDefinition.

Definition is_limit (key : string) : bool :=
  match CONSTRAINT_TYPES !! key with
  | Some {| type := limit |} => true
  | _ => false
  end.

Definition is_term (key : string) : bool :=
  match CONSTRAINT_TYPES !! key with
  | Some {| type := term |} => true
  | _ => false
  end.

(** One iteration of the loop of [validateConstraints]: [None] continues
    with the next entry, [Some r] returns [r]. *)
Definition validate_entry (context : gmap string JSValue)
    (key : string) (passportValue : JSValue)
    : Outcome JSError (option ConstraintValidationResult) :=
  match context !! key with
  | None => Returned None
  | Some contextValue =>
      match (if is_limit key then typeof_number passportValue else None) with
      | Some passportNum =>
          contextNum ←
            (match typeof_number contextValue with
             | Some n => Returned (Some n)
             | None => Number contextValue
             end);
          match contextNum with
          | None =>
              Returned (Some {| valid := false;
                                message := Some (InvalidContextValue key) |})
          | Some c =>
              if passportNum <? c
              then Returned (Some {| valid := false;
                                     message := Some (ConstraintExceeded key c passportNum) |})
              else Returned None
          end
      | None => Returned None
      end
  end.

Fixpoint validate_entries (context : gmap string JSValue)
    (entries : list (string * JSValue)) : Outcome JSError ConstraintValidationResult :=
  match entries with
  | [] => Returned {| valid := true; message := None |}
  | (key, passportValue) :: rest =>
      r ← validate_entry context key passportValue;
      match r with
      | Some res => Returned res
      | None => validate_entries context rest
      end
  end.

(** [Object.entries(passportConstraints)] is [map_to_list]; the third
    parameter [catalogConstraints] of the source is never read. *)
Definition validateConstraints (passportConstraints context : gmap string JSValue)
    (catalogConstraints : option (gmap string JSValue))
    : Outcome JSError ConstraintValidationResult :=
  validate_entries context (map_to_list passportConstraints).

(** ** Constraint merge *)

(** One iteration of the loop of [mergeConstraints].  [merged] starts as
    the spread of the catalog constraints, which copies an own [__proto__]
    of the catalog as an own property. *)
Definition merge_entry (key : string) (passportValue : JSValue)
    (merged : gmap string JSValue) : gmap string JSValue :=
  match (if is_limit key then typeof_number passportValue else None) with
  | Some passportNum =>
      match merged !! key ≫= typeof_number with
      | Some catalogNum => js_set key (JNum (Z.min catalogNum passportNum)) merged
      | None => js_set key passportValue merged
      end
  | None =>
      if is_term key then merged
      else js_set key passportValue merged
  end.

Definition mergeConstraints (catalogConstraints passportConstraints : gmap string JSValue)
    : gmap string JSValue :=
  map_fold merge_entry catalogConstraints passportConstraints.

End WithRegistry.

(** ** Catalog version resolution *)

Inductive ResolvedCatalog :=
| Resolved (v : CatalogVersion)
| Deprecated.

Definition resolveCatalogVersion (catalog : CachedCatalog) (passport : option Passport)
    : ResolvedCatalog :=
  match passport ≫= catalog_version_pin with
  | None => Resolved (current catalog)
  | Some pins =>
      match pins !! cat_gate_id catalog with
      | None => Resolved (current catalog)
      | Some pin =>
          if pin <? min_compatible_version catalog then Deprecated
          else Resolved (default (current catalog) (versions catalog !! pin))
      end
  end.

(** ** Passport utilities *)

Definition buildPassportIndex (passport : Passport) : Passport :=
  {| passport_id := passport_id passport;
     issuer_id := issuer_id passport;
     agent_id := agent_id passport;
     gate_id := gate_id passport;
     permissions := permissions passport;
     passport_constraints := passport_constraints passport;
     signature := signature passport;
     expires_at := expires_at passport;
     issued_at := issued_at passport;
     catalog_version_pin := catalog_version_pin passport;
     claimsByKey :=
       fold_left (fun idx permission => js_set (permission_key permission) permission idx)
         (permissions passport) ∅ |}.

Definition hasPermission (passport : option Passport) (action : string) : bool :=
  match passport with
  | None => false
  | Some passport => js_in action (claimsByKey passport)
  end.

(** [passport.claimsByKey[action]?.constraints] *)
Definition getPermissionConstraints (passport : option Passport) (action : string)
    : option (gmap string JSValue) :=
  match passport with
  | None => None
  | Some passport => constraints <$> claimsByKey passport !! action
  end.

(** [new Date(expires_at) < new Date()]: a comparison with an Invalid Date
    is false. *)
Definition date_lt (a : option Z) (b : Z) : bool :=
  match a with
  | Some t => t <? b
  | None => false
  end.

(** [issuerKeys[id]] followed by [if (!issuerKey)]: an absent key and the
    empty string are both falsy, a member inherited from [Object.prototype]
    is truthy. *)
Definition lookup_issuerKey (issuerKeys : gmap string string) (id : string)
    : option (Member string) :=
  match js_get issuerKeys id with
  | Some (Own k) => if String.eqb k EmptyString then None else Some (Own k)
  | Some Inherited => Some Inherited
  | None => None
  end.

(** The three reads of the wall clock during one call of [verifyLocally]:
    [new Date()] in the expiry check, [Date.now()] in [rateLimiter.check]
    and [Date.now()] in [rateLimiter.increment]. *)
Record Clock := {
  now_expiry : Z;
  now_check : Z;
  now_increment : Z;
}.

End WithPlatform.

End Verification.

(** * verification.ts, revision 1.0.0 *)

Module V1_0.
Import Types Verification.

Definition CONSTRAINT_TYPES : gmap string ConstraintTypeDefinition :=
  list_to_map [
    ("core:rate:max_per_hour", {| type := limit; valueType := integer |});
    ("core:rate:max_per_day", {| type := limit; valueType := integer |});
    ("core:rate:max_per_minute", {| type := limit; valueType := integer |});
    ("core:cost:max", {| type := limit; valueType := integer |});
    ("core:cost:currency", {| type := limit; valueType := string_value |});
    ("core:pricing:per_call_cents", {| type := term; valueType := integer |});
    ("core:pricing:per_minute_cents", {| type := term; valueType := integer |});
    ("core:pricing:model", {| type := term; valueType := string_value |});
    ("core:pricing:currency", {| type := term; valueType := string_value |});
    ("core:pricing:free_tier_calls", {| type := term; valueType := integer |});
    ("core:sla:uptime_basis_points", {| type := term; valueType := integer |});
    ("core:sla:response_time_ms", {| type := term; valueType := integer |});
    ("core:sla:p99_response_ms", {| type := term; valueType := integer |});
    ("core:platform_fee:basis_points", {| type := term; valueType := integer |})
  ].

Inductive DenialCode :=
| NO_PASSPORT
| ISSUER_NOT_TRUSTED
| INVALID_SIGNATURE
| PASSPORT_EXPIRED
| PASSPORT_REVOKED
| PERMISSION_NOT_IN_CATALOG
| PERMISSION_NOT_IN_PASSPORT
| CONSTRAINT_EXCEEDED
| RATE_LIMIT_EXCEEDED
| APPROVAL_REQUIRED
| CATALOG_VERSION_DEPRECATED
| CATALOG_VERSION_UNKNOWN
| CATALOG_VERSION_STALE.

(** A denial message: a literal or interpolated text, or the message built
    by [validateConstraints]. *)
Inductive DenialMessage :=
| Text (s : string)
| FromValidation (m : ValidationMessage).

Record VerifyDenial := {
  code : DenialCode;
  message : DenialMessage;
  upgrade_template : option string;
}.

Record VerifyResult := {
  allowed : bool;
  denial : option VerifyDenial;
  effective_constraints : option (gmap string JSValue);
  confident : bool;
}.

(** [skipSignatureVerification] absent is [false]. *)
Record VerifyLocallyParams := {
  passport : option Passport;
  catalog : CachedCatalog;
  revocationList : gset string;
  issuerKeys : gmap string string;
  rateLimiter : InMemoryRateLimiter;
  action : string;
  context : gmap string JSValue;
  skipSignatureVerification : bool;
}.

(** The object literal [{ allowed: false, denial: {...}, confident: true }]. *)
Definition denied (code : DenialCode) (message : DenialMessage)
    (upgrade_template : option string) : VerifyResult :=
  {| allowed := false;
     denial := Some {| code := code; message := message;
                       upgrade_template := upgrade_template |};
     effective_constraints := None;
     confident := true |}.

Section WithPlatform.
Context `{Platform}.

(** The result of the call and the rate limiter as the call leaves it. *)
Definition verifyLocally (params : VerifyLocallyParams) (clock : Clock)
    : Outcome JSError VerifyResult * InMemoryRateLimiter :=
  let rateLimiter := rateLimiter params in
  let action := action params in
  (* Step 1: check passport exists *)
  match passport params with
  | None =>
      (Returned (denied NO_PASSPORT (Text "No passport in session") None), rateLimiter)
  | Some passport =>
  (* Step 2: verify signature using the issuer's public key *)
  match lookup_issuerKey (issuerKeys params) (issuer_id passport) with
  | None =>
      (Returned (denied ISSUER_NOT_TRUSTED
                   (Text ("Unknown issuer: " +:+ issuer_id passport)) None),
       rateLimiter)
  | Some issuerKey =>
  if negb (skipSignatureVerification params)
     && negb (verifySignatureSync passport issuerKey)
  then (Returned (denied INVALID_SIGNATURE (Text "Passport signature invalid") None),
        rateLimiter)
  (* Step 3: check expiration *)
  else if date_lt (expires_at passport) (now_expiry clock)
  then (Returned (denied PASSPORT_EXPIRED (Text "Passport has expired") None),
        rateLimiter)
  (* Step 4: check revocation *)
  else if bool_decide (passport_id passport ∈ revocationList params)
  then (Returned (denied PASSPORT_REVOKED (Text "Passport has been revoked") None),
        rateLimiter)
  else
  (* Step 5: resolve catalog version *)
  match resolveCatalogVersion (catalog params) (Some passport) with
  | Deprecated =>
      (Returned (denied CATALOG_VERSION_DEPRECATED
                   (Text "Passport pins to deprecated catalog version") None),
       rateLimiter)
  | Resolved effectiveCatalog =>
  (* Step 6: permission exists in the catalog *)
  match js_get (permissionsByKey effectiveCatalog) action with
  | None =>
      (Returned (denied PERMISSION_NOT_IN_CATALOG
                   (Text (action +:+ " not in gate catalog")) None),
       rateLimiter)
  | Some catalogEntry =>
  (* Step 7: permission exists in the passport *)
  match js_get (claimsByKey passport) action with
  | None =>
      (Returned (denied PERMISSION_NOT_IN_PASSPORT
                   (Text ("Passport lacks " +:+ action +:+ " permission"))
                   (field default_template catalogEntry ≫= id)),
       rateLimiter)
  | Some Inherited =>
      (* passportPermission.constraints is undefined: Object.entries throws *)
      (Thrown TypeError, rateLimiter)
  | Some (Own passportPermission) =>
  (* Step 8: validate constraints *)
  match validateConstraints CONSTRAINT_TYPES (constraints passportPermission)
          (context params) (field cp_constraints catalogEntry) with
  | Thrown e => (Thrown e, rateLimiter)
  | Returned constraintResult =>
  if negb (valid constraintResult)
  then (Returned (denied CONSTRAINT_EXCEEDED
                    (default (Text "Constraint validation failed")
                       (FromValidation <$> Verification.message constraintResult))
                    None),
        rateLimiter)
  (* Step 9: check rate limits *)
  else if negb (check rateLimiter action (Some (passport_id passport)) (now_check clock))
  then (Returned (denied RATE_LIMIT_EXCEEDED (Text "Rate limit exceeded") None),
        rateLimiter)
  else
    let rateLimiter' :=
      increment rateLimiter action (Some (passport_id passport)) (now_increment clock) in
    (Returned {| allowed := true;
                 denial := None;
                 effective_constraints :=
                   Some (mergeConstraints CONSTRAINT_TYPES
                           (default ∅ (field cp_constraints catalogEntry))
                           (constraints passportPermission));
                 confident := true |},
     rateLimiter')
  end end end end end end.

End WithPlatform.

End V1_0.

(** * verification.ts, revision 1.2.0 *)

Module V1_2.
Import Types Verification.

Definition CONSTRAINT_TYPES : gmap string ConstraintTypeDefinition :=
  list_to_map [
    ("core:rate:max_per_minute", {| type := limit; valueType := integer |});
    ("core:rate:max_per_hour", {| type := limit; valueType := integer |});
    ("core:rate:max_per_day", {| type := limit; valueType := integer |});
    ("core:cost:max_per_action", {| type := limit; valueType := integer |});
    ("core:cost:max_cumulative", {| type := limit; valueType := integer |});
    ("core:pricing:per_call_cents", {| type := term; valueType := integer |});
    ("core:pricing:per_minute_cents", {| type := term; valueType := integer |});
    ("core:pricing:model", {| type := term; valueType := string_value |});
    ("core:pricing:currency", {| type := term; valueType := string_value |});
    ("core:pricing:free_tier_calls", {| type := term; valueType := integer |});
    ("core:sla:uptime_basis_points", {| type := term; valueType := integer |});
    ("core:sla:response_time_ms", {| type := term; valueType := integer |});
    ("core:sla:p99_response_ms", {| type := term; valueType := integer |});
    ("core:platform_fee:basis_points", {| type := term; valueType := integer |})
  ].

(** The members of the protocol SDK's [DenyReason] that this repository
    names. *)
Inductive DenyReason :=
| PASSPORT_MISSING
| ISSUER_NOT_ALLOWED
| INVALID_SIGNATURE
| PASSPORT_EXPIRED
| PASSPORT_REVOKED
| CATALOG_VERSION_DEPRECATED
| PERMISSION_DENIED
| CONSTRAINT_VIOLATED
| APPROVAL_REQUIRED
| RATE_LIMITED
| ANTI_DOWNGRADE
| CATALOG_PIN_MISMATCH
| SESSION_INVALID
| PARENT_INVALID
| CHAIN_TOO_DEEP.

Inductive Decision := permit | deny_.
Inductive ConstraintDecision := PERMIT | SUSPEND | BLOCK.

Inductive DenialMessage :=
| Text (s : string)
| FromValidation (m : ValidationMessage).

Record VerifyDenial := {
  code : DenyReason;
  message : DenialMessage;
  upgrade_template : option string;
}.

Record VerifyResult := {
  allowed : bool;
  decision : Decision;
  constraint_decision : option ConstraintDecision;
  reason_codes : option (list string);
  obligations : option (list string);
  denial : option VerifyDenial;
  effective_constraints : option (gmap string JSValue);
  confident : bool;
}.

(** Types of the protocol SDK, with the fields this repository reads. *)
Record AnonymousAccessPolicy := {
  enabled : bool;
  allowed_actions : list string;
  read_only : option bool;
  rate_limit_per_minute : option Z;
  rate_limit_per_hour : option Z;
  upgrade_message : option string;
}.

Record AnonymousDecision := {
  anon_allowed : bool;
}.

Record ConstraintEvaluation := {
  ev_decision : ConstraintDecision;
  ev_reason : option string;
}.

Record CELResult := {
  cel_decision : ConstraintDecision;
  evaluations : list ConstraintEvaluation;
  cel_reason_codes : option (list string);
  cel_obligations : list string;
}.

Definition REQUIRE_APPROVAL : string := "require_approval".

(** The functions imported from the protocol SDK [uniplex], which is not
    part of this repository.  [evaluateConstraints constraints action
    costCents metadata]; [evaluateAnonymousAccess action policy limiter
    sourceId] may update the anonymous rate limiter it is given;
    [MemoryAnonymousRateLimiter perMinute perHour] is the constructor. *)
Class ProtocolSDK (AnonymousRateLimiter : Type) := {
  evaluateConstraints :
    gmap string JSValue -> string -> option Z -> gmap string JSValue ->
    Outcome JSError CELResult;
  evaluateAnonymousAccess :
    string -> AnonymousAccessPolicy -> AnonymousRateLimiter -> string ->
    Outcome JSError (option AnonymousDecision) * AnonymousRateLimiter;
  MemoryAnonymousRateLimiter : Z -> Z -> AnonymousRateLimiter;
}.

Section WithPlatform.
Context `{Platform} {AnonymousRateLimiter : Type} `{!ProtocolSDK AnonymousRateLimiter}.

Record VerifyLocallyParams := {
  passport : option Passport;
  catalog : CachedCatalog;
  revocationList : gset string;
  issuerKeys : gmap string string;
  rateLimiter : InMemoryRateLimiter;
  action : string;
  context : gmap string JSValue;
  skipSignatureVerification : bool;
  anonymousPolicy : option AnonymousAccessPolicy;
  anonymousRateLimiter : option AnonymousRateLimiter;
  sourceId : option string;
}.

Record DenyExtras := {
  x_upgrade_template : option string;
  x_constraint_decision : option ConstraintDecision;
  x_reason_codes : option (list string);
  x_obligations : option (list string);
}.

Definition no_extras : DenyExtras :=
  {| x_upgrade_template := None; x_constraint_decision := None;
     x_reason_codes := None; x_obligations := None |}.

Definition block_extras : DenyExtras :=
  {| x_upgrade_template := None; x_constraint_decision := Some BLOCK;
     x_reason_codes := None; x_obligations := None |}.

Definition deny (code : DenyReason) (message : DenialMessage) (extras : DenyExtras)
    : VerifyResult :=
  {| allowed := false;
     decision := deny_;
     constraint_decision := x_constraint_decision extras;
     reason_codes := x_reason_codes extras;
     obligations := x_obligations extras;
     denial := Some {| code := code; message := message;
                       upgrade_template := x_upgrade_template extras |};
     effective_constraints := None;
     confident := true |}.

(** What a call leaves behind: its result, the rate limiter, and the
    anonymous rate limiter that was passed in. *)
Record Post := {
  result : Outcome JSError VerifyResult;
  rateLimiter_after : InMemoryRateLimiter;
  anonymousRateLimiter_after : option AnonymousRateLimiter;
}.

Definition verifyLocally (params : VerifyLocallyParams) (clock : Clock) : Post :=
  let rateLimiter := rateLimiter params in
  let action := action params in
  let context := context params in
  let leave r := {| result := r; rateLimiter_after := rateLimiter;
                    anonymousRateLimiter_after := anonymousRateLimiter params |} in
  (* Step 1: check passport exists; if null, try the anonymous policy *)
  match passport params with
  | None =>
      match anonymousPolicy params with
      | Some anonymousPolicy =>
          if enabled anonymousPolicy then
            let limiter :=
              default (MemoryAnonymousRateLimiter
                         (default 5 (rate_limit_per_minute anonymousPolicy))
                         (default 50 (rate_limit_per_hour anonymousPolicy)))
                (anonymousRateLimiter params) in
            let '(anonResult, limiter') :=
              evaluateAnonymousAccess action anonymousPolicy limiter
                (default "unknown" (sourceId params)) in
            {| result :=
                 anonResult ← anonResult;
                 if (match anonResult with Some d => anon_allowed d | None => false end)
                 then Returned {| allowed := true; decision := permit;
                                  constraint_decision := None; reason_codes := None;
                                  obligations := None; denial := None;
                                  effective_constraints := None; confident := true |}
                 else
                   let upgradeMsg :=
                     default "Get a passport for full access and higher rate limits"
                       (upgrade_message anonymousPolicy) in
                   Returned (deny PASSPORT_MISSING (Text upgradeMsg) no_extras);
               rateLimiter_after := rateLimiter;
               anonymousRateLimiter_after :=
                 (fun _ => limiter') <$> anonymousRateLimiter params |}
          else leave (Returned (deny PASSPORT_MISSING (Text "No passport in session") no_extras))
      | None =>
          leave (Returned (deny PASSPORT_MISSING (Text "No passport in session") no_extras))
      end
  | Some passport =>
  (* Step 2: verify signature using the issuer's public key *)
  match lookup_issuerKey (issuerKeys params) (issuer_id passport) with
  | None =>
      leave (Returned (deny ISSUER_NOT_ALLOWED
                         (Text ("Unknown issuer: " +:+ issuer_id passport)) block_extras))
  | Some issuerKey =>
  if negb (skipSignatureVerification params)
     && negb (verifySignatureSync passport issuerKey)
  then leave (Returned (deny INVALID_SIGNATURE (Text "Passport signature invalid")
                          block_extras))
  (* Step 3: check expiration *)
  else if date_lt (expires_at passport) (now_expiry clock)
  then leave (Returned (deny PASSPORT_EXPIRED (Text "Passport has expired") block_extras))
  (* Step 4: check revocation *)
  else if bool_decide (passport_id passport ∈ revocationList params)
  then leave (Returned (deny PASSPORT_REVOKED (Text "Passport has been revoked")
                          block_extras))
  else
  (* Step 5: resolve catalog version *)
  match resolveCatalogVersion (catalog params) (Some passport) with
  | Deprecated =>
      leave (Returned (deny CATALOG_VERSION_DEPRECATED
                         (Text "Passport pins to deprecated catalog version")
                         block_extras))
  | Resolved effectiveCatalog =>
  (* Step 6: permission exists in the catalog *)
  match js_get (permissionsByKey effectiveCatalog) action with
  | None =>
      leave (Returned (deny PERMISSION_DENIED
                         (Text (action +:+ " not in gate catalog")) block_extras))
  | Some catalogEntry =>
  (* Step 7: permission exists in the passport *)
  match js_get (claimsByKey passport) action with
  | None =>
      leave (Returned (deny PERMISSION_DENIED
                         (Text ("Passport lacks " +:+ action +:+ " permission"))
                         {| x_upgrade_template := field default_template catalogEntry ≫= id;
                            x_constraint_decision := Some BLOCK;
                            x_reason_codes := None; x_obligations := None |}))
  | Some Inherited =>
      (* passportPermission.constraints is undefined: Object.entries throws
         in mergeConstraints *)
      leave (Thrown TypeError)
  | Some (Own passportPermission) =>
  (* Step 8: constraint enforcement layer *)
  let effectiveConstraints :=
    mergeConstraints CONSTRAINT_TYPES (default ∅ (field cp_constraints catalogEntry))
      (constraints passportPermission) in
  match evaluateConstraints effectiveConstraints action
          (context !! "amount_canonical" ≫= typeof_number) context with
  | Thrown e => leave (Thrown e)
  | Returned celResult =>
  match cel_decision celResult with
  | BLOCK =>
      let blockEval :=
        List.find (fun e => match ev_decision e with BLOCK => true | _ => false end)
          (evaluations celResult) in
      leave (Returned (deny CONSTRAINT_VIOLATED
                         (Text (default "Constraint violation" (blockEval ≫= ev_reason)))
                         block_extras))
  | SUSPEND =>
      leave (Returned (deny APPROVAL_REQUIRED
                         (Text "Action requires approval before proceeding")
                         {| x_upgrade_template := None;
                            x_constraint_decision := Some SUSPEND;
                            x_reason_codes :=
                              Some (default ["approval_required"]
                                      (cel_reason_codes celResult));
                            x_obligations :=
                              Some (match cel_obligations celResult with
                                    | [] => [REQUIRE_APPROVAL]
                                    | _ :: _ => cel_obligations celResult
                                    end) |}))
  | PERMIT =>
  (* legacy constraint validation *)
  match validateConstraints CONSTRAINT_TYPES (constraints passportPermission)
          context (field cp_constraints catalogEntry) with
  | Thrown e => leave (Thrown e)
  | Returned legacyResult =>
  if negb (valid legacyResult)
  then leave (Returned (deny CONSTRAINT_VIOLATED
                          (default (Text "Constraint validation failed")
                             (FromValidation <$> Verification.message legacyResult))
                          block_extras))
  (* Step 9: check rate limits *)
  else if negb (check rateLimiter action (Some (passport_id passport)) (now_check clock))
  then leave (Returned (deny RATE_LIMITED (Text "Rate limit exceeded") block_extras))
  else
    {| result :=
         Returned {| allowed := true;
                     decision := permit;
                     constraint_decision := Some PERMIT;
                     reason_codes := None;
                     obligations := None;
                     denial := None;
                     effective_constraints := Some effectiveConstraints;
                     confident := true |};
       rateLimiter_after :=
         increment rateLimiter action (Some (passport_id passport)) (now_increment clock);
       anonymousRateLimiter_after := anonymousRateLimiter params |}
  end end end end end end end end.

End WithPlatform.

End V1_2.

(** * cache.ts *)

Module Cache.
Import Types Verification.

Inductive FailMode := fail_open | fail_closed.

Record FailModeOverride := {
  o_fail_mode : FailMode;
  o_revocation_max_age_minutes : Z;
}.

Record CacheConfig := {
  catalog_max_age_minutes : Z;
  revocation_max_age_minutes : Z;
  fail_mode : FailMode;
  fail_mode_overrides : option (gmap string FailModeOverride);
}.

Definition DEFAULT_CACHE_CONFIG : CacheConfig :=
  {| catalog_max_age_minutes := 5;
     revocation_max_age_minutes := 1;
     fail_mode := fail_open;
     fail_mode_overrides := None |}.

Record CacheState := {
  catalog : option CachedCatalog;
  revocationList : gset string;
  revocationCachedAt : Z;
  issuerKeys : gmap string string;
  issuerKeysCachedAt : Z;
}.

(** The fields of [CacheManager] that its synchronous methods read. *)
Record CacheManager := {
  state : CacheState;
  config : CacheConfig;
  gateId : string;
}.

(** The constructor: [serverConfig.cache ?? DEFAULT_CACHE_CONFIG]. *)
Definition new_CacheManager (cache : option CacheConfig) (gate_id : string)
    : CacheManager :=
  {| state := {| catalog := None; revocationList := ∅; revocationCachedAt := 0;
                 issuerKeys := ∅; issuerKeysCachedAt := 0 |};
     config := default DEFAULT_CACHE_CONFIG cache;
     gateId := gate_id |}.

(** ** Freshness checks; [now] is the value read from [Date.now()]. *)

Definition isCatalogFresh (m : CacheManager) (now : Z) : bool :=
  match catalog (state m) with
  | None => false
  | Some c =>
      let ageMs := now - cached_at c in
      let maxAgeMs := catalog_max_age_minutes (config m) * 60 * 1000 in
      ageMs <? maxAgeMs
  end.

(** [action ? this.config.fail_mode_overrides?.[action] : undefined]: an
    absent action and the empty string select no override. *)
Definition override_of (m : CacheManager) (action : option string)
    : option FailModeOverride :=
  match action with
  | Some a =>
      if String.eqb a EmptyString then None
      else fail_mode_overrides (config m) ≫= (fun overrides => overrides !! a)
  | None => None
  end.

Definition isRevocationListFresh (m : CacheManager) (action : option string) (now : Z)
    : bool :=
  let ageMs := now - revocationCachedAt (state m) in
  let maxAgeMinutes :=
    default (revocation_max_age_minutes (config m))
      (o_revocation_max_age_minutes <$> override_of m action) in
  let maxAgeMs := maxAgeMinutes * 60 * 1000 in
  ageMs <? maxAgeMs.

Definition getFailMode (m : CacheManager) (action : option string) : FailMode :=
  default (fail_mode (config m)) (o_fail_mode <$> override_of m action).

Definition getCatalogVersion (m : CacheManager) : option Z :=
  (fun c => version (current c)) <$> catalog (state m).

(** ** Cache updates *)

Definition with_state (m : CacheManager) (s : CacheState) : CacheManager :=
  {| state := s; config := config m; gateId := gateId m |}.

(** The loop over [Object.values(catalog.current.permissionsByKey)] files
    every permission under its own [permission_key]; the order of the
    values matters only when two of them carry the same key. *)
Definition updateCatalog (c : CachedCatalog) (now : Z) (m : CacheManager)
    : CacheManager :=
  let permissionsByKey :=
    map_fold (fun _ perm idx => js_set (cp_permission_key perm) perm idx)
      ∅ (permissionsByKey (current c)) in
  with_state m
    {| catalog := Some {| cat_gate_id := cat_gate_id c;
                          current := current c;
                          versions := versions c;
                          min_compatible_version := min_compatible_version c;
                          cached_at := now;
                          cat_permissionsByKey := permissionsByKey |};
       revocationList := revocationList (state m);
       revocationCachedAt := revocationCachedAt (state m);
       issuerKeys := issuerKeys (state m);
       issuerKeysCachedAt := issuerKeysCachedAt (state m) |}.

Definition updateRevocationList (revocations : list string) (now : Z)
    (m : CacheManager) : CacheManager :=
  with_state m
    {| catalog := catalog (state m);
       revocationList := list_to_set revocations;
       revocationCachedAt := now;
       issuerKeys := issuerKeys (state m);
       issuerKeysCachedAt := issuerKeysCachedAt (state m) |}.

Definition updateIssuerKeys (keys : gmap string string) (now : Z) (m : CacheManager)
    : CacheManager :=
  with_state m
    {| catalog := catalog (state m);
       revocationList := revocationList (state m);
       revocationCachedAt := revocationCachedAt (state m);
       issuerKeys := keys;
       issuerKeysCachedAt := now |}.

(** ** Catalog refresh *)

(** A permission as the catalog endpoint sends it. *)
Record PermissionData := {
  d_permission_key : string;
  d_display_name : option string;
  d_description : option string;
  d_risk_level : option RiskLevel;
  d_constraints : option (gmap string JSValue);
  d_default_template : option string;
  d_required_constraints : option (list string);
}.

(** The object literal that the loop of [buildPermissionIndex] files. *)
Definition entry_of (perm : PermissionData) : CatalogPermission :=
  {| cp_permission_key := d_permission_key perm;
     display_name := default (d_permission_key perm) (d_display_name perm);
     description := d_description perm;
     risk_level := default low (d_risk_level perm);
     cp_constraints := default ∅ (d_constraints perm);
     default_template := d_default_template perm;
     required_constraints := d_required_constraints perm |}.

Definition buildPermissionIndex (permissions : list PermissionData)
    : gmap string CatalogPermission :=
  fold_left (fun index perm => js_set (d_permission_key perm) (entry_of perm) index)
    permissions ∅.

(** The body of the catalog endpoint's answer. *)
Record CatalogData := {
  d_version : option Z;
  d_permissions : option (list PermissionData);
  d_published_at : option string;
  d_min_compatible_version : option Z;
}.

(** [refreshCatalog]: [fetched] is what [fetch] and [response.json()]
    produce, an exception included; [now_iso], [now] and [now'] are the
    reads of the clock.  A failure is logged and leaves the cache as it is. *)
Definition refreshCatalog (fetched : Outcome JSError CatalogData)
    (now_iso : string) (now now' : Z) (m : CacheManager) : CacheManager :=
  match fetched with
  | Thrown _ => m
  | Returned data =>
      let c :=
        {| cat_gate_id := gateId m;
           current :=
             {| version := default 1 (d_version data);
                permissionsByKey :=
                  buildPermissionIndex (default [] (d_permissions data));
                published_at := default now_iso (d_published_at data) |};
           versions := ∅;
           min_compatible_version := default 1 (d_min_compatible_version data);
           cached_at := now;
           cat_permissionsByKey := ∅ |} in
      updateCatalog c now' m
  end.

(** ** Catalog version resolution; [None] is [null]. *)

Definition resolveCatalogVersion (m : CacheManager) (passport : option Passport)
    : option CatalogVersion :=
  match catalog (state m) with
  | None => None
  | Some c =>
      match passport ≫= catalog_version_pin with
      | None => Some (current c)
      | Some pins =>
          match pins !! cat_gate_id c with
          | None => Some (current c)
          | Some pin =>
              if pin <? min_compatible_version c then None
              else Some (default (current c) (versions c !! pin))
          end
      end
  end.

End Cache.

(** * session.ts *)

Module Sessions.
Import Types Verification.

Record Session := {
  session_id : string;
  passport : option Passport;
  created_at : Z;
  last_activity : Z;
}.

(** The fields of [SafeDefaultConfig] that the session manager reads. *)
Record SafeDefaultConfig := {
  enabled : bool;
  auto_issue : bool;
}.

Record SessionManager := {
  sessions : gmap string Session;
  safeDefaultConfig : SafeDefaultConfig;
}.

Definition with_sessions (m : SessionManager) (s : gmap string Session)
    : SessionManager :=
  {| sessions := s; safeDefaultConfig := safeDefaultConfig m |}.

Definition touch (session : Session) (passport : option Passport) (now : Z) : Session :=
  {| session_id := session_id session;
     passport := passport;
     created_at := created_at session;
     last_activity := now |}.

(** ** Session CRUD *)

(** [fetched] is the passport in the answer of the safe-default endpoint, or
    the exception of the network call; [now] and [now'] are the first and
    the second read of [Date.now()].  The session object of an existing
    session is updated in place, so the map holds the returned session. *)
Definition getOrCreateSession (m : SessionManager) (sessionId : string)
    (fetched : Outcome JSError Passport) (now now' : Z) : Session * SessionManager :=
  match sessions m !! sessionId with
  | Some session =>
      let session' := touch session (passport session) now in
      (session', with_sessions m (<[sessionId := session']> (sessions m)))
  | None =>
      let issued :=
        if enabled (safeDefaultConfig m) && auto_issue (safeDefaultConfig m)
        then match fetched with
             | Returned p => Some (buildPassportIndex p)
             | Thrown _ => None
             end
        else None in
      let session :=
        {| session_id := sessionId; passport := issued;
           created_at := now; last_activity := now' |} in
      (session, with_sessions m (<[sessionId := session]> (sessions m)))
  end.

Definition getSession (m : SessionManager) (sessionId : string) : option Session :=
  sessions m !! sessionId.

Definition deleteSession (m : SessionManager) (sessionId : string)
    : bool * SessionManager :=
  (bool_decide (is_Some (sessions m !! sessionId)),
   with_sessions m (delete sessionId (sessions m))).

(** ** Passport management *)

Definition setPassport (m : SessionManager) (sessionId : string)
    (passport : Passport) (now : Z) : SessionManager :=
  match sessions m !! sessionId with
  | Some session =>
      with_sessions m
        (<[sessionId := touch session (Some (buildPassportIndex passport)) now]>
           (sessions m))
  | None => m
  end.

Definition getPassport (m : SessionManager) (sessionId : string) : option Passport :=
  sessions m !! sessionId ≫= passport.

Definition clearPassport (m : SessionManager) (sessionId : string) (now : Z)
    : SessionManager :=
  match sessions m !! sessionId with
  | Some session =>
      with_sessions m (<[sessionId := touch session None now]> (sessions m))
  | None => m
  end.

(** ** Permission queries *)

Definition sessionHasPermission (m : SessionManager) (sessionId action : string) : bool :=
  hasPermission (getPassport m sessionId) action.

Definition getSessionPermissions (m : SessionManager) (sessionId : string)
    : list string :=
  match getPassport m sessionId with
  | None => []
  | Some passport => permission_key <$> permissions passport
  end.

(** An absent action and the empty string select the constraints of the
    passport itself. *)
Definition getSessionConstraints (m : SessionManager) (sessionId : string)
    (action : option string) : option (gmap string JSValue) :=
  match getPassport m sessionId with
  | None => None
  | Some passport =>
      match action with
      | Some a =>
          if String.eqb a EmptyString then Some (passport_constraints passport)
          else getPermissionConstraints (Some passport) a
      | None => Some (passport_constraints passport)
      end
  end.

(** ** Session cleanup *)

(** The loops over [this.sessions.entries()], with the counter [cleaned];
    [maxInactiveMs] defaults to thirty minutes. *)
Definition cleanupInactiveSessions (m : SessionManager) (maxInactiveMs : option Z)
    (now : Z) : Z * SessionManager :=
  let maxInactiveMs := default (30 * 60 * 1000) maxInactiveMs in
  let '(cleaned, remaining) :=
    map_fold
      (fun sessionId session '(cleaned, remaining) =>
         if maxInactiveMs <? now - last_activity session
         then (cleaned + 1, delete sessionId remaining)
         else (cleaned, remaining))
      (0, sessions m) (sessions m) in
  (cleaned, with_sessions m remaining).

(** [now] is the instant of [new Date()]. *)
Definition cleanupExpiredPassports (m : SessionManager) (now : Z)
    : Z * SessionManager :=
  let '(cleaned, remaining) :=
    map_fold
      (fun sessionId session '(cleaned, remaining) =>
         match passport session with
         | Some p =>
             if date_lt (expires_at p) now
             then (cleaned + 1,
                   <[sessionId := {| session_id := session_id session;
                                     passport := None;
                                     created_at := created_at session;
                                     last_activity := last_activity session |}]>
                     remaining)
             else (cleaned, remaining)
         | None => (cleaned, remaining)
         end)
      (0, sessions m) (sessions m) in
  (cleaned, with_sessions m remaining).

End Sessions.

(** * tools/wrapper.ts *)

Module Wrapper.
Import Transforms Types.





Section WithLibraries.
(** The tool input, the function [JSONPath] of the library [jsonpath-plus],
    which answers the list of matches, and the built-in [String(value)]. *)
Variable Input : Type.
Variable JSONPath : string -> Input -> Outcome JSError (list JSValue).
Variable String_of : JSValue -> Outcome JSError string.






End WithLibraries.

End Wrapper.

(** * Vocabulary of the statements *)

Import Transforms.
Import Types Verification.

(** ** Decimal numerals *)

Definition all_digits (s : list ascii) : Prop := forallb is_digit s = true.

(** ** Constraint merge *)

(** The credential's constraints set no prototype: they hold no object
    under the name [__proto__].  (The merge would make such an object the
    prototype of the merged constraints, and its members would show in the
    reads [merged[key]] of the loop.) *)
Definition sets_no_prototype (passportConstraints : gmap string JSValue) : Prop :=
  forall o, passportConstraints !! "__proto__" <> Some (JObject o).

Section MergeVocabulary.
Variable R : gmap string ConstraintTypeDefinition.

(** The value that one loop iteration leaves under its own key depends only
    on the value that was there. *)
Definition merged_value (key : string) (passportValue : JSValue)
    (catalogValue : option JSValue) : option JSValue :=
  match (if is_limit R key then typeof_number passportValue else None) with
  | Some passportNum =>
      match catalogValue ≫= typeof_number with
      | Some catalogNum => Some (JNum (Z.min catalogNum passportNum))
      | None => Some passportValue
      end
  | None => if is_term R key then catalogValue else Some passportValue
  end.

End MergeVocabulary.

(** ** Receipts *)

(** The least integer that is not below [a / b], for a positive [b]. *)
Definition ceil_div (a b : Z) : Z := - ((- a) / b).

Section ReceiptVocabulary.
Import Commerce.

(** A per-minute tool that also lists a per-call price, called once, with a
    measured duration of 0 ms. *)
Definition zero_duration_params : IssueReceiptParams :=
  {| p_gate_id := "gate_test";
     p_agent_id := "agent_test";
     p_passport_id := "passport_123";
     p_permission_key := "llm:generate";
     p_catalog_version := 1;
     p_catalog_content_hash := None;
     p_effective_constraints :=
       {[ "core:pricing:model" := JStr "per_minute";
          "core:pricing:per_minute_cents" := JNum 100;
          "core:pricing:per_call_cents" := JNum 10 ]};
     p_request_nonce := Some "nonce_abc123";
     p_units := None;
     p_duration_ms := Some 0;
     p_signing_key_id := "gate_test#key-1" |}.

End ReceiptVocabulary.

(** ** Fixtures: the mock passport and catalog of the test suite *)

Module Fixtures.
Import Types Verification.

(** Platforms for the examples: [ed25519_verify] accepts every signature,
    or rejects every signature; [Number] of a string of decimal digits is
    its value, of any other string it is taken to be [NaN]. *)
Definition digits_to_number (s : string) : option Z :=
  match Transforms.BigInt (list_ascii_of_string s) with
  | Returned n => Some n
  | Thrown _ => None
  end.

Definition accepting_platform : Platform :=
  {| ed25519_verify := fun _ _ _ => Returned true;
     StringToNumber := digits_to_number |}.

Definition rejecting_platform : Platform :=
  {| ed25519_verify := fun _ _ _ => Returned false;
     StringToNumber := digits_to_number |}.

(** A stand-in for the protocol SDK: the constraint evaluator permits, and
    anonymous access is allowed for the actions the policy lists. *)
Definition permissive_sdk : V1_2.ProtocolSDK unit :=
  {| V1_2.evaluateConstraints := fun _ _ _ _ =>
       Returned {| V1_2.cel_decision := V1_2.PERMIT; V1_2.evaluations := [];
                   V1_2.cel_reason_codes := None; V1_2.cel_obligations := [] |};
     V1_2.evaluateAnonymousAccess := fun action policy limiter _ =>
       (Returned (Some {| V1_2.anon_allowed :=
                            bool_decide (action ∈ V1_2.allowed_actions policy) |}),
        limiter);
     V1_2.MemoryAnonymousRateLimiter := fun _ _ => tt |}.

Definition mock_permissions (limit_key : string) : list PassportPermission :=
  [ {| permission_key := "flights:search"; constraints := ∅ |};
    {| permission_key := "flights:book";
       constraints := {[ limit_key := JNum 100000 ]} |} ].

(** [createMockPassport], issued at [issued] and expiring at [expires]. *)
Definition mock_passport (limit_key : string) (issued expires : Z) : Passport :=
  buildPassportIndex
    {| passport_id := "passport_test_123";
       issuer_id := "issuer_trusted";
       agent_id := "agent_test";
       gate_id := "gate_test";
       permissions := mock_permissions limit_key;
       passport_constraints := ∅;
       signature := "00000000";
       expires_at := Some expires;
       issued_at := Some issued;
       catalog_version_pin := None;
       claimsByKey := ∅ |}.

Definition mock_catalog_permissions (limit_key : string)
    : gmap string CatalogPermission :=
  {[ "flights:search" :=
       {| cp_permission_key := "flights:search"; display_name := "Search Flights";
          description := None; risk_level := low; cp_constraints := ∅;
          default_template := None; required_constraints := None |};
     "flights:book" :=
       {| cp_permission_key := "flights:book"; display_name := "Book Flights";
          description := None; risk_level := high;
          cp_constraints := {[ limit_key := JNum 500000 ]};
          default_template := Some "travel-booker";
          required_constraints := Some [limit_key] |} ]}.

(** [createMockCatalog] *)
Definition mock_catalog (limit_key : string) : CachedCatalog :=
  {| cat_gate_id := "gate_test";
     current := {| version := 1;
                   permissionsByKey := mock_catalog_permissions limit_key;
                   published_at := "2026-01-01T00:00:00.000Z" |};
     versions := ∅;
     min_compatible_version := 1;
     cached_at := 0;
     cat_permissionsByKey := mock_catalog_permissions limit_key |}.

Definition mock_issuerKeys : gmap string string :=
  {[ "issuer_trusted" := "0000" ]}.

Definition at_instant (t : Z) : Clock :=
  {| now_expiry := t; now_check := t; now_increment := t |}.

End Fixtures.

(** ** The pipeline *)

Section ExpiryVocabulary.
Context `{Platform}.

(** The pipeline passes its step 2 and comes to the expiry check: the read
    [issuerKeys[issuer_id]] finds a key, and the signature is accepted or
    its verification is skipped. *)
Definition reaches_expiry_check (issuerKeys : gmap string string) (skip : bool)
    (p : Passport) : Prop :=
  exists issuerKey,
    lookup_issuerKey issuerKeys (issuer_id p) = Some issuerKey
    /\ (skip = true \/ verifySignatureSync p issuerKey = true).

End ExpiryVocabulary.

(** ** The pipeline, revision 1.2.0 *)

Section PipelineVocabulary.
Import V1_2.
Context `{Platform} {AnonymousRateLimiter : Type}.

Abbreviation Params := (@VerifyLocallyParams AnonymousRateLimiter).



Definition expired (clock : Clock) (p : Passport) : Prop :=
  exists t, expires_at p = Some t /\ t < now_expiry clock.




(** The same call with another anonymous-access configuration. *)
Definition with_anonymous (params : Params) (policy : option AnonymousAccessPolicy)
    (limiter : option AnonymousRateLimiter) (source : option string) : Params :=
  {| passport := passport params;
     catalog := catalog params;
     revocationList := revocationList params;
     issuerKeys := issuerKeys params;
     rateLimiter := rateLimiter params;
     action := action params;
     context := context params;
     skipSignatureVerification := skipSignatureVerification params;
     anonymousPolicy := policy;
     anonymousRateLimiter := limiter;
     sourceId := source |}.

(** The parameters of a second call: the same, with the rate limiters as
    the first call left them. *)
Definition after (params : Params) (post : @Post AnonymousRateLimiter) : Params :=
  {| passport := passport params;
     catalog := catalog params;
     revocationList := revocationList params;
     issuerKeys := issuerKeys params;
     rateLimiter := rateLimiter_after post;
     action := action params;
     context := context params;
     skipSignatureVerification := skipSignatureVerification params;
     anonymousPolicy := anonymousPolicy params;
     anonymousRateLimiter := anonymousRateLimiter_after post;
     sourceId := sourceId params |}.

(** The call returned a denial with code [c]. *)
Definition denied_with (o : Outcome JSError VerifyResult) (c : DenyReason) : Prop :=
  exists r, o = Returned r /\ code <$> denial r = Some c.

(** The pipeline reaches the expiry check and the check fails. *)
Definition fails_expiry_check (params : @VerifyLocallyParams AnonymousRateLimiter)
    (clock : Clock) : Prop :=
  exists p issuerKey t,
    passport params = Some p
    /\ lookup_issuerKey (issuerKeys params) (issuer_id p) = Some issuerKey
    /\ (skipSignatureVerification params = true
        \/ verifySignatureSync p issuerKey = true)
    /\ expires_at p = Some t
    /\ t < now_expiry clock.

(** The result of a permitted call, read off the credential, the catalog and
    the action alone. *)
Definition anonymous_permit : VerifyResult :=
  {| allowed := true; decision := permit; constraint_decision := None;
     reason_codes := None; obligations := None; denial := None;
     effective_constraints := None; confident := true |}.

Definition permit_result (passport : option Passport) (catalog : CachedCatalog)
    (action : string) : VerifyResult :=
  match passport with
  | None => anonymous_permit
  | Some p =>
      match resolveCatalogVersion catalog (Some p) with
      | Resolved effectiveCatalog =>
          match js_get (permissionsByKey effectiveCatalog) action,
                claimsByKey p !! action with
          | Some catalogEntry, Some passportPermission =>
              {| allowed := true; decision := permit;
                 constraint_decision := Some PERMIT;
                 reason_codes := None; obligations := None; denial := None;
                 effective_constraints :=
                   Some (mergeConstraints CONSTRAINT_TYPES
                           (default ∅ (field cp_constraints catalogEntry))
                           (constraints passportPermission));
                 confident := true |}
          | _, _ => anonymous_permit
          end
      | Deprecated => anonymous_permit
      end
  end.

Definition is_permit_1_2 (o : Outcome JSError V1_2.VerifyResult) : bool :=
  match o with
  | Returned r => match V1_2.decision r with V1_2.permit => true | V1_2.deny_ => false end
  | Thrown _ => false
  end.

End PipelineVocabulary.

(** ** The pipeline, revision 1.0.0 *)

Section PipelineVocabulary_1_0.
Import V1_0.
Context `{Platform}.

Definition denied_with_1_0 (o : Outcome JSError VerifyResult) (c : DenialCode) : Prop :=
  exists r, o = Returned r /\ code <$> denial r = Some c.

Definition fails_expiry_check_1_0 (params : VerifyLocallyParams) (clock : Clock) : Prop :=
  exists p issuerKey t,
    passport params = Some p
    /\ lookup_issuerKey (issuerKeys params) (issuer_id p) = Some issuerKey
    /\ (skipSignatureVerification params = true
        \/ verifySignatureSync p issuerKey = true)
    /\ expires_at p = Some t
    /\ t < now_expiry clock.

(** [Number(v)] returns for [v]. *)
Definition convertible (v : JSValue) : Prop := exists n, Number v = Returned n.

Definition is_permit_1_0 (o : Outcome JSError V1_0.VerifyResult) : bool :=
  match o with
  | Returned r => V1_0.allowed r
  | Thrown _ => false
  end.

End PipelineVocabulary_1_0.

(** ** Calls of the test suite's shape *)

Section ExampleCalls.
Import V1_2 Fixtures.

Definition anon_policy : AnonymousAccessPolicy :=
  {| enabled := true;
     allowed_actions := ["flights:search"; "data:read"];
     read_only := Some true;
     rate_limit_per_minute := Some 5;
     rate_limit_per_hour := Some 50;
     upgrade_message := None |}.

(** A call of the test suite's shape: known issuer, not expired, not
    revoked, anonymous access enabled for the action. *)
Definition mock_params (skip : bool) (action : string) : @VerifyLocallyParams unit :=
  {| passport := Some (mock_passport "core:cost:max_per_action" 0 86400000);
     catalog := mock_catalog "core:cost:max_per_action";
     revocationList := ∅;
     issuerKeys := mock_issuerKeys;
     rateLimiter := new_InMemoryRateLimiter;
     action := action;
     context := ∅;
     skipSignatureVerification := skip;
     anonymousPolicy := Some anon_policy;
     anonymousRateLimiter := None;
     sourceId := Some "test-client" |}.

(** The call of the rate-limit test: [flights:search] limited to two calls
    per minute. *)
Definition mock_params_limited : @VerifyLocallyParams unit :=
  {| passport := Some (mock_passport "core:cost:max_per_action" 0 86400000);
     catalog := mock_catalog "core:cost:max_per_action";
     revocationList := ∅;
     issuerKeys := mock_issuerKeys;
     rateLimiter := setLimit "flights:search" 2 60000 new_InMemoryRateLimiter;
     action := "flights:search";
     context := ∅;
     skipSignatureVerification := true;
     anonymousPolicy := Some anon_policy;
     anonymousRateLimiter := None;
     sourceId := Some "test-client" |}.

Definition mock_params_expiring (action : string) : @V1_2.VerifyLocallyParams unit :=
  {| V1_2.passport := Some (mock_passport "core:cost:max_per_action" 0 5000);
     V1_2.catalog := mock_catalog "core:cost:max_per_action";
     V1_2.revocationList := ∅;
     V1_2.issuerKeys := mock_issuerKeys;
     V1_2.rateLimiter := new_InMemoryRateLimiter;
     V1_2.action := action;
     V1_2.context := ∅;
     V1_2.skipSignatureVerification := false;
     V1_2.anonymousPolicy := None;
     V1_2.anonymousRateLimiter := None;
     V1_2.sourceId := None |}.

(** The mock passport of revision 1.0.0 expiring at instant 5000, asking
    for [flights:search]. *)
Definition mock_params_1_0 (skip : bool) (context : gmap string JSValue)
    (action : string) (limiter : InMemoryRateLimiter) : V1_0.VerifyLocallyParams :=
  {| V1_0.passport := Some (mock_passport "core:cost:max" 0 5000);
     V1_0.catalog := mock_catalog "core:cost:max";
     V1_0.revocationList := ∅;
     V1_0.issuerKeys := mock_issuerKeys;
     V1_0.rateLimiter := limiter;
     V1_0.action := action;
     V1_0.context := context;
     V1_0.skipSignatureVerification := skip |}.

(** A call without credential. *)
Definition anonymous_call (policy : option V1_2.AnonymousAccessPolicy)
    (action : string) : @V1_2.VerifyLocallyParams unit :=
  {| V1_2.passport := None;
     V1_2.catalog := mock_catalog "core:cost:max_per_action";
     V1_2.revocationList := ∅;
     V1_2.issuerKeys := mock_issuerKeys;
     V1_2.rateLimiter := new_InMemoryRateLimiter;
     V1_2.action := action;
     V1_2.context := ∅;
     V1_2.skipSignatureVerification := true;
     V1_2.anonymousPolicy := policy;
     V1_2.anonymousRateLimiter := None;
     V1_2.sourceId := Some "test-client" |}.

End ExampleCalls.

(** * Vocabulary of the further properties *)

(** ** Decimal numerals *)

Definition all_spaces (s : list ascii) : Prop := forallb is_space s = true.

(** The outcome with the sign of a returned integer changed. *)
Definition negated (o : Outcome TransformError Z) : Outcome TransformError Z :=
  match o with
  | Returned r => Returned (- r)
  | Thrown e => Thrown e
  end.

(** ** Rate limiter *)

(** [increment] called once at each of the given instants, in order. *)
Definition increments (l : InMemoryRateLimiter) (action : string)
    (passportId : option string) (times : list Z) : InMemoryRateLimiter :=
  fold_left (fun l now => increment l action passportId now) times l.

(** The bucket of the pair is absent, or its window has ended at [now]. *)
Definition window_open (l : InMemoryRateLimiter) (action : string)
    (passportId : option string) (now : Z) : Prop :=
  match buckets l !! getBucketKey action passportId with
  | None => True
  | Some b => resetAt b <= now
  end.

(** ** Constraint validation *)

Section ValidationVocabulary.
Context `{Platform}.
Variable R : gmap string ConstraintTypeDefinition.

(** The number the loop of [validateConstraints] compares: the context value
    itself when it is a number, [Number(contextValue)] otherwise. *)
Definition context_number (v : JSValue) : Outcome JSError (option Z) :=
  match typeof_number v with
  | Some n => Returned (Some n)
  | None => Number v
  end.

(** Every numeric limit of the passport is respected by the context value
    of the same key, where the context has one. *)
Definition within_limits (passportConstraints context : gmap string JSValue) : Prop :=
  forall key p v,
    is_limit R key = true ->
    passportConstraints !! key = Some (JNum p) ->
    context !! key = Some v ->
    exists c, context_number v = Returned (Some c) /\ c <= p.

(** The message of [r] names a numeric limit of the passport that the
    context breaks, with the two numbers compared. *)
Definition reports_violation (passportConstraints context : gmap string JSValue)
    (r : ConstraintValidationResult) : Prop :=
  exists key p v,
    is_limit R key = true
    /\ passportConstraints !! key = Some (JNum p)
    /\ context !! key = Some v
    /\ ((context_number v = Returned None
         /\ message r = Some (InvalidContextValue key))
        \/ exists c, context_number v = Returned (Some c) /\ p < c
                     /\ message r = Some (ConstraintExceeded key c p)).

End ValidationVocabulary.

(** ** What a permit stands for *)

Section PermitVocabulary.
Context `{Platform}.


End PermitVocabulary.

Section PermitVocabulary_1_2.
Context `{Platform} {AnonymousRateLimiter : Type} `{!V1_2.ProtocolSDK AnonymousRateLimiter}.



End PermitVocabulary_1_2.

(** ** Repeated calls *)

Section RepeatedCalls.
Context `{Platform}.

(** The same call with another state of the rate limiter. *)
Definition with_rateLimiter (params : V1_0.VerifyLocallyParams)
    (l : InMemoryRateLimiter) : V1_0.VerifyLocallyParams :=
  {| V1_0.passport := V1_0.passport params;
     V1_0.catalog := V1_0.catalog params;
     V1_0.revocationList := V1_0.revocationList params;
     V1_0.issuerKeys := V1_0.issuerKeys params;
     V1_0.rateLimiter := l;
     V1_0.action := V1_0.action params;
     V1_0.context := V1_0.context params;
     V1_0.skipSignatureVerification := V1_0.skipSignatureVerification params |}.

(** [verifyLocally] called once at each reading of the clock, every call on
    the rate limiter as the call before left it. *)
Fixpoint calls_1_0 (params : V1_0.VerifyLocallyParams) (clocks : list Clock)
    : list (Outcome JSError V1_0.VerifyResult) :=
  match clocks with
  | [] => []
  | clock :: rest =>
      let post := V1_0.verifyLocally params clock in
      post.1 :: calls_1_0 (with_rateLimiter params post.2) rest
  end.

(** The call would be permitted if no rate limit were configured. *)
Definition permitted_without_limits (params : V1_0.VerifyLocallyParams)
    (clock : Clock) : Prop :=
  is_permit_1_0
    (V1_0.verifyLocally (with_rateLimiter params new_InMemoryRateLimiter) clock).1
  = true.

End RepeatedCalls.

(** ** Catalog limits *)

(** The catalog with the constraints of every permission replaced by what
    [f] gives for the permission. *)
Definition set_constraints (f : CatalogPermission -> gmap string JSValue)
    (entry : CatalogPermission) : CatalogPermission :=
  {| cp_permission_key := cp_permission_key entry;
     display_name := display_name entry;
     description := description entry;
     risk_level := risk_level entry;
     cp_constraints := f entry;
     default_template := default_template entry;
     required_constraints := required_constraints entry |}.

Definition relimit_version (f : CatalogPermission -> gmap string JSValue)
    (v : CatalogVersion) : CatalogVersion :=
  {| version := version v;
     permissionsByKey := set_constraints f <$> permissionsByKey v;
     published_at := published_at v |}.

Definition relimit (f : CatalogPermission -> gmap string JSValue)
    (c : CachedCatalog) : CachedCatalog :=
  {| cat_gate_id := cat_gate_id c;
     current := relimit_version f (current c);
     versions := relimit_version f <$> versions c;
     min_compatible_version := min_compatible_version c;
     cached_at := cached_at c;
     cat_permissionsByKey := set_constraints f <$> cat_permissionsByKey c |}.

(** The same call against another catalog. *)
Definition with_catalog (params : V1_0.VerifyLocallyParams) (c : CachedCatalog)
    : V1_0.VerifyLocallyParams :=
  {| V1_0.passport := V1_0.passport params;
     V1_0.catalog := c;
     V1_0.revocationList := V1_0.revocationList params;
     V1_0.issuerKeys := V1_0.issuerKeys params;
     V1_0.rateLimiter := V1_0.rateLimiter params;
     V1_0.action := V1_0.action params;
     V1_0.context := V1_0.context params;
     V1_0.skipSignatureVerification := V1_0.skipSignatureVerification params |}.

(** A result without its effective constraints. *)
Definition decision_of (o : Outcome JSError V1_0.VerifyResult)
    : Outcome JSError (bool * option V1_0.VerifyDenial * bool) :=
  match o with
  | Returned r => Returned (V1_0.allowed r, V1_0.denial r, V1_0.confident r)
  | Thrown e => Thrown e
  end.

(** ** Passport index *)

(** The permission that the loop of [buildPassportIndex] leaves under [key]:
    the last one of the list with that key. *)
Definition last_permission (key : string) (permissions : list PassportPermission)
    : option PassportPermission :=
  last (filter (fun permission => permission_key permission = key) permissions).

(** ** Billing *)

(** The sum of [f] over a list. *)
Definition total {A} (f : A -> Z) (l : list A) : Z :=
  foldr (fun x acc => f x + acc) 0 l.

(** The three amounts of a receipt. *)
Definition receipt_units (att : Commerce.ConsumptionAttestation) : Z :=
  Commerce.units (Commerce.consumption (Commerce.payload att)).

Definition receipt_cost (att : Commerce.ConsumptionAttestation) : Z :=
  Commerce.cost_cents (Commerce.consumption (Commerce.payload att)).

Definition receipt_fee (att : Commerce.ConsumptionAttestation) : Z :=
  Commerce.platform_fee_cents (Commerce.consumption (Commerce.payload att)).

Definition receipt_id (att : Commerce.ConsumptionAttestation) : string :=
  Commerce.attestation_id (Commerce.payload att).

(** The sum of [f] over a list as the loop of [aggregateAttestations]
    computes it: from the left, every addition rounded to a double. *)
Definition rounded_total {A} (f : A -> Z) (l : list A) : Z :=
  fold_left (fun acc x => Float64.add acc (f x)) l 0.

(** No amount of the receipts is negative, and the sums of their units,
    costs and fees stay below [2^53]. *)
Definition exact_totals (l : list Commerce.ConsumptionAttestation) : Prop :=
  Forall (fun att => 0 <= receipt_units att /\ 0 <= receipt_cost att
                     /\ 0 <= receipt_fee att) l
  /\ total receipt_units l < 2 ^ 53
  /\ total receipt_cost l < 2 ^ 53
  /\ total receipt_fee l < 2 ^ 53.

(** The receipt is for the given agent and gate. *)
Definition for_pair (agent gate : string) (att : Commerce.ConsumptionAttestation)
    : Prop :=
  Commerce.agent_id (Commerce.payload att) = agent
  /\ Commerce.gate_id (Commerce.payload att) = gate.

(** A receipt with the given id, pair and amounts, for the examples. *)
Definition mock_receipt (id agent gate : string) (units cost fee : Z)
    : Commerce.ConsumptionAttestation :=
  {| Commerce.payload :=
       {| Commerce.attestation_id := id;
          Commerce.gate_id := gate;
          Commerce.agent_id := agent;
          Commerce.passport_id := "passport_test_123";
          Commerce.permission_key := "flights:search";
          Commerce.catalog_version := 1;
          Commerce.catalog_content_hash := None;
          Commerce.request_nonce := None;
          Commerce.effective_constraints :=
            {| Commerce.pricing := None; Commerce.platform_fee := None |};
          Commerce.consumption :=
            {| Commerce.units := units; Commerce.cost_cents := cost;
               Commerce.platform_fee_cents := fee;
               Commerce.timestamp := "2026-01-01T00:00:00.000Z";
               Commerce.duration_ms := None |} |};
     Commerce.proof := {| Commerce.kid := "gate-key-1"; Commerce.sig := "00" |} |}.

(** A tool priced per call, with a platform fee, called with a nonce. *)
Definition per_call_params : Commerce.IssueReceiptParams :=
  {| Commerce.p_gate_id := "gate_test";
     Commerce.p_agent_id := "agent_test";
     Commerce.p_passport_id := "passport_123";
     Commerce.p_permission_key := "weather:forecast";
     Commerce.p_catalog_version := 1;
     Commerce.p_catalog_content_hash := None;
     Commerce.p_effective_constraints :=
       {[ "core:pricing:per_call_cents" := JNum 10;
          "core:pricing:currency" := JStr "USD";
          "core:platform_fee:basis_points" := JNum 200 ]};
     Commerce.p_request_nonce := Some "nonce_abc123";
     Commerce.p_units := Some 3;
     Commerce.p_duration_ms := None;
     Commerce.p_signing_key_id := "gate_test#key-1" |}.

(** ** Catalog index *)

(** Every permission of the index is filed under its own key. *)
Definition well_keyed (index : gmap string CatalogPermission) : Prop :=
  forall key perm, index !! key = Some perm -> cp_permission_key perm = key.

(** The last permission with the given key that the catalog endpoint sent. *)
Definition last_sent (key : string) (permissions : list Cache.PermissionData)
    : option Cache.PermissionData :=
  last (filter (fun perm => Cache.d_permission_key perm = key) permissions).

(** The answer of [Cache.resolveCatalogVersion] that corresponds to an
    answer of the resolution in the verification module. *)
Definition as_nullable (r : ResolvedCatalog) : option CatalogVersion :=
  match r with
  | Resolved v => Some v
  | Deprecated => None
  end.

(** ** Sessions *)

(** The session has been inactive for longer than [maxInactiveMs]. *)
Definition inactive (maxInactiveMs now : Z) (session : Sessions.Session) : Prop :=
  maxInactiveMs < now - Sessions.last_activity session.

#[global] Instance inactive_dec maxInactiveMs now session :
  Decision (inactive maxInactiveMs now session).
Proof. unfold inactive. apply _. Defined.

(** The session holds a passport that has expired at [now]. *)
Definition holds_expired (now : Z) (session : Sessions.Session) : Prop :=
  exists p, Sessions.passport session = Some p /\ date_lt (expires_at p) now = true.

#[global] Instance holds_expired_dec now session : Decision (holds_expired now session).
Proof.
  unfold holds_expired. destruct (Sessions.passport session) as [p|].
  - destruct (date_lt (expires_at p) now) eqn:E.
    + left. by exists p.
    + right. intros (p' & [= <-] & ?). congruence.
  - right. by intros (? & [=] & _).
Defined.

(** The session without its passport. *)
Definition without_passport (session : Sessions.Session) : Sessions.Session :=
  {| Sessions.session_id := Sessions.session_id session;
     Sessions.passport := None;
     Sessions.created_at := Sessions.created_at session;
     Sessions.last_activity := Sessions.last_activity session |}.

(** A call of [verifyLocally] 1.0.0 on the passport that a session holds. *)
Definition session_call (m : Sessions.SessionManager) (sessionId : string)
    (params : V1_0.VerifyLocallyParams) : V1_0.VerifyLocallyParams :=
  {| V1_0.passport := Sessions.getPassport m sessionId;
     V1_0.catalog := V1_0.catalog params;
     V1_0.revocationList := V1_0.revocationList params;
     V1_0.issuerKeys := V1_0.issuerKeys params;
     V1_0.rateLimiter := V1_0.rateLimiter params;
     V1_0.action := V1_0.action params;
     V1_0.context := V1_0.context params;
     V1_0.skipSignatureVerification := V1_0.skipSignatureVerification params |}.

(** ** Names of [Object.prototype] as keys *)

(** The passport issued by another issuer, and the passport with other
    permissions, indexed. *)
Definition with_issuer (issuer : string) (p : Passport) : Passport :=
  {| passport_id := passport_id p;
     issuer_id := issuer;
     agent_id := agent_id p;
     gate_id := gate_id p;
     permissions := permissions p;
     passport_constraints := passport_constraints p;
     signature := signature p;
     expires_at := expires_at p;
     issued_at := issued_at p;
     catalog_version_pin := catalog_version_pin p;
     claimsByKey := claimsByKey p |}.

Definition with_permissions (l : list PassportPermission) (p : Passport) : Passport :=
  buildPassportIndex
    {| passport_id := passport_id p;
       issuer_id := issuer_id p;
       agent_id := agent_id p;
       gate_id := gate_id p;
       permissions := l;
       passport_constraints := passport_constraints p;
       signature := signature p;
       expires_at := expires_at p;
       issued_at := issued_at p;
       catalog_version_pin := catalog_version_pin p;
       claimsByKey := ∅ |}.

(** The call of the mock passport, presented as issued by [issuer], for
    [action], in both revisions. *)
Definition call_of_issuer_1_0 (issuer : string) (skip : bool) (action : string)
    : V1_0.VerifyLocallyParams :=
  {| V1_0.passport := Some (with_issuer issuer (Fixtures.mock_passport "core:cost:max" 0 5000));
     V1_0.catalog := Fixtures.mock_catalog "core:cost:max";
     V1_0.revocationList := ∅;
     V1_0.issuerKeys := Fixtures.mock_issuerKeys;
     V1_0.rateLimiter := new_InMemoryRateLimiter;
     V1_0.action := action;
     V1_0.context := ∅;
     V1_0.skipSignatureVerification := skip |}.

Definition call_of_issuer_1_2 (issuer : string) (skip : bool) (action : string)
    : @V1_2.VerifyLocallyParams unit :=
  {| V1_2.passport :=
       Some (with_issuer issuer
               (Fixtures.mock_passport "core:cost:max_per_action" 0 5000));
     V1_2.catalog := Fixtures.mock_catalog "core:cost:max_per_action";
     V1_2.revocationList := ∅;
     V1_2.issuerKeys := Fixtures.mock_issuerKeys;
     V1_2.rateLimiter := new_InMemoryRateLimiter;
     V1_2.action := action;
     V1_2.context := ∅;
     V1_2.skipSignatureVerification := skip;
     V1_2.anonymousPolicy := None;
     V1_2.anonymousRateLimiter := None;
     V1_2.sourceId := None |}.

(** ** Cache configuration *)

(** The configuration has no override that applies to the action. *)
Definition no_override (m : Cache.CacheManager) (action : option string) : Prop :=
  match action with
  | Some a =>
      a = EmptyString
      \/ Cache.fail_mode_overrides (Cache.config m) ≫= (fun overrides => overrides !! a)
         = None
  | None => True
  end.

(** ** Request context *)







(** * The embedding on the repository's tests *)

Section TestSuite.
Import Fixtures.

(** InMemoryRateLimiter: "tracks requests against limit". *)
Example limiter_tracks_requests :
  let l0 := setLimit "action" 2 60000 new_InMemoryRateLimiter in
  let l1 := increment l0 "action" None 1000 in
  let l2 := increment l1 "action" None 1001 in
  check l0 "action" None 1000 = true
  /\ check l1 "action" None 1001 = true
  /\ check l2 "action" None 1002 = false.
Proof. split; [|split]; vm_compute; reflexivity. Qed.

(** "separates limits by passport ID" and "resets after window expires". *)
Example limiter_separates_and_resets :
  let l0 := setLimit "action" 1 10 new_InMemoryRateLimiter in
  let l1 := increment l0 "action" (Some "passport_1") 1000 in
  check l1 "action" (Some "passport_1") 1001 = false
  /\ check l1 "action" (Some "passport_2") 1001 = true
  /\ check l1 "action" (Some "passport_1") 1020 = true.
Proof. split; [|split]; vm_compute; reflexivity. Qed.

(** mergeConstraints: "merges multiple constraints correctly". *)
Example merge_multiple :
  mergeConstraints V1_2.CONSTRAINT_TYPES
    {[ "core:cost:max_per_action" := JNum 500000; "core:rate:max_per_hour" := JNum 1000 ]}
    {[ "core:cost:max_per_action" := JNum 100000; "core:rate:max_per_hour" := JNum 500 ]}
  = {[ "core:cost:max_per_action" := JNum 100000; "core:rate:max_per_hour" := JNum 500 ]}.
Proof. vm_compute. reflexivity. Qed.

(** Step 8: "denies when context exceeds passport limit" and "allows when
    context is within passport limit" (revision 1.0.0). *)
Example step8_exceeds_and_within :
  (@V1_0.verifyLocally accepting_platform
     (mock_params_1_0 true {[ "core:cost:max" := JNum 150000 ]} "flights:book"
        new_InMemoryRateLimiter) (at_instant 1000)).1
  = Returned (V1_0.denied V1_0.CONSTRAINT_EXCEEDED
                (V1_0.FromValidation (ConstraintExceeded "core:cost:max" 150000 100000))
                None)
  /\ (@V1_0.verifyLocally accepting_platform
        (mock_params_1_0 true {[ "core:cost:max" := JNum 50000 ]} "flights:book"
           new_InMemoryRateLimiter) (at_instant 1000)).1
     = Returned {| V1_0.allowed := true; V1_0.denial := None;
                   V1_0.effective_constraints := Some {[ "core:cost:max" := JNum 100000 ]};
                   V1_0.confident := true |}.
Proof. split; vm_compute; reflexivity. Qed.

(** Step 9: "denies with RATE_LIMITED when rate limit exceeded": two calls
    pass, the third is refused (revision 1.2.0). *)
Example step9_third_call_is_rate_limited :
  let call params :=
    @V1_2.verifyLocally accepting_platform unit permissive_sdk params (at_instant 1000) in
  let first := call mock_params_limited in
  let second := call (after mock_params_limited first) in
  let third := call (after mock_params_limited second) in
  is_permit_1_2 (V1_2.result first) = true
  /\ is_permit_1_2 (V1_2.result second) = true
  /\ V1_2.result third
     = Returned (V1_2.deny V1_2.RATE_LIMITED (V1_2.Text "Rate limit exceeded")
                   V1_2.block_extras).
Proof. split; [|split]; vm_compute; reflexivity. Qed.

(** "allows anonymous access for listed actions when no passport", "denies
    anonymous access for unlisted actions" and "returns PASSPORT_MISSING
    when anonymous is disabled". *)
Example anonymous_access :
  is_permit_1_2
    (V1_2.result
       (@V1_2.verifyLocally accepting_platform unit permissive_sdk
          (anonymous_call (Some anon_policy) "data:read") (at_instant 1000)))
  = true
  /\ V1_2.result
       (@V1_2.verifyLocally accepting_platform unit permissive_sdk
          (anonymous_call (Some anon_policy) "admin:manage") (at_instant 1000))
     = Returned (V1_2.deny V1_2.PASSPORT_MISSING
                   (V1_2.Text "Get a passport for full access and higher rate limits")
                   V1_2.no_extras)
  /\ V1_2.result
       (@V1_2.verifyLocally accepting_platform unit permissive_sdk
          (anonymous_call None "flights:search") (at_instant 1000))
     = Returned (V1_2.deny V1_2.PASSPORT_MISSING (V1_2.Text "No passport in session")
                   V1_2.no_extras).
Proof. split; [|split]; vm_compute; reflexivity. Qed.

End TestSuite.

(** * The embedding on names of [Object.prototype] and on large amounts *)

Section EdgeValues.
Import Fixtures.

(** An issuer named [toString] has no key in [issuerKeys], yet the read
    finds the inherited function: the call is not refused for the issuer but
    for the signature, and with [skipSignatureVerification] it is
    permitted. *)
Example issuer_named_toString :
  (@V1_0.verifyLocally accepting_platform
     (call_of_issuer_1_0 "toString" false "flights:search") (at_instant 1000)).1
  = Returned (V1_0.denied V1_0.INVALID_SIGNATURE (V1_0.Text "Passport signature invalid")
                None)
  /\ V1_2.result
       (@V1_2.verifyLocally accepting_platform unit permissive_sdk
          (call_of_issuer_1_2 "toString" false "flights:search") (at_instant 1000))
     = Returned (V1_2.deny V1_2.INVALID_SIGNATURE
                   (V1_2.Text "Passport signature invalid") V1_2.block_extras)
  /\ is_permit_1_0
       (@V1_0.verifyLocally accepting_platform
          (call_of_issuer_1_0 "toString" true "flights:search") (at_instant 1000)).1
     = true
  /\ is_permit_1_2
       (V1_2.result
          (@V1_2.verifyLocally accepting_platform unit permissive_sdk
             (call_of_issuer_1_2 "toString" true "flights:search") (at_instant 1000)))
     = true
  /\ (@V1_0.verifyLocally accepting_platform
        (call_of_issuer_1_0 "issuer_unknown" false "flights:search") (at_instant 1000)).1
     = Returned (V1_0.denied V1_0.ISSUER_NOT_TRUSTED
                   (V1_0.Text "Unknown issuer: issuer_unknown") None).
Proof. repeat split; vm_compute; reflexivity. Qed.

(** The action [toString] is in no catalog and in no passport, yet both
    reads find the inherited function: the call passes the two permission
    checks and throws where it reads the constraints of the permission. *)
Example action_named_toString :
  @V1_0.verifyLocally accepting_platform
    (call_of_issuer_1_0 "issuer_trusted" false "toString") (at_instant 1000)
  = (Thrown TypeError, new_InMemoryRateLimiter)
  /\ V1_2.result
       (@V1_2.verifyLocally accepting_platform unit permissive_sdk
          (call_of_issuer_1_2 "issuer_trusted" false "toString") (at_instant 1000))
     = Thrown TypeError
  /\ hasPermission (Some (mock_passport "core:cost:max" 0 5000)) "toString" = true.
Proof. repeat split; vm_compute; reflexivity. Qed.

(** A permission named [__proto__] leaves no key in the index of the
    passport, nor in the index of the catalog. *)
Example permission_named_proto :
  claimsByKey
    (with_permissions [ {| permission_key := "__proto__"; constraints := ∅ |} ]
       (mock_passport "core:cost:max" 0 5000))
  = ∅
  /\ Cache.buildPermissionIndex
       [ {| Cache.d_permission_key := "__proto__"; Cache.d_display_name := None;
            Cache.d_description := None; Cache.d_risk_level := None;
            Cache.d_constraints := None; Cache.d_default_template := None;
            Cache.d_required_constraints := None |} ]
     = ∅.
Proof. split; vm_compute; reflexivity. Qed.

(** Doubles beyond [2^53]. *)
Example doubles_round :
  Float64.mul 9007199254740991 10000 = 90071992547409903616
  /\ Float64.ceil_quotient 90071992547409903616 10000 = 9007199254740990
  /\ Float64.add 9007199254740991 2 = 9007199254740992
  /\ Float64.mul 9007199254740991 3 = 27021597764222972
  /\ Float64.ceil_quotient 61000 60000 = 2
  /\ Float64.ceil_quotient (-61000) 60000 = -1
  /\ computePlatformFee 101 200 = Returned 3
  /\ computePlatformFee 1000 200 = Returned 20.
Proof. repeat split; vm_compute; reflexivity. Qed.

End EdgeValues.

(** * Properties of the decimal normaliser *)

Import Transforms.

Section TransformFacts.

Lemma digit_not_space c : is_digit c = true -> is_space c = false.
Proof.
  unfold is_digit, is_space. cbv zeta. intros H.
  apply andb_true_iff in H as [H1 H2].
  apply Nat.leb_le in H1. apply Nat.leb_le in H2.
  apply orb_false_iff. split.
  - apply andb_false_iff. right. apply Nat.leb_gt. lia.
  - apply Nat.eqb_neq. lia.
Qed.

Lemma digit_not_sign c : is_digit c = true -> is_sign c = false.
Proof.
  intros H. unfold is_sign.
  apply orb_false_iff; split; apply Ascii.eqb_neq; intros ->;
    vm_compute in H; discriminate.
Qed.

Lemma digit_not_dot c : is_digit c = true -> Ascii.eqb c "."%char = false.
Proof.
  intros H. apply Ascii.eqb_neq; intros ->. vm_compute in H; discriminate.
Qed.

Lemma digit_value_range c : is_digit c = true -> 0 <= digit_value c <= 9.
Proof.
  unfold is_digit, digit_value. cbv zeta. intros H.
  apply andb_true_iff in H as [H1 H2].
  apply Nat.leb_le in H1. apply Nat.leb_le in H2. lia.
Qed.

Lemma all_digits_cons c s : all_digits (c :: s) <-> is_digit c = true /\ all_digits s.
Proof. unfold all_digits. simpl. apply andb_true_iff. Qed.

Lemma all_digits_app a b : all_digits (a ++ b) <-> all_digits a /\ all_digits b.
Proof. unfold all_digits. rewrite forallb_app. apply andb_true_iff. Qed.

(** *** String plumbing on numerals *)

Lemma drop_spaces_id (s : list ascii) :
  (forall c, head s = Some c -> is_space c = false) -> drop_spaces s = s.
Proof.
  destruct s as [|c r]; [done|]. intros H. simpl. by rewrite (H c).
Qed.

Lemma trim_id (s : list ascii) :
  (forall c, head s = Some c -> is_space c = false) ->
  (forall c, last s = Some c -> is_space c = false) ->
  trim s = s.
Proof.
  intros Hh Hl. unfold trim.
  rewrite (drop_spaces_id s) by done.
  rewrite drop_spaces_id.
  - apply reverse_involutive.
  - intros c. rewrite head_reverse. apply Hl.
Qed.

Lemma all_digits_elem s c : all_digits s -> c ∈ s -> is_digit c = true.
Proof.
  unfold all_digits. rewrite forallb_forall. intros H Hc.
  apply H. by apply list_elem_of_In.
Qed.

Lemma numeral_chars_not_space sg w f c :
  all_digits w -> all_digits f ->
  c ∈ numeral_chars sg w f -> is_space c = false.
Proof.
  intros Hw Hf. unfold numeral_chars. rewrite !elem_of_app.
  intros [H|[H|H]].
  - destruct sg; simpl in H.
    + by apply elem_of_nil in H.
    + apply list_elem_of_singleton in H as ->. reflexivity.
    + apply list_elem_of_singleton in H as ->. reflexivity.
  - apply digit_not_space. by apply (all_digits_elem w).
  - destruct f as [|d f]; simpl in H; [by apply elem_of_nil in H|].
    apply elem_of_cons in H as [->|H]; [reflexivity|].
    apply digit_not_space. by apply (all_digits_elem (d :: f)).
Qed.

Lemma numeral_trim sg w f :
  all_digits w -> all_digits f ->
  trim (numeral_chars sg w f) = numeral_chars sg w f.
Proof.
  intros Hw Hf.
  apply trim_id; intros c Hc; apply (numeral_chars_not_space sg w f c Hw Hf).
  - by apply head_Some_elem_of.
  - by apply last_Some_elem_of.
Qed.

Lemma numeral_strip_sign sg w f :
  all_digits w -> w <> [] ->
  strip_sign (numeral_chars sg w f) = w ++ fraction_chars f.
Proof.
  intros Hw Hne. destruct sg; try reflexivity.
  destruct w as [|c w]; [done|].
  apply all_digits_cons in Hw as [Hc _].
  unfold numeral_chars. simpl. by rewrite (digit_not_sign c).
Qed.

Lemma numeral_startsWith_minus sg w f :
  all_digits w -> w <> [] ->
  startsWith_minus (numeral_chars sg w f) = is_minus sg.
Proof.
  intros Hw Hne. destruct sg; try reflexivity.
  destruct w as [|c w]; [done|].
  apply all_digits_cons in Hw as [Hc _].
  unfold numeral_chars. simpl.
  apply digit_not_sign in Hc. unfold is_sign in Hc.
  by apply orb_false_iff in Hc as [_ ->].
Qed.

Lemma span_digits_app w r :
  all_digits w -> (forall c, head r = Some c -> is_digit c = false) ->
  span_digits (w ++ r) = (w, r).
Proof.
  intros Hw Hr. induction w as [|c w IH]; simpl.
  - destruct r as [|c r]; [done|]. simpl. by rewrite (Hr c).
  - apply all_digits_cons in Hw as [Hc Hw]. rewrite Hc, IH; done.
Qed.

Lemma fraction_head_not_digit f c :
  head (fraction_chars f) = Some c -> is_digit c = false.
Proof.
  destruct f; simpl; [done|]. by intros [= <-].
Qed.

Lemma numeral_test sg w f :
  all_digits w -> w <> [] -> all_digits f ->
  test_numeric (numeral_chars sg w f) = true.
Proof.
  intros Hw Hne Hf. unfold test_numeric.
  rewrite numeral_strip_sign by done.
  rewrite span_digits_app by eauto using fraction_head_not_digit.
  destruct w as [|c w]; [done|].
  destruct f as [|d f]; [done|]. simpl fraction_chars. cbv iota beta.
  exact Hf.
Qed.

Lemma split_dot_digits w : all_digits w -> split_dot w = [w].
Proof.
  induction w as [|c w IH]; [done|].
  intros [Hc Hw]%all_digits_cons. simpl.
  by rewrite (digit_not_dot c), IH.
Qed.

Lemma split_dot_app w r :
  all_digits w -> split_dot (w ++ "."%char :: r) = w :: split_dot r.
Proof.
  induction w as [|c w IH]; [done|].
  intros [Hc Hw]%all_digits_cons. simpl.
  by rewrite (digit_not_dot c), IH.
Qed.

Lemma numeral_split w f :
  all_digits w -> all_digits f ->
  let parts := split_dot (w ++ fraction_chars f) in
  List.nth 0 parts [] = w /\ List.nth 1 parts [] = f.
Proof.
  intros Hw Hf. destruct f as [|d f]; simpl fraction_chars.
  - rewrite app_nil_r, split_dot_digits by done. done.
  - rewrite split_dot_app, split_dot_digits by done. done.
Qed.

(** *** Digit strings as numbers *)

Lemma fold_digits_acc s acc :
  fold_left (fun a c => 10 * a + digit_value c) s acc
  = acc * 10 ^ Z.of_nat (length s) + digits_value s.
Proof.
  unfold digits_value. revert acc.
  induction s as [|c s IH]; intros acc; simpl fold_left.
  - simpl. lia.
  - rewrite IH, (IH (10 * 0 + digit_value c)).
    rewrite length_cons, Nat2Z.inj_succ, Z.pow_succ_r by lia. lia.
Qed.

Lemma digits_value_cons c s :
  digits_value (c :: s) = digit_value c * 10 ^ Z.of_nat (length s) + digits_value s.
Proof.
  unfold digits_value at 1. simpl fold_left. rewrite fold_digits_acc. lia.
Qed.

Lemma digits_value_app a b :
  digits_value (a ++ b)
  = digits_value a * 10 ^ Z.of_nat (length b) + digits_value b.
Proof.
  unfold digits_value at 1. rewrite fold_left_app.
  rewrite fold_digits_acc. fold (digits_value a). lia.
Qed.

Lemma digits_value_bounds s :
  all_digits s -> 0 <= digits_value s < 10 ^ Z.of_nat (length s).
Proof.
  induction s as [|c s IH]; [simpl; unfold digits_value; simpl; lia|].
  intros [Hc Hs]%all_digits_cons.
  rewrite digits_value_cons, length_cons, Nat2Z.inj_succ, Z.pow_succ_r by lia.
  pose proof (digit_value_range c Hc). specialize (IH Hs). nia.
Qed.

Lemma digits_value_zeros n : digits_value (repeat "0"%char n) = 0.
Proof.
  induction n as [|n IH]; [done|].
  simpl repeat. rewrite digits_value_cons, IH. reflexivity.
Qed.

Lemma all_digits_zeros n : all_digits (repeat "0"%char n).
Proof. induction n; [done|]. apply all_digits_cons; done. Qed.

Lemma BigInt_digits s : all_digits s -> BigInt s = Returned (digits_value s).
Proof.
  unfold BigInt, digits_value. generalize 0.
  induction s as [|c s IH]; intros acc Hs; [done|].
  apply all_digits_cons in Hs as [Hc Hs]. simpl. rewrite Hc. by apply IH.
Qed.

(** *** The arithmetic of [build], truncation and rounding *)

Lemma build_padded w P d :
  all_digits w -> all_digits d -> (length d <= P)%nat ->
  build w (10 ^ Z.of_nat P) P d
  = Returned (digits_value w * 10 ^ Z.of_nat P
              + digits_value d * 10 ^ Z.of_nat (P - length d)).
Proof.
  intros Hw Hd Hle. unfold build, padEnd0.
  rewrite take_ge by (rewrite length_app, repeat_length; lia).
  rewrite (BigInt_digits w Hw). simpl mbind. unfold mbind, Outcome_bind.
  assert (Hp : (match d ++ repeat "0"%char (P - length d) with
                | [] => Returned 0
                | _ :: _ => BigInt (d ++ repeat "0"%char (P - length d))
                end : Outcome TransformError Z)
               = Returned (digits_value (d ++ repeat "0"%char (P - length d)))).
  { destruct (d ++ repeat "0"%char (P - length d)) eqn:E; [done|].
    rewrite <- E. apply BigInt_digits. apply all_digits_app.
    split; [done|apply all_digits_zeros]. }
  rewrite Hp. rewrite digits_value_app, digits_value_zeros, repeat_length.
  f_equal. lia.
Qed.

Lemma pow10_pos n : 0 < 10 ^ Z.of_nat n.
Proof. apply Z.pow_pos_nonneg; lia. Qed.

Lemma pow10_split (a b : nat) :
  10 ^ Z.of_nat (a + b) = 10 ^ Z.of_nat a * 10 ^ Z.of_nat b.
Proof. rewrite Nat2Z.inj_add, Z.pow_add_r; lia. Qed.

Lemma truncate_quotient T D R : 0 < D -> 0 <= R < D -> (T * D + R) / D = T.
Proof.
  intros HD HR. symmetry. apply (Z.div_unique_pos _ _ T R); lia.
Qed.

Lemma round_quotient T E d r :
  0 < E -> 0 <= d <= 9 -> 0 <= r < E ->
  let D := 10 * E in
  let R := d * E + r in
  (2 * (T * D + R) + D) / (2 * D) = if 5 <=? d then T + 1 else T.
Proof.
  intros HE Hd Hr D R. subst D R.
  destruct (Z.leb_spec 5 d) as [H5|H5]; symmetry.
  - apply (Z.div_unique_pos _ _ (T + 1) (2 * (d * E + r) - 10 * E)); nia.
  - apply (Z.div_unique_pos _ _ T (2 * (d * E + r) + 10 * E)); nia.
Qed.

Lemma overflow_check r :
  (MAX_SAFE_INTEGER <? r) || (r <? - MAX_SAFE_INTEGER) = (2 ^ 53 - 1 <? Z.abs r).
Proof.
  change (2 ^ 53 - 1) with MAX_SAFE_INTEGER.
  unfold MAX_SAFE_INTEGER.
  destruct (Z.ltb_spec 9007199254740991 r), (Z.ltb_spec r (- 9007199254740991)),
    (Z.ltb_spec 9007199254740991 (Z.abs r)); simpl; try done; lia.
Qed.

(** The value computed before the sign is applied. *)
Lemma magnitude_refines w f P mode :
  all_digits w -> all_digits f ->
  (if (P <? length f)%nat then
     match mode with
     | strict => Thrown DecimalPlacesExceeded
     | truncate => build w (10 ^ Z.of_nat P) P (take P f)
     | round =>
         truncated ← build w (10 ^ Z.of_nat P) P (take P f);
         Returned
           (match digit_value <$> (f !! P) with
            | Some d => if 5 <=? d then truncated + 1 else truncated
            | None => truncated
            end)
     end
   else build w (10 ^ Z.of_nat P) P f)
  = match spec_magnitude (digits_value (w ++ f)) (length f) P mode with
    | None => Thrown DecimalPlacesExceeded
    | Some m => Returned m
    end.
Proof.
  intros Hw Hf. unfold spec_magnitude.
  destruct (Nat.ltb_spec P (length f)) as [Hlt|Hge].
  - rewrite (proj2 (Nat.leb_gt (length f) P)) by lia.
    destruct mode; [done| |].
    + (* round *)
      rewrite <- (take_drop P f) in Hf. apply all_digits_app in Hf as [Hf1 Hf2].
      rewrite build_padded by (rewrite ?length_take; done || lia).
      rewrite length_take, Nat.min_l, Nat.sub_diag, Z.mul_1_r by lia.
      unfold mbind, Outcome_bind.
      destruct (drop P f) as [|c f3] eqn:Edrop.
      { apply (f_equal length) in Edrop. rewrite length_drop in Edrop.
        simpl in Edrop. lia. }
      assert (Hc : f !! P = Some c).
      { rewrite <- (take_drop P f), Edrop.
        rewrite lookup_app_r by (rewrite length_take; lia).
        rewrite length_take, Nat.min_l, Nat.sub_diag by lia. done. }
      rewrite Hc. simpl fmap. f_equal.
      apply all_digits_cons in Hf2 as [Hdc Hf3].
      assert (HL : (length f - P)%nat = S (length f3)).
      { apply (f_equal length) in Edrop. rewrite length_drop in Edrop.
        simpl in Edrop. done. }
      assert (Hlen : length f = (P + S (length f3))%nat) by lia.
      rewrite HL.
      assert (HN : digits_value (w ++ f)
                   = (digits_value w * 10 ^ Z.of_nat P + digits_value (take P f))
                     * (10 * 10 ^ Z.of_nat (length f3))
                     + (digit_value c * 10 ^ Z.of_nat (length f3) + digits_value f3)).
      { rewrite digits_value_app.
        rewrite <- (take_drop P f) at 2. rewrite digits_value_app, Edrop.
        rewrite digits_value_cons, length_cons, Hlen, pow10_split.
        rewrite Nat2Z.inj_succ, Z.pow_succ_r by lia. ring. }
      rewrite HN, Nat2Z.inj_succ, Z.pow_succ_r by lia.
      symmetry. apply round_quotient.
      * apply pow10_pos.
      * by apply digit_value_range.
      * by apply digits_value_bounds.
    + (* truncate *)
      rewrite <- (take_drop P f) in Hf. apply all_digits_app in Hf as [Hf1 Hf2].
      rewrite build_padded by (rewrite ?length_take; done || lia).
      rewrite length_take, Nat.min_l, Nat.sub_diag, Z.mul_1_r by lia.
      f_equal.
      assert (Hlen : length f = (P + (length f - P))%nat) by lia.
      assert (HN : digits_value (w ++ f)
                   = (digits_value w * 10 ^ Z.of_nat P + digits_value (take P f))
                     * 10 ^ Z.of_nat (length f - P)
                     + digits_value (drop P f)).
      { rewrite digits_value_app.
        rewrite <- (take_drop P f) at 2. rewrite digits_value_app.
        rewrite length_drop. rewrite Hlen at 1. rewrite pow10_split. ring. }
      rewrite HN. symmetry. apply truncate_quotient; [apply pow10_pos|].
      rewrite <- length_drop. by apply digits_value_bounds.
  - rewrite (proj2 (Nat.leb_le (length f) P)) by lia.
    rewrite build_padded by done. f_equal.
    rewrite digits_value_app.
    assert (HP : P = (length f + (P - length f))%nat) by lia.
    rewrite HP at 1. rewrite pow10_split. ring.
Qed.

Lemma transformToCanonical_numeral sg w f P mode :
  all_digits w -> w <> [] -> all_digits f ->
  transformToCanonical (numeral sg w f) P mode
  = spec_canonical sg (digits_value (w ++ f)) (length f) P mode.
Proof.
  intros Hw Hne Hf. unfold transformToCanonical, numeral. cbv zeta.
  rewrite list_ascii_of_string_of_list_ascii.
  rewrite numeral_trim, numeral_test by done. simpl negb. cbv iota.
  rewrite numeral_startsWith_minus, numeral_strip_sign by done.
  destruct (numeral_split w f Hw Hf) as [-> ->].
  replace (match w with [] => ["0"%char] | _ :: _ => w end) with w
    by (by destruct w).
  rewrite magnitude_refines by done.
  unfold spec_canonical.
  destruct (spec_magnitude _ _ _ _) as [m|]; [|done].
  unfold mbind, Outcome_bind. by rewrite overflow_check.
Qed.

(** The strings accepted by the regular expression are exactly the
    numerals of the grammar. *)
Lemma span_digits_spec s w r :
  span_digits s = (w, r) -> s = w ++ r /\ all_digits w.
Proof.
  revert w r. induction s as [|c s IH]; intros w r; simpl.
  - by intros [= <- <-].
  - destruct (is_digit c) eqn:Hc.
    + destruct (span_digits s) as [d t]. intros [= <- <-].
      destruct (IH d t eq_refl) as [-> Hd]. split; [done|].
      by apply all_digits_cons.
    + by intros [= <- <-].
Qed.

Lemma test_numeric_grammar s :
  test_numeric s = true <->
  exists sg w f, all_digits w /\ w <> [] /\ all_digits f /\ s = numeral_chars sg w f.
Proof.
  split.
  - unfold test_numeric. intros H.
    assert (Hs : exists sg, s = sign_chars sg ++ strip_sign s).
    { destruct s as [|c s]; [by exists NoSign|]. simpl. unfold is_sign.
      destruct (Ascii.eqb_spec c "+"%char) as [->|]; [by exists Plus|].
      destruct (Ascii.eqb_spec c "-"%char) as [->|]; [by exists Minus|].
      by exists NoSign. }
    destruct Hs as [sg Hs].
    destruct (span_digits (strip_sign s)) as [w rest] eqn:E.
    apply span_digits_spec in E as [E Hw].
    destruct w as [|c w]; [done|].
    destruct rest as [|d rest].
    + exists sg, (c :: w), []. repeat split; try done.
      rewrite Hs at 1. by rewrite E.
    + apply andb_true_iff in H as [Hd Hf].
      apply Ascii.eqb_eq in Hd as ->.
      destruct rest as [|e rest]; [done|].
      exists sg, (c :: w), (e :: rest). repeat split; try done.
      rewrite Hs at 1. by rewrite E.
  - intros (sg & w & f & Hw & Hne & Hf & ->). by apply numeral_test.
Qed.

End TransformFacts.

(** C1.  For every numeral of the grammar [[+-]?digits(.digits)?], every
    precision [P] and every mode, [transformToCanonical] returns what the
    specification prescribes for the exact value [N / 10^L] scaled by
    [10^P]: the exact product when the fraction has at most [P] digits; a
    refusal in strict mode, the quotient rounded towards zero in truncate
    mode and rounded half away from zero in round mode when the fraction is
    longer; the sign applied afterwards; and an overflow error exactly when
    the magnitude exceeds [2^53 - 1].  Every string that the regular
    expression accepts is such a numeral.  The nine reference vectors
    hold. *)
Theorem transformToCanonical_correct :
  (forall (sg : Sign) (w f : list ascii) (P : nat) (mode : TransformMode),
      forallb is_digit w = true -> w <> [] -> forallb is_digit f = true ->
      transformToCanonical (numeral sg w f) P mode
      = spec_canonical sg (digits_value (w ++ f)) (length f) P mode)
  /\ (forall (s : string) (P : nat) (mode : TransformMode),
      test_numeric (list_ascii_of_string s) = true ->
      exists sg w f,
        s = numeral sg w f
        /\ transformToCanonical s P mode
           = spec_canonical sg (digits_value (w ++ f)) (length f) P mode)
  /\ transformToCanonical "1.00" 2 strict = Returned 100
  /\ transformToCanonical "1.005" 2 strict = Thrown DecimalPlacesExceeded
  /\ transformToCanonical "1.005" 2 round = Returned 101
  /\ transformToCanonical "1.005" 2 truncate = Returned 100
  /\ transformToCanonical "-1.005" 2 round = Returned (-101)
  /\ transformToCanonical "4.99" 2 strict = Returned 499
  /\ transformToCanonical "0.00000001" 8 strict = Returned 1
  /\ transformToCanonical "90071992547409.91" 2 strict = Returned 9007199254740991
  /\ transformToCanonical "90071992547409.92" 2 strict = Thrown ExceedsSafeIntegerRange.
Proof.
  split; [|split; [|repeat split; vm_compute; reflexivity]].
  - intros sg w f P mode Hw Hne Hf. by apply transformToCanonical_numeral.
  - intros s P mode Hs.
    apply test_numeric_grammar in Hs as (sg & w & f & Hw & Hne & Hf & Hs).
    exists sg, w, f.
    assert (s = numeral sg w f) as ->.
    { unfold numeral. rewrite <- Hs. symmetry. apply string_of_list_ascii_of_string. }
    split; [done|]. by apply transformToCanonical_numeral.
Qed.

Lemma transformToCanonical_correct_witness :
  transformToCanonical (numeral Minus ["1"%char] ["0"%char; "0"%char; "5"%char]) 2 round
  = spec_canonical Minus (digits_value (["1"%char] ++ ["0"%char; "0"%char; "5"%char])) 3 2 round.
Proof.
  apply (proj1 transformToCanonical_correct Minus ["1"%char]
           ["0"%char; "0"%char; "5"%char] 2%nat round).
  - reflexivity.
  - discriminate.
  - reflexivity.
Defined.

(** * Properties of the constraint merge *)

Import Types Verification.

Lemma js_set_lookup_ne {A} key (v : A) (m : gmap string A) k :
  key <> k -> js_set key v m !! k = m !! k.
Proof.
  intros Hne. unfold js_set.
  destruct (m !! key); [by rewrite lookup_insert_ne|].
  destruct (String.eqb key "__proto__"); [done|by rewrite lookup_insert_ne].
Qed.

(** An assignment stores an own property, unless it goes to the accessor
    [__proto__] of the prototype. *)
Lemma js_set_lookup_eq {A} key (v : A) (m : gmap string A) :
  key <> "__proto__" \/ is_Some (m !! key) -> js_set key v m !! key = Some v.
Proof.
  intros Hkey. unfold js_set.
  destruct (m !! key) eqn:E; [by rewrite lookup_insert_eq|].
  destruct (String.eqb_spec key "__proto__") as [->|_].
  - destruct Hkey as [?|[? ?]]; done.
  - by rewrite lookup_insert_eq.
Qed.

Lemma js_set_proto {A} (v : A) (m : gmap string A) :
  m !! "__proto__" = None -> js_set "__proto__" v m = m.
Proof. intros Hm. unfold js_set. by rewrite Hm. Qed.


Lemma js_set_insert {A} key (v : A) (m : gmap string A) :
  key <> "__proto__" -> js_set key v m = <[key := v]> m.
Proof.
  intros Hkey. unfold js_set. destruct (m !! key); [done|].
  by destruct (String.eqb_spec key "__proto__").
Qed.

Lemma js_get_Own {A} (m : gmap string A) key a :
  js_get m key = Some (Own a) <-> m !! key = Some a.
Proof.
  unfold js_get. destruct (m !! key); [split; congruence|].
  destruct (bool_decide _); split; congruence.
Qed.

Lemma js_get_Inherited {A} (m : gmap string A) key :
  js_get m key = Some Inherited <-> m !! key = None /\ key ∈ Object_prototype_names.
Proof.
  unfold js_get. destruct (m !! key); [split; [congruence|by intros [? _]]|].
  destruct (bool_decide_reflect (key ∈ Object_prototype_names)); split; try done.
  - by intros [_ ?].
Qed.

Lemma js_get_None {A} (m : gmap string A) key :
  js_get m key = None <-> m !! key = None /\ key ∉ Object_prototype_names.
Proof.
  unfold js_get. destruct (m !! key); [split; [congruence|by intros [? _]]|].
  destruct (bool_decide_reflect (key ∈ Object_prototype_names)); split; try done.
  - by intros [_ ?].
Qed.

Lemma js_get_fmap {A B} (f : A -> B) (m : gmap string A) key :
  js_get (f <$> m) key
  = (fun entry => match entry with Own a => Own (f a) | Inherited => Inherited end)
    <$> js_get m key.
Proof.
  unfold js_get. rewrite lookup_fmap. destruct (m !! key); [done|].
  by destruct (bool_decide _).
Qed.

Section MergeFacts.
Variable R : gmap string ConstraintTypeDefinition.

Lemma merge_entry_lookup_eq key v (m : gmap string JSValue) :
  key <> "__proto__" \/ is_Some (m !! key) ->
  merge_entry R key v m !! key = merged_value R key v (m !! key).
Proof.
  intros Hkey. unfold merge_entry, merged_value.
  destruct (if is_limit R key then typeof_number v else None).
  - destruct (m !! key ≫= typeof_number); by rewrite js_set_lookup_eq.
  - destruct (is_term R key); [done|]. by rewrite js_set_lookup_eq.
Qed.

Lemma merge_entry_lookup_ne key v (m : gmap string JSValue) k :
  key <> k -> merge_entry R key v m !! k = m !! k.
Proof.
  intros Hne. unfold merge_entry.
  destruct (if is_limit R key then typeof_number v else None).
  - destruct (m !! key ≫= typeof_number); by rewrite js_set_lookup_ne.
  - destruct (is_term R key); [done|]. by rewrite js_set_lookup_ne.
Qed.

Lemma merge_entry_proto v (m : gmap string JSValue) :
  m !! "__proto__" = None -> merge_entry R "__proto__" v m = m.
Proof.
  intros Hm. unfold merge_entry.
  destruct (if is_limit R "__proto__" then typeof_number v else None).
  - destruct (m !! "__proto__" ≫= typeof_number); by rewrite js_set_proto.
  - destruct (is_term R "__proto__"); [done|]. by rewrite js_set_proto.
Qed.

Lemma merged_value_is_Some key v x : is_Some (merged_value R key v (Some x)).
Proof.
  unfold merged_value.
  destruct (if is_limit R key then typeof_number v else None).
  - simpl. by destruct (typeof_number x).
  - by destruct (is_term R key).
Qed.

(** The loop of [mergeConstraints], key by key, for every key under which
    an assignment stores a property: the order in which [Object.entries]
    lists the passport constraints is immaterial. *)
Lemma mergeConstraints_lookup (X Y : gmap string JSValue) (k : string) :
  k <> "__proto__" \/ is_Some (X !! k) ->
  mergeConstraints R X Y !! k =
  match Y !! k with
  | Some v => merged_value R k v (X !! k)
  | None => X !! k
  end.
Proof.
  unfold mergeConstraints. revert k.
  apply (map_fold_weak_ind
           (fun (r : gmap string JSValue) (m : gmap string JSValue) =>
              forall k, k <> "__proto__" \/ is_Some (X !! k) ->
                        r !! k = match m !! k with
                                 | Some v => merged_value R k v (X !! k)
                                 | None => X !! k
                                 end)).
  - intros k _. by rewrite lookup_empty.
  - intros i x m r Hi IH k Hk.
    destruct (decide (i = k)) as [->|Hne].
    + rewrite merge_entry_lookup_eq, lookup_insert_eq, IH, Hi by (rewrite ?IH, ?Hi; done).
      done.
    + rewrite merge_entry_lookup_ne, lookup_insert_ne, IH by done. done.
Qed.

(** The name [__proto__] is an own property of the result only when it is
    one of the catalog constraints. *)
Lemma mergeConstraints_lookup_proto (X Y : gmap string JSValue) :
  X !! "__proto__" = None -> mergeConstraints R X Y !! "__proto__" = None.
Proof.
  intros HX. unfold mergeConstraints.
  apply (map_fold_weak_ind
           (fun (r : gmap string JSValue) (_ : gmap string JSValue) =>
              r !! "__proto__" = None)); [done|].
  intros i x m r _ IH.
  destruct (decide (i = "__proto__")) as [->|Hne].
  - by rewrite merge_entry_proto.
  - by rewrite merge_entry_lookup_ne.
Qed.

Lemma is_limit_spec k : is_limit R k = true <-> type <$> R !! k = Some limit.
Proof.
  unfold is_limit. destruct (R !! k) as [[[] ?]|]; simpl; split; congruence.
Qed.

Lemma is_term_spec k : is_term R k = true <-> type <$> R !! k = Some term.
Proof.
  unfold is_term. destruct (R !! k) as [[[] ?]|]; simpl; split; congruence.
Qed.

Lemma unregistered_spec k : R !! k = None -> is_limit R k = false /\ is_term R k = false.
Proof. unfold is_limit, is_term. by intros ->. Qed.

(** The merge equations, for every key other than [__proto__] and for
    every key of the catalog constraints, when the credential sets no
    prototype. *)
Lemma mergeConstraints_equations (X Y : gmap string JSValue) (k : string) :
  sets_no_prototype Y ->
  k <> "__proto__" \/ is_Some (X !! k) ->
  (forall x y, type <$> R !! k = Some limit ->
     X !! k = Some (JNum x) -> Y !! k = Some (JNum y) ->
     mergeConstraints R X Y !! k = Some (JNum (Z.min x y)))
  /\ (type <$> R !! k = Some limit -> X !! k = None ->
      mergeConstraints R X Y !! k = Y !! k)
  /\ (type <$> R !! k = Some limit -> Y !! k = None ->
      mergeConstraints R X Y !! k = X !! k)
  /\ (type <$> R !! k = Some term ->
      mergeConstraints R X Y !! k = X !! k)
  /\ (forall v, R !! k = None -> Y !! k = Some v ->
      mergeConstraints R X Y !! k = Some v).
Proof.
  intros _ Hk. rewrite mergeConstraints_lookup by done. unfold merged_value.
  repeat split.
  - intros x y HL HX HY. apply is_limit_spec in HL. by rewrite HY, HL, HX.
  - intros HL HX. apply is_limit_spec in HL. rewrite HL, HX.
    destruct (Y !! k) as [v|]; [|done]. simpl.
    destruct (typeof_number v) eqn:E; [done|].
    assert (is_term R k = false) as ->; [|done].
    unfold is_limit, is_term in *. by destruct (R !! k) as [[[] ?]|].
  - by intros _ ->.
  - intros HT. apply is_term_spec in HT.
    destruct (Y !! k) as [v|]; [|done].
    assert (is_limit R k = false) as ->; [|by rewrite HT].
    unfold is_limit, is_term in *. by destruct (R !! k) as [[[] ?]|].
  - intros v HR HY. destruct (unregistered_spec k HR) as [-> ->]. by rewrite HY.
Qed.

End MergeFacts.

(** C4.  The merge loses a credential value: a constraint that the
    credential carries under the name [__proto__] is assigned with
    [merged[key] = passportValue], which reaches the accessor of
    [Object.prototype] instead of storing a property.  Whatever the registry
    says about the name, and so also when it is outside the registry and
    the comment of the code promises the passport value, the merged
    constraints have no such property unless the catalog has one; for every
    other key the equations of the claim hold
    ([mergeConstraints_equations]). *)
Theorem mergeConstraints_drops_proto_key :
  (forall (R : gmap string ConstraintTypeDefinition) (X Y : gmap string JSValue)
          (v : JSValue),
      X !! "__proto__" = None -> Y !! "__proto__" = Some v ->
      mergeConstraints R X Y !! "__proto__" = None)
  /\ V1_0.CONSTRAINT_TYPES !! "__proto__" = None
  /\ V1_2.CONSTRAINT_TYPES !! "__proto__" = None
  /\ mergeConstraints V1_0.CONSTRAINT_TYPES
       {[ "core:cost:max" := JNum 500000 ]}
       {[ "__proto__" := JStr "eu"; "core:cost:max" := JNum 100000 ]}
     = {[ "core:cost:max" := JNum 100000 ]}
  /\ mergeConstraints V1_2.CONSTRAINT_TYPES
       {[ "core:cost:max_per_action" := JNum 500000 ]}
       {[ "__proto__" := JStr "eu"; "core:cost:max_per_action" := JNum 100000 ]}
     = {[ "core:cost:max_per_action" := JNum 100000 ]}
  /\ mergeConstraints V1_2.CONSTRAINT_TYPES
       {[ "core:cost:max_per_action" := JNum 500000 ]}
       {[ "vendor:region" := JStr "eu"; "core:cost:max_per_action" := JNum 100000 ]}
     = {[ "vendor:region" := JStr "eu"; "core:cost:max_per_action" := JNum 100000 ]}.
Proof.
  split; [|repeat split; vm_compute; reflexivity].
  intros R X Y v HX _. by apply mergeConstraints_lookup_proto.
Qed.

(** Limit values that are no numbers: the merge returns, and the effective
    constraints hold the string, whichever side supplies it. *)
Lemma mergeConstraints_accepts_non_numeric_limit :
  mergeConstraints V1_2.CONSTRAINT_TYPES
    {[ "core:cost:max_per_action" := JNum 500000 ]}
    {[ "core:cost:max_per_action" := JStr "unlimited" ]}
  = {[ "core:cost:max_per_action" := JStr "unlimited" ]}
  /\ mergeConstraints V1_0.CONSTRAINT_TYPES
       {[ "core:cost:max" := JNum 500000 ]}
       {[ "core:cost:max" := JStr "unlimited" ]}
     = {[ "core:cost:max" := JStr "unlimited" ]}
  /\ mergeConstraints V1_2.CONSTRAINT_TYPES
       {[ "core:cost:max_per_action" := JStr "unlimited" ]} ∅
     = {[ "core:cost:max_per_action" := JStr "unlimited" ]}
  /\ mergeConstraints V1_0.CONSTRAINT_TYPES
       {[ "core:cost:max" := JStr "unlimited" ]} ∅
     = {[ "core:cost:max" := JStr "unlimited" ]}.
Proof. repeat split; vm_compute; reflexivity. Qed.

(** C5 (as amended).  The merge has no failure: for every pair of maps it
    returns the effective constraints.  A value that is not a number and
    that the catalog declares under a registered limit key is not rejected:
    it is kept when the credential has no value for the key, and gives way
    to the credential's value when that is a number. *)
Theorem mergeConstraints_non_numeric_limit
    (R : gmap string ConstraintTypeDefinition) (X Y : gmap string JSValue)
    (k : string) (v : JSValue) :
  type <$> R !! k = Some limit ->
  typeof_number v = None ->
  X !! k = Some v ->
  (Y !! k = None -> mergeConstraints R X Y !! k = Some v)
  /\ (forall y, Y !! k = Some (JNum y) ->
      mergeConstraints R X Y !! k = Some (JNum y)).
Proof.
  intros HL Hv HX. rewrite mergeConstraints_lookup by (right; by rewrite HX).
  unfold merged_value.
  apply is_limit_spec in HL. rewrite HL, HX.
  split.
  - by intros ->.
  - intros y ->. simpl. by rewrite Hv.
Qed.

Lemma mergeConstraints_non_numeric_limit_witness :
  let k := "core:cost:max_per_action" in
  (mergeConstraints V1_2.CONSTRAINT_TYPES {[ k := JStr "many" ]} ∅ !! k
   = Some (JStr "many"))
  /\ (mergeConstraints V1_2.CONSTRAINT_TYPES {[ k := JStr "many" ]} {[ k := JNum 5 ]} !! k
      = Some (JNum 5)).
Proof.
  intros k.
  pose proof (mergeConstraints_non_numeric_limit V1_2.CONSTRAINT_TYPES
                {[ k := JStr "many" ]} ∅ k (JStr "many")
                ltac:(vm_compute; reflexivity) eq_refl ltac:(vm_compute; reflexivity))
    as [Hkept _].
  pose proof (mergeConstraints_non_numeric_limit V1_2.CONSTRAINT_TYPES
                {[ k := JStr "many" ]} {[ k := JNum 5 ]} k (JStr "many")
                ltac:(vm_compute; reflexivity) eq_refl ltac:(vm_compute; reflexivity))
    as [_ Hnum].
  split.
  - apply Hkept. vm_compute. reflexivity.
  - apply (Hnum 5). vm_compute. reflexivity.
Defined.

(** * Properties of the commerce arithmetic and of receipts *)

Import Commerce.

Section Float64Facts.

Lemma of_Z_exact n : Z.abs n < 2 ^ 53 -> Float64.of_Z n = n.
Proof.
  intros Hn. unfold Float64.of_Z.
  destruct (Z.ltb_spec (Z.abs n) (2 ^ 53)); [done|lia].
Qed.

Lemma mul_exact a b : Z.abs (a * b) < 2 ^ 53 -> Float64.mul a b = a * b.
Proof. apply of_Z_exact. Qed.

Lemma add_exact a b : Z.abs (a + b) < 2 ^ 53 -> Float64.add a b = a + b.
Proof. apply of_Z_exact. Qed.

Lemma mul_0_r a : Float64.mul a 0 = 0.
Proof. unfold Float64.mul. by rewrite Z.mul_0_r. Qed.

Lemma scale_nonpos num den e :
  e <= 0 -> Float64.scale num den e = (num * 2 ^ (- e), den).
Proof.
  intros He. unfold Float64.scale.
  destruct (Z.leb_spec 0 e) as [H0|H0]; [|done].
  assert (e = 0) as -> by lia. simpl. f_equal; lia.
Qed.

(** The exponent chosen for a quotient below [2^53] is not positive, and
    it leaves at least 52 bits before the binary point. *)
Lemma exponent_spec a b :
  0 < a < 2 ^ 53 -> 0 < b ->
  let e := Float64.exponent a b in
  e <= 0 /\ 2 ^ 52 * b <= a * 2 ^ (- e).
Proof.
  intros Ha Hb. cbv zeta. unfold Float64.exponent.
  pose proof (Z.log2_spec a ltac:(lia)) as [Hla1 Hla2].
  pose proof (Z.log2_spec b ltac:(lia)) as [Hlb1 Hlb2].
  pose proof (Z.log2_nonneg a) as Hla0.
  pose proof (Z.log2_nonneg b) as Hlb0.
  assert (Hla : Z.log2 a <= 52).
  { destruct (Z.le_gt_cases (Z.log2 a) 52) as [|Hgt]; [done|].
    assert (2 ^ 53 <= 2 ^ Z.log2 a) by (apply Z.pow_le_mono_r; lia). lia. }
  set (la := Z.log2 a) in *. set (lb := Z.log2 b) in *.
  set (e0 := la - lb - 53).
  assert (He0 : e0 < 0) by lia.
  rewrite scale_nonpos by lia.
  assert (Hpow : 2 ^ la * 2 ^ (- e0) = 2 ^ 52 * 2 ^ (lb + 1)).
  { rewrite <- !Z.pow_add_r by lia. f_equal. lia. }
  assert (Hbase : 2 ^ 52 * b <= a * 2 ^ (- e0)).
  { assert (0 < 2 ^ (- e0)) by (apply Z.pow_pos_nonneg; lia).
    assert (2 ^ la * 2 ^ (- e0) <= a * 2 ^ (- e0)) by nia.
    replace (Z.succ lb) with (lb + 1) in Hlb2 by lia. nia. }
  destruct (Z.leb_spec (2 ^ 53) (a * 2 ^ (- e0) / b)) as [Hbig|Hsmall].
  - split; [lia|].
    assert (Hq : 2 ^ 53 * b <= a * 2 ^ (- e0)).
    { pose proof (Z.mul_div_le (a * 2 ^ (- e0)) b ltac:(lia)). nia. }
    replace (- e0) with (1 + - (e0 + 1)) in Hq by lia.
    rewrite Z.pow_add_r in Hq by lia.
    change (2 ^ 53) with (2 * 2 ^ 52) in Hq. change (2 ^ 1) with 2 in Hq. lia.
  - split; [lia|done].
Qed.

(** [ceil_div a b] is the least integer [q] with [a <= q * b]. *)
Lemma ceil_div_spec a b :
  0 < b -> b * (ceil_div a b - 1) < a <= b * ceil_div a b.
Proof.
  intros Hb. unfold ceil_div.
  pose proof (Z.div_mod (- a) b ltac:(lia)) as Hdm.
  pose proof (Z.mod_pos_bound (- a) b Hb) as Hmod.
  nia.
Qed.

Lemma ceil_div_unique a b q : 0 < b -> b * (q - 1) < a <= b * q -> ceil_div a b = q.
Proof.
  intros Hb Hq. pose proof (ceil_div_spec a b Hb). nia.
Qed.

(** Below [2^53] the rounding of the quotient does not reach its ceiling:
    the quotient is rounded by less than [1 / b], and a quotient that is no
    integer is at least that far from the integers. *)
Lemma ceil_quotient_exact a b :
  0 <= a < 2 ^ 53 -> 0 < b -> Float64.ceil_quotient a b = ceil_div a b.
Proof.
  intros Ha Hb. unfold Float64.ceil_quotient.
  destruct (Z.eqb_spec a 0) as [->|Hne]; [done|].
  destruct (Z.ltb_spec 0 a) as [Hpos|]; [|lia].
  unfold Float64.nearest.
  destruct (exponent_spec a b ltac:(lia) Hb) as [He Hnorm].
  set (e := Float64.exponent a b) in *.
  rewrite scale_nonpos by done.
  set (T := 2 ^ (- e)) in *.
  assert (HT : 0 < T) by (apply Z.pow_pos_nonneg; lia).
  set (c := ceil_div a b).
  pose proof (ceil_div_spec a b Hb) as Hc. fold c in Hc.
  set (N := a * T) in *.
  pose proof (Z.div_mod N b ltac:(lia)) as Hdm.
  pose proof (Z.mod_pos_bound N b Hb) as Hr.
  set (q := N / b) in *. set (r := N mod b) in *.
  assert (HbT : b < 2 * T) by (unfold N in *; nia).
  assert (Hm : (c - 1) * T < Float64.round_half_even N b <= c * T).
  { unfold Float64.round_half_even. cbv zeta. fold q r.
    assert (Hq1 : (c - 1) * T <= q) by (unfold N in *; nia).
    assert (Hq2 : q <= c * T) by (unfold N in *; nia).
    assert (Hr0 : q = c * T -> r = 0) by (unfold N in *; nia).
    assert (HrT : q = (c - 1) * T -> T <= r) by (unfold N in *; nia).
    destruct (Z.ltb_spec (2 * r) b) as [H1|H1].
    - split; [|done]. destruct (Z.eq_dec q ((c - 1) * T)) as [Heq|]; [|lia].
      specialize (HrT Heq). lia.
    - assert (r <> 0) by lia.
      assert (q < c * T) by (destruct (Z.eq_dec q (c * T)) as [Heq|]; [tauto|lia]).
      destruct (Z.ltb_spec b (2 * r)) as [H2|H2].
      + lia.
      + destruct (Z.even q).
        * split; [|lia]. destruct (Z.eq_dec q ((c - 1) * T)) as [Heq|]; [|lia].
          specialize (HrT Heq). lia.
        * lia. }
  set (m := Float64.round_half_even N b) in *.
  unfold Float64.ceil_of.
  destruct (Z.leb_spec 0 e) as [H0|H0].
  - assert (e = 0) by lia. subst T. replace (- e) with 0 in * by lia.
    replace e with 0 by lia. change (2 ^ 0) with 1 in *. lia.
  - fold T. change (- (- m / T)) with (ceil_div m T).
    apply ceil_div_unique; [done|]. lia.
Qed.

End Float64Facts.

Section CommerceFacts.

Lemma computePlatformFee_outcome cost bp :
  computePlatformFee cost bp
  = if cost <? 0 then Thrown (Error "Cost cannot be negative")
    else if bp <? 0 then Thrown (Error "Basis points cannot be negative")
    else Returned (Float64.ceil_quotient (Float64.mul cost bp) 10000).
Proof. done. Qed.

(** While the product stays below [2^53] the fee is the ceiling of the
    exact quotient. *)
Lemma computePlatformFee_returns cost bp :
  0 <= cost -> 0 <= bp -> cost * bp < 2 ^ 53 ->
  computePlatformFee cost bp = Returned (ceil_div (cost * bp) 10000).
Proof.
  intros Hc Hb Hp. unfold computePlatformFee.
  destruct (Z.ltb_spec cost 0); [lia|].
  destruct (Z.ltb_spec bp 0); [lia|].
  assert (0 <= cost * bp) by nia.
  rewrite mul_exact by lia. rewrite ceil_quotient_exact by lia. done.
Qed.

(** The claim of C7 for the amounts whose products stay below [2^53]. *)
Lemma receipt_cost_arithmetic_in_range :
  (forall cost bp, 0 <= cost -> 0 <= bp -> cost * bp < 2 ^ 53 ->
     exists fee, computePlatformFee cost bp = Returned fee
                 /\ 10000 * (fee - 1) < cost * bp <= 10000 * fee)
  /\ (forall pricing c units, per_call_cents pricing = Some c ->
        Z.abs (c * units) < 2 ^ 53 ->
        computeCallCost pricing units = c * units)
  /\ (forall pricing c durationMs, per_minute_cents pricing = Some c ->
        0 <= durationMs < 2 ^ 53 ->
        Z.abs (c * ceil_div durationMs 60000) < 2 ^ 53 ->
        exists minutes, computeTimeCost pricing durationMs = c * minutes
                        /\ 60000 * (minutes - 1) < durationMs <= 60000 * minutes)
  /\ (forall JSON_stringify sign params attestation_id now_iso,
        p_effective_constraints params !! "core:pricing:per_call_cents" = Some (JNum 10) ->
        p_effective_constraints params !! "core:platform_fee:basis_points" = Some (JNum 200) ->
        p_effective_constraints params !! "core:pricing:model" = None ->
        p_units params = None ->
        exists att,
          issueConsumptionAttestation JSON_stringify sign params attestation_id now_iso
          = Returned att
          /\ cost_cents (consumption (payload att)) = 10
          /\ platform_fee_cents (consumption (payload att)) = 1).
Proof.
  split; [|split; [|split]].
  - intros cost bp Hc Hb Hp. exists (ceil_div (cost * bp) 10000). split.
    + by apply computePlatformFee_returns.
    + apply ceil_div_spec. lia.
  - intros pricing c units Hp Hsafe. unfold computeCallCost. rewrite Hp.
    by apply mul_exact.
  - intros pricing c d Hp Hd Hsafe. exists (ceil_div d 60000). split.
    + unfold computeTimeCost. rewrite Hp. cbv zeta.
      rewrite ceil_quotient_exact by lia. by apply mul_exact.
    + apply ceil_div_spec. lia.
  - intros JSON_stringify sign params attestation_id now_iso Hcall Hbp Hmodel Hunits.
    unfold issueConsumptionAttestation. cbv zeta.
    unfold extractPricingConstraints, extractPlatformFeeConstraints,
      model_is_per_minute, computeCallCost.
    cbn [model per_call_cents basis_points].
    rewrite Hcall, Hbp, Hmodel, Hunits.
    eexists. split; [vm_compute; reflexivity|]. split; vm_compute; reflexivity.
Qed.

End CommerceFacts.

(** C7.  The fee is no ceiling once the product of cost and basis points
    passes [2^53]: [serviceCostCents * basisPoints] is rounded to a double
    before the division, and the quotient once more.  At a cost of
    [2^53 - 1] cents and 10000 basis points the fee comes out one cent below
    the quotient, at 35184372088830 cents one cent above it and so above the
    cost; the per-call cost of [2^53 - 1] cents times 3 units is off by one
    as well.  For the amounts whose products stay below [2^53] the
    arithmetic is as the claim says ([receipt_cost_arithmetic_in_range]). *)
Theorem platform_fee_misses_ceiling_beyond_2_53 :
  let top := 9007199254740991 in
  computePlatformFee top 10000 = Returned (top - 1)
  /\ ceil_div (top * 10000) 10000 = top
  /\ computePlatformFee 35184372088830 10000 = Returned 35184372088831
  /\ ceil_div (35184372088830 * 10000) 10000 = 35184372088830
  /\ computeCallCost
       {| per_call_cents := Some top; per_minute_cents := None;
          subscription_cents := None; model := None; currency := None;
          free_tier_calls := None |} 3
     = top * 3 - 1.
Proof. repeat split; vm_compute; reflexivity. Qed.

(** ** Receipts: issue, then verify *)

Section ReceiptRoundTrip.
Variable JSON_stringify : AttestationPayload -> string.
Variable sign : string -> string.
Variable verify : string -> string -> string -> bool.
Variable gate_public_key : string.

(** The verification callback accepts what the signing callback produced
    over the same bytes. *)
Hypothesis verify_sign : forall bytes, verify bytes (sign bytes) gate_public_key = true.

Lemma truthy_string_nonce_matches (n : option string) :
  match truthy_string n with
  | Some e =>
      match truthy_string n with
      | Some m => negb (String.eqb m e)
      | None => true
      end
  | None => false
  end = false.
Proof.
  destruct (truthy_string n) as [e|]; [|done]. by rewrite String.eqb_refl.
Qed.

(** The round trip succeeds for every issuance that returns a receipt,
    except when the pricing model is per-minute, the measured duration is
    exactly 0 ms and the per-call price of the units is not 0. *)
Lemma receipt_roundtrip params attestation_id now_iso att :
  issueConsumptionAttestation JSON_stringify sign params attestation_id now_iso
  = Returned att ->
  let pricing := extractPricingConstraints (p_effective_constraints params) in
  ~ (model_is_per_minute pricing = true
     /\ p_duration_ms params = Some 0
     /\ computeCallCost pricing (default 1 (p_units params)) <> 0) ->
  verifyConsumptionAttestation JSON_stringify verify att
    (p_request_nonce params) gate_public_key
  = Returned {| valid := true; error := None |}.
Proof.
  unfold issueConsumptionAttestation. cbv zeta.
  set (pricing := extractPricingConstraints (p_effective_constraints params)).
  set (fee := extractPlatformFeeConstraints (p_effective_constraints params)).
  set (cost := if model_is_per_minute pricing then _ else _).
  destruct (match truthy_number (basis_points fee) with
            | Some bp => computePlatformFee cost bp
            | None => Returned 0
            end) as [pf|e] eqn:Hfee; simpl; [|done].
  intros [= <-] Hexc.
  unfold verifyConsumptionAttestation. cbv zeta. simpl.
  rewrite truthy_string_nonce_matches.
  rewrite verify_sign. simpl.
  fold pricing fee.
  assert (Hcost :
    (if model_is_per_minute pricing
     then match truthy_number (p_duration_ms params) with
          | Some d => computeTimeCost pricing d
          | None => computeCallCost pricing (default 1 (p_units params))
          end
     else computeCallCost pricing (default 1 (p_units params))) = cost).
  { subst cost. destruct (model_is_per_minute pricing) eqn:Hm; [|done].
    destruct (p_duration_ms params) as [d|] eqn:Hd; [|done]. simpl.
    destruct (Z.eqb_spec d 0) as [->|Hnz]; [|done].
    unfold computeTimeCost.
    destruct (decide (computeCallCost pricing (default 1 (p_units params)) = 0))
      as [Hz|Hnz].
    - rewrite Hz. destruct (per_minute_cents pricing); [|done].
      change (Float64.ceil_quotient 0 60000) with 0. by rewrite mul_0_r.
    - exfalso. apply Hexc. done. }
  rewrite Hcost, Z.eqb_refl. simpl.
  change (as_number (p_effective_constraints params !! "core:platform_fee:basis_points"))
    with (basis_points fee).
  rewrite Hfee. simpl. by rewrite Z.eqb_refl.
Qed.

End ReceiptRoundTrip.

(** C6.  The round trip breaks at [duration_ms = 0].  Issuance tests
    [duration_ms !== undefined] and bills 0 minutes; verification tests the
    truthiness of [duration_ms], takes 0 for absent, and expects the
    per-call price instead: the receipt that the gate has just issued is
    rejected with a cost mismatch, whatever the serialiser and for all
    callbacks in which verification accepts the signatures of signing. *)
Theorem receipt_roundtrip_breaks_at_zero_duration
    (JSON_stringify : AttestationPayload -> string) (sign : string -> string)
    (verify : string -> string -> string -> bool) (gate_public_key : string)
    (attestation_id now_iso : string) :
  (forall bytes, verify bytes (sign bytes) gate_public_key = true) ->
  exists att,
    issueConsumptionAttestation JSON_stringify sign zero_duration_params
      attestation_id now_iso = Returned att
    /\ cost_cents (consumption (payload att)) = 0
    /\ verifyConsumptionAttestation JSON_stringify verify att
         (p_request_nonce zero_duration_params) gate_public_key
       = Returned {| valid := false; error := Some (CostMismatch 10 0) |}.
Proof.
  intros Hvs. eexists. split; [reflexivity|]. split; [reflexivity|].
  unfold verifyConsumptionAttestation. cbv zeta.
  cbn [payload proof sig request_nonce zero_duration_params p_request_nonce
       truthy_string String.eqb Ascii.eqb Bool.eqb negb].
  rewrite Hvs. vm_compute. reflexivity.
Qed.

Lemma receipt_roundtrip_breaks_at_zero_duration_witness :
  exists att,
    issueConsumptionAttestation (fun _ => "payload") (fun bytes => bytes)
      zero_duration_params "catt_1" "2026-01-01T00:00:00.000Z" = Returned att
    /\ cost_cents (consumption (payload att)) = 0
    /\ verifyConsumptionAttestation (fun _ => "payload")
         (fun bytes sig _ => String.eqb sig bytes) att
         (p_request_nonce zero_duration_params) "gate_key"
       = Returned {| valid := false; error := Some (CostMismatch 10 0) |}.
Proof.
  apply (receipt_roundtrip_breaks_at_zero_duration (fun _ => "payload")
           (fun bytes => bytes) (fun bytes sig _ => String.eqb sig bytes)
           "gate_key" "catt_1" "2026-01-01T00:00:00.000Z").
  intros bytes. apply String.eqb_refl.
Defined.

(** * Properties of the verification pipeline *)

Import Types Verification.

(** ** Anti-downgrade (revision 1.2.0) *)

Section AntiDowngrade.
Import V1_2.
Context `{Platform} {AnonymousRateLimiter : Type} `{!ProtocolSDK AnonymousRateLimiter}.

Abbreviation Params := (@VerifyLocallyParams AnonymousRateLimiter).

Lemma date_lt_expired clock p :
  date_lt (expires_at p) (now_expiry clock) = true <-> expired clock p.
Proof.
  unfold date_lt, expired. destruct (expires_at p) as [t|].
  - rewrite Z.ltb_lt. split; [eauto|]. by intros (? & [= <-] & ?).
  - split; [done|]. by intros (? & ? & ?).
Qed.



End AntiDowngrade.



(** ** The expiry boundary *)

Section ExpiryV1_2.
Import V1_2.
Context `{Platform} {AnonymousRateLimiter : Type} `{!ProtocolSDK AnonymousRateLimiter}.

Lemma denied_with_deny c c' msg extras :
  denied_with (Returned (deny c msg extras)) c' <-> c = c'.
Proof.
  unfold denied_with. split.
  - intros (r & [= <-] & Hc). simpl in Hc. congruence.
  - intros ->. eexists. split; [reflexivity|done].
Qed.

Lemma passport_expired_iff params clock :
  denied_with (result (verifyLocally params clock)) PASSPORT_EXPIRED
  <-> fails_expiry_check params clock.
Proof.
  unfold verifyLocally, fails_expiry_check. cbv zeta.
  destruct (passport params) as [p|] eqn:Hp.
  2:{ split; [|by intros (? & ? & ? & [=] & _)].
      intros (r & Hr & Hc). exfalso.
      repeat (case_match; simplify_eq/=); unfold mbind, Outcome_bind in *;
        repeat (case_match; simplify_eq/=). }
  destruct (lookup_issuerKey (issuerKeys params) (issuer_id p)) as [k|] eqn:Hk.
  2:{ simpl. rewrite denied_with_deny.
      split; [done|]. intros (? & ? & ? & [= <-] & ? & _). congruence. }
  destruct (skipSignatureVerification params) eqn:Hskip;
    destruct (verifySignatureSync p k) eqn:Hsig; simpl.
  all: try (rewrite denied_with_deny; split; [done|];
            intros (? & ? & ? & [= <-] & Hk' & [?|Hs] & _);
            [done|rewrite Hk in Hk'; injection Hk' as <-; congruence]).
  all: destruct (date_lt (expires_at p) (now_expiry clock)) eqn:Hexp; simpl.
  all: try (rewrite denied_with_deny; split; [intros _|done];
            apply date_lt_expired in Hexp as (t & Ht & Hlt);
            exists p, k, t; repeat split; auto; fail).
  all: split;
    [ intros (r & Hr & Hc); exfalso;
      repeat (case_match; simplify_eq/=)
    | intros (? & ? & t & [= <-] & _ & _ & Ht & Hlt);
      exfalso; unfold date_lt in Hexp; rewrite Ht in Hexp;
      apply Z.ltb_ge in Hexp; lia ].
Qed.

End ExpiryV1_2.

Section ExpiryV1_0.
Import V1_0.
Context `{Platform}.

Lemma denied_with_denied c c' msg tmpl :
  denied_with_1_0 (Returned (denied c msg tmpl)) c' <-> c = c'.
Proof.
  unfold denied_with_1_0. split.
  - intros (r & [= <-] & Hc). simpl in Hc. congruence.
  - intros ->. eexists. split; [reflexivity|done].
Qed.

Lemma passport_expired_iff_1_0 params clock :
  denied_with_1_0 (verifyLocally params clock).1 PASSPORT_EXPIRED
  <-> fails_expiry_check_1_0 params clock.
Proof.
  unfold verifyLocally, fails_expiry_check_1_0. cbv zeta.
  destruct (passport params) as [p|] eqn:Hp.
  2:{ simpl. rewrite denied_with_denied.
      split; [done|]. by intros (? & ? & ? & [=] & _). }
  destruct (lookup_issuerKey (issuerKeys params) (issuer_id p)) as [k|] eqn:Hk.
  2:{ simpl. rewrite denied_with_denied.
      split; [done|]. intros (? & ? & ? & [= <-] & ? & _). congruence. }
  destruct (skipSignatureVerification params) eqn:Hskip;
    destruct (verifySignatureSync p k) eqn:Hsig; simpl.
  all: try (rewrite denied_with_denied; split; [done|];
            intros (? & ? & ? & [= <-] & Hk' & [?|Hs] & _);
            [done|rewrite Hk in Hk'; injection Hk' as <-; congruence]).
  all: destruct (date_lt (expires_at p) (now_expiry clock)) eqn:Hexp; simpl.
  all: try (rewrite denied_with_denied; split; [intros _|done];
            unfold date_lt in Hexp; destruct (expires_at p) as [t|] eqn:Ht; [|done];
            apply Z.ltb_lt in Hexp;
            exists p, k, t; repeat split; auto; fail).
  all: split;
    [ intros (r & Hr & Hc); exfalso;
      repeat (case_match; simplify_eq/=)
    | intros (? & ? & t & [= <-] & _ & _ & Ht & Hlt);
      exfalso; unfold date_lt in Hexp; rewrite Ht in Hexp;
      apply Z.ltb_ge in Hexp; lia ].
Qed.

End ExpiryV1_0.

(** C3 (as amended).  For a credential whose [expires_at] is a date, in
    both revisions [verifyLocally] denies with the expiry code exactly when
    the pipeline reaches the expiry check (the read of the issuer key finds
    one, and the signature is accepted or its check skipped) and
    [expires_at] is strictly before the current instant.  A credential
    whose [expires_at] equals the current instant is therefore not treated
    as expired: the expiry check lets it through. *)
Theorem expiry_boundary :
  (forall `{Platform} {A : Type} `{!V1_2.ProtocolSDK A}
          (params : @V1_2.VerifyLocallyParams A) (clock : Clock) (p : Passport) (t : Z),
      V1_2.passport params = Some p ->
      expires_at p = Some t ->
      (denied_with (V1_2.result (V1_2.verifyLocally params clock)) V1_2.PASSPORT_EXPIRED
       <-> reaches_expiry_check (V1_2.issuerKeys params)
             (V1_2.skipSignatureVerification params) p
           /\ t < now_expiry clock)
      /\ (t = now_expiry clock ->
          ~ denied_with (V1_2.result (V1_2.verifyLocally params clock))
              V1_2.PASSPORT_EXPIRED))
  /\ (forall `{Platform} (params : V1_0.VerifyLocallyParams) (clock : Clock)
             (p : Passport) (t : Z),
      V1_0.passport params = Some p ->
      expires_at p = Some t ->
      (denied_with_1_0 (V1_0.verifyLocally params clock).1 V1_0.PASSPORT_EXPIRED
       <-> reaches_expiry_check (V1_0.issuerKeys params)
             (V1_0.skipSignatureVerification params) p
           /\ t < now_expiry clock)
      /\ (t = now_expiry clock ->
          ~ denied_with_1_0 (V1_0.verifyLocally params clock).1
              V1_0.PASSPORT_EXPIRED)).
Proof.
  split.
  - intros HP A HS params clock p t Hp Ht.
    assert (Hiff : denied_with (V1_2.result (V1_2.verifyLocally params clock))
                     V1_2.PASSPORT_EXPIRED
                   <-> reaches_expiry_check (V1_2.issuerKeys params)
                         (V1_2.skipSignatureVerification params) p
                       /\ t < now_expiry clock).
    { rewrite passport_expired_iff. unfold fails_expiry_check, reaches_expiry_check.
      split.
      - intros (p' & k & t' & Hp' & Hk & Hsig & Ht' & Hlt).
        rewrite Hp in Hp'. injection Hp' as <-. rewrite Ht in Ht'.
        injection Ht' as <-. split; [by exists k|done].
      - intros [(k & Hk & Hsig) Hlt]. by exists p, k, t. }
    split; [exact Hiff|]. intros -> [_ Hlt]%Hiff. lia.
  - intros HP params clock p t Hp Ht.
    assert (Hiff : denied_with_1_0 (V1_0.verifyLocally params clock).1
                     V1_0.PASSPORT_EXPIRED
                   <-> reaches_expiry_check (V1_0.issuerKeys params)
                         (V1_0.skipSignatureVerification params) p
                       /\ t < now_expiry clock).
    { rewrite passport_expired_iff_1_0.
      unfold fails_expiry_check_1_0, reaches_expiry_check. split.
      - intros (p' & k & t' & Hp' & Hk & Hsig & Ht' & Hlt).
        rewrite Hp in Hp'. injection Hp' as <-. rewrite Ht in Ht'.
        injection Ht' as <-. split; [by exists k|done].
      - intros [(k & Hk & Hsig) Hlt]. by exists p, k, t. }
    split; [exact Hiff|]. intros -> [_ Hlt]%Hiff. lia.
Qed.

Lemma expiry_boundary_witness :
  ~ denied_with
      (V1_2.result
         (@V1_2.verifyLocally Fixtures.accepting_platform unit Fixtures.permissive_sdk
            (mock_params_expiring "flights:search") (Fixtures.at_instant 5000)))
      V1_2.PASSPORT_EXPIRED
  /\ ~ denied_with_1_0
         (@V1_0.verifyLocally Fixtures.accepting_platform
            (mock_params_1_0 false ∅ "flights:search" new_InMemoryRateLimiter)
            (Fixtures.at_instant 5000)).1
         V1_0.PASSPORT_EXPIRED.
Proof.
  split.
  - apply (proj2 (proj1 expiry_boundary Fixtures.accepting_platform unit
                    Fixtures.permissive_sdk (mock_params_expiring "flights:search")
                    (Fixtures.at_instant 5000)
                    (Fixtures.mock_passport "core:cost:max_per_action" 0 5000) 5000
                    eq_refl eq_refl)).
    reflexivity.
  - apply (proj2 (proj2 expiry_boundary Fixtures.accepting_platform
                    (mock_params_1_0 false ∅ "flights:search" new_InMemoryRateLimiter)
                    (Fixtures.at_instant 5000)
                    (Fixtures.mock_passport "core:cost:max" 0 5000) 5000
                    eq_refl eq_refl)).
    reflexivity.
Defined.

(** At the instant [expires_at] itself the credential is accepted: both
    revisions permit the call; one millisecond later they deny it as
    expired. *)
Lemma expires_at_now_is_permitted :
  (exists r,
      V1_2.result
        (@V1_2.verifyLocally Fixtures.accepting_platform unit Fixtures.permissive_sdk
           (mock_params_expiring "flights:search") (Fixtures.at_instant 5000))
      = Returned r
      /\ V1_2.decision r = V1_2.permit /\ V1_2.denial r = None)
  /\ (exists r,
        (@V1_0.verifyLocally Fixtures.accepting_platform
           (mock_params_1_0 false ∅ "flights:search" new_InMemoryRateLimiter)
           (Fixtures.at_instant 5000)).1
        = Returned r
        /\ V1_0.allowed r = true /\ V1_0.denial r = None)
  /\ denied_with
       (V1_2.result
          (@V1_2.verifyLocally Fixtures.accepting_platform unit Fixtures.permissive_sdk
             (mock_params_expiring "flights:search") (Fixtures.at_instant 5001)))
       V1_2.PASSPORT_EXPIRED.
Proof.
  split; [|split].
  - eexists. split; [vm_compute; reflexivity|]. split; reflexivity.
  - eexists. split; [vm_compute; reflexivity|]. split; reflexivity.
  - eexists. split; [vm_compute; reflexivity|]. reflexivity.
Qed.

(** ** Totality of the hot path (revision 1.0.0) *)

Section Totality.
Import V1_0.
Context `{Platform}.

(** Whatever happens inside the [try] block, [verifySignatureSync] returns a
    boolean; an exception becomes [false]. *)
Lemma verifySignatureSync_absorbs passport issuerPublicKey e :
  ed25519_verify (signedPayload passport) (signature passport) issuerPublicKey = Thrown e ->
  verifySignatureSync passport (Own issuerPublicKey) = false.
Proof. unfold verifySignatureSync. by intros ->. Qed.



End Totality.

(** C8.  The hot path is not total.  The legacy constraint check applies
    [Number(...)] to a context value of type [unknown] without a guard; for
    a Symbol, or for an object that has no callable [valueOf] and
    [toString] (as [JSON.parse] yields for
    [{"valueOf": 1, "toString": 1}]), [Number] throws [TypeError] and
    [verifyLocally] propagates it instead of returning a [VerifyResult].
    The rate limiter is left untouched. *)
Theorem verifyLocally_throws_on_unconvertible_context :
  @V1_0.verifyLocally Fixtures.accepting_platform
    (mock_params_1_0 false {[ "core:cost:max" := JSymbol ]} "flights:book"
       new_InMemoryRateLimiter)
    (Fixtures.at_instant 1000)
  = (Thrown TypeError, new_InMemoryRateLimiter)
  /\ @V1_0.verifyLocally Fixtures.accepting_platform
       (mock_params_1_0 false {[ "core:cost:max" := JObject None ]} "flights:book"
          new_InMemoryRateLimiter)
       (Fixtures.at_instant 1000)
     = (Thrown TypeError, new_InMemoryRateLimiter).
Proof. split; vm_compute; reflexivity. Qed.

(** ** Determinism of PERMIT results (revision 1.2.0) *)

Section Determinism.
Import V1_2.
Context {AnonymousRateLimiter : Type}.

Abbreviation Params_ := (@VerifyLocallyParams AnonymousRateLimiter).

Lemma permit_shape `{Platform} `{!ProtocolSDK AnonymousRateLimiter}
    (params : Params_) clock r :
  result (verifyLocally params clock) = Returned r ->
  decision r = permit ->
  r = permit_result (passport params) (catalog params) (action params).
Proof.
  unfold verifyLocally, permit_result, js_get. cbv zeta. intros Hr Hd.
  repeat (case_match; simplify_eq/=); try done;
    unfold mbind, Outcome_bind in *;
    repeat (case_match; simplify_eq/=); done.
Qed.

(** Two permitted calls for the same credential, catalog and action return
    the same result, whatever the rate limiter states, the clocks, the
    contexts, the anonymous configuration and the answers of the SDK. *)
Lemma permit_results_agree
    (P1 P2 : Platform) (S1 S2 : ProtocolSDK AnonymousRateLimiter)
    (params1 params2 : Params_) clock1 clock2 r1 r2 :
  passport params1 = passport params2 ->
  catalog params1 = catalog params2 ->
  action params1 = action params2 ->
  result (@verifyLocally P1 _ S1 params1 clock1) = Returned r1 ->
  result (@verifyLocally P2 _ S2 params2 clock2) = Returned r2 ->
  decision r1 = permit -> decision r2 = permit ->
  r1 = r2.
Proof.
  intros Hp Hc Ha H1 H2 D1 D2.
  rewrite (permit_shape params1 clock1 r1 H1 D1).
  rewrite (permit_shape params2 clock2 r2 H2 D2).
  by rewrite Hp, Hc, Ha.
Qed.

(** C9.  [verifyLocally] is a function of its parameters and of the clock,
    so the same snapshot gives the same outcome.  When it is invoked twice
    in a row at the same instant with the same credential, action, context
    and caches, the second call seeing the rate limiters as the first left
    them, and both calls permit, the two results are equal field by
    field. *)
Theorem verifyLocally_deterministic `{Platform} `{!ProtocolSDK AnonymousRateLimiter}
    (params : Params_) (clock : Clock) (r1 r2 : VerifyResult) :
  let first := verifyLocally params clock in
  let second := verifyLocally (after params first) clock in
  result first = Returned r1 ->
  result second = Returned r2 ->
  decision r1 = permit ->
  decision r2 = permit ->
  r1 = r2.
Proof.
  intros first second H1 H2 D1 D2.
  by apply (permit_results_agree _ _ _ _ params (after params first) clock clock r1 r2).
Qed.

End Determinism.

Lemma verifyLocally_deterministic_witness :
  let params := mock_params_limited in
  let clock := Fixtures.at_instant 1000 in
  let first :=
    @V1_2.verifyLocally Fixtures.accepting_platform unit Fixtures.permissive_sdk
      params clock in
  let second :=
    @V1_2.verifyLocally Fixtures.accepting_platform unit Fixtures.permissive_sdk
      (after params first) clock in
  let r := permit_result (V1_2.passport params) (V1_2.catalog params) "flights:search" in
  V1_2.result first = Returned r
  /\ V1_2.result second = Returned r
  /\ V1_2.decision r = V1_2.permit
  /\ r = r.
Proof.
  intros params clock first second r.
  assert (H1 : V1_2.result first = Returned r) by (vm_compute; reflexivity).
  assert (H2 : V1_2.result second = Returned r) by (vm_compute; reflexivity).
  assert (D : V1_2.decision r = V1_2.permit) by reflexivity.
  split; [exact H1|]. split; [exact H2|]. split; [exact D|].
  exact (@verifyLocally_deterministic unit Fixtures.accepting_platform
           Fixtures.permissive_sdk params clock r r H1 H2 D D).
Defined.

(** ** The rate limiter as a frame *)

Section LimiterFrame.

(** What [increment] does to the limiter: nothing when no limit is
    registered for the action; otherwise the limits are kept and exactly the
    bucket of [(action, passportId)] is written, with the count of a live
    bucket plus one, or with count 1 and a fresh window when the bucket was
    absent or had expired. *)
Lemma increment_spec (l : InMemoryRateLimiter) action passportId now :
  match limits l !! action with
  | None => increment l action passportId now = l
  | Some lim =>
      limits (increment l action passportId now) = limits l
      /\ forall key,
          buckets (increment l action passportId now) !! key
          = if decide (key = getBucketKey action passportId) then
              Some (match buckets l !! key with
                    | Some b =>
                        if resetAt b <=? now
                        then {| count := 1; resetAt := now + windowMs lim |}
                        else {| count := count b + 1; resetAt := resetAt b |}
                    | None => {| count := 1; resetAt := now + windowMs lim |}
                    end)
            else buckets l !! key
  end.
Proof.
  unfold increment. destruct (limits l !! action) as [lim|]; [|done].
  split; [done|]. intros key. simpl.
  destruct (decide (key = getBucketKey action passportId)) as [->|Hne].
  - rewrite lookup_insert_eq.
    destruct (buckets l !! getBucketKey action passportId) as [b|]; [|done].
    by destruct (resetAt b <=? now).
  - by rewrite lookup_insert_ne.
Qed.

Lemma limiter_frame_1_2 `{Platform} {A : Type} `{!V1_2.ProtocolSDK A}
    (params : @V1_2.VerifyLocallyParams A) clock :
  let post := V1_2.verifyLocally params clock in
  if is_permit_1_2 (V1_2.result post) then
    match V1_2.passport params with
    | Some p =>
        V1_2.rateLimiter_after post
        = increment (V1_2.rateLimiter params) (V1_2.action params)
            (Some (passport_id p)) (now_increment clock)
    | None => V1_2.rateLimiter_after post = V1_2.rateLimiter params
    end
  else V1_2.rateLimiter_after post = V1_2.rateLimiter params.
Proof.
  unfold V1_2.verifyLocally. cbv zeta.
  repeat (case_match; simplify_eq/=); try done;
    unfold mbind, Outcome_bind in *;
    repeat (case_match; simplify_eq/=); done.
Qed.

Lemma anonymous_limiter_frame `{Platform} {A : Type} `{!V1_2.ProtocolSDK A}
    (params : @V1_2.VerifyLocallyParams A) clock p :
  V1_2.passport params = Some p ->
  V1_2.anonymousRateLimiter_after (V1_2.verifyLocally params clock)
  = V1_2.anonymousRateLimiter params.
Proof.
  intros Hp. unfold V1_2.verifyLocally. cbv zeta. rewrite Hp.
  repeat (case_match; simplify_eq/=); done.
Qed.

Lemma limiter_frame_1_0 `{Platform} (params : V1_0.VerifyLocallyParams) clock :
  let post := V1_0.verifyLocally params clock in
  if is_permit_1_0 post.1 then
    exists p, V1_0.passport params = Some p
              /\ post.2 = increment (V1_0.rateLimiter params) (V1_0.action params)
                            (Some (passport_id p)) (now_increment clock)
  else post.2 = V1_0.rateLimiter params.
Proof.
  unfold V1_0.verifyLocally. cbv zeta.
  repeat (case_match; simplify_eq/=); try done; eauto.
Qed.

End LimiterFrame.

(** C10 (as amended).  In both revisions a call that does not permit (a
    denial at any step, or an exception) leaves the rate limiter exactly as
    it was.  A call that permits a presented credential leaves it as
    [increment(action, passport_id)] makes it at the instant of the
    increment: when a limit is registered for the action, only the bucket
    of [(action, passport_id)] is written; when none is registered, nothing
    changes.  A permit of an anonymous caller (revision 1.2.0) leaves the
    rate limiter as it was, and a call that presents a credential leaves
    the anonymous rate limiter as it was. *)
Theorem rate_limiter_frame :
  (forall `{Platform} {A : Type} `{!V1_2.ProtocolSDK A}
          (params : @V1_2.VerifyLocallyParams A) (clock : Clock),
      let post := V1_2.verifyLocally params clock in
      (is_permit_1_2 (V1_2.result post) = false ->
       V1_2.rateLimiter_after post = V1_2.rateLimiter params)
      /\ (is_permit_1_2 (V1_2.result post) = true ->
          forall p, V1_2.passport params = Some p ->
            V1_2.rateLimiter_after post
            = increment (V1_2.rateLimiter params) (V1_2.action params)
                (Some (passport_id p)) (now_increment clock))
      /\ (is_permit_1_2 (V1_2.result post) = true ->
          V1_2.passport params = None ->
          V1_2.rateLimiter_after post = V1_2.rateLimiter params)
      /\ (forall p, V1_2.passport params = Some p ->
          V1_2.anonymousRateLimiter_after post = V1_2.anonymousRateLimiter params))
  /\ (forall `{Platform} (params : V1_0.VerifyLocallyParams) (clock : Clock),
      let post := V1_0.verifyLocally params clock in
      (is_permit_1_0 post.1 = false -> post.2 = V1_0.rateLimiter params)
      /\ (is_permit_1_0 post.1 = true ->
          exists p, V1_0.passport params = Some p
                    /\ post.2 = increment (V1_0.rateLimiter params) (V1_0.action params)
                                  (Some (passport_id p)) (now_increment clock)))
  /\ (forall (l : InMemoryRateLimiter) action passportId now,
      (limits l !! action = None -> increment l action passportId now = l)
      /\ (forall lim, limits l !! action = Some lim ->
          limits (increment l action passportId now) = limits l
          /\ (forall key, key <> getBucketKey action passportId ->
                buckets (increment l action passportId now) !! key = buckets l !! key)
          /\ buckets (increment l action passportId now) !! getBucketKey action passportId
             = Some (match buckets l !! getBucketKey action passportId with
                     | Some b =>
                         if resetAt b <=? now
                         then {| count := 1; resetAt := now + windowMs lim |}
                         else {| count := count b + 1; resetAt := resetAt b |}
                     | None => {| count := 1; resetAt := now + windowMs lim |}
                     end))).
Proof.
  split; [|split].
  - intros HP A HS params clock post.
    pose proof (limiter_frame_1_2 params clock) as Hf. cbv zeta in Hf.
    fold post in Hf.
    assert (Ha : forall p, V1_2.passport params = Some p ->
              V1_2.anonymousRateLimiter_after post = V1_2.anonymousRateLimiter params)
      by (intros p Hp; by apply (anonymous_limiter_frame params clock p)).
    destruct (is_permit_1_2 (V1_2.result post)).
    + split; [done|]. split; [|split; [|done]].
      * intros _ p Hp. by rewrite Hp in Hf.
      * intros _ Hp. by rewrite Hp in Hf.
    + split; [done|]. split; [done|]. split; done.
  - intros HP params clock post.
    pose proof (limiter_frame_1_0 params clock) as Hf. cbv zeta in Hf.
    fold post in Hf.
    destruct (is_permit_1_0 post.1); split; done.
  - intros l action passportId now.
    pose proof (increment_spec l action passportId now) as Hs.
    destruct (limits l !! action) as [lim|]; split; try done.
    intros lim' [= <-]. destruct Hs as [Hl Hb]. split; [done|]. split.
    + intros key Hne. rewrite Hb. by rewrite decide_False.
    + rewrite Hb. by rewrite decide_True.
Qed.

Lemma rate_limiter_frame_witness :
  (let post :=
     @V1_2.verifyLocally Fixtures.rejecting_platform unit Fixtures.permissive_sdk
       (mock_params false "flights:search") (Fixtures.at_instant 1000) in
   V1_2.rateLimiter_after post = V1_2.rateLimiter (mock_params false "flights:search"))
  /\ (let post :=
        @V1_2.verifyLocally Fixtures.accepting_platform unit Fixtures.permissive_sdk
          mock_params_limited (Fixtures.at_instant 1000) in
      V1_2.rateLimiter_after post
      = increment (V1_2.rateLimiter mock_params_limited) "flights:search"
          (Some "passport_test_123") 1000)
  /\ (let l := setLimit "flights:search" 2 60000 new_InMemoryRateLimiter in
      buckets (increment l "flights:search" (Some "passport_test_123") 1000)
        !! getBucketKey "flights:search" (Some "passport_test_123")
      = Some {| count := 1; resetAt := 1000 + 60000 |}).
Proof.
  split; [|split].
  - apply (proj1 (proj1 rate_limiter_frame Fixtures.rejecting_platform unit
                    Fixtures.permissive_sdk (mock_params false "flights:search")
                    (Fixtures.at_instant 1000))).
    vm_compute; reflexivity.
  - exact (proj1 (proj2 (proj1 rate_limiter_frame Fixtures.accepting_platform unit
                           Fixtures.permissive_sdk mock_params_limited
                           (Fixtures.at_instant 1000)))
             ltac:(vm_compute; reflexivity)
             (Fixtures.mock_passport "core:cost:max_per_action" 0 86400000)
             eq_refl).
  - intros l.
    apply (proj2 (proj2 (proj2 (proj2 (proj2 rate_limiter_frame) l "flights:search"
                                  (Some "passport_test_123") 1000)
                           {| max := 2; windowMs := 60000 |}
                           ltac:(vm_compute; reflexivity)))).
Defined.

(** A permitted call for an action without a registered limit applies no
    increment: the bucket of [(action, passport_id)] does not exist before
    the call and does not exist after it.  Nor does the permit of an
    anonymous caller touch the rate limiter. *)
Lemma permit_without_increment :
  (let post :=
     @V1_0.verifyLocally Fixtures.accepting_platform
       (mock_params_1_0 false ∅ "flights:search" new_InMemoryRateLimiter)
       (Fixtures.at_instant 1000) in
   is_permit_1_0 post.1 = true
   /\ post.2 = new_InMemoryRateLimiter
   /\ buckets post.2 !! getBucketKey "flights:search" (Some "passport_test_123") = None)
  /\ (let post :=
        @V1_2.verifyLocally Fixtures.accepting_platform unit Fixtures.permissive_sdk
          (mock_params true "flights:search") (Fixtures.at_instant 1000) in
      is_permit_1_2 (V1_2.result post) = true
      /\ V1_2.rateLimiter_after post = new_InMemoryRateLimiter)
  /\ (let params :=
        with_anonymous
          {| V1_2.passport := None;
             V1_2.catalog := Fixtures.mock_catalog "core:cost:max_per_action";
             V1_2.revocationList := ∅;
             V1_2.issuerKeys := Fixtures.mock_issuerKeys;
             V1_2.rateLimiter :=
               setLimit "flights:search" 2 60000 new_InMemoryRateLimiter;
             V1_2.action := "flights:search";
             V1_2.context := ∅;
             V1_2.skipSignatureVerification := false;
             V1_2.anonymousPolicy := None;
             V1_2.anonymousRateLimiter := None;
             V1_2.sourceId := None |}
          (Some anon_policy) (Some tt) (Some "test-client") in
      let post :=
        @V1_2.verifyLocally Fixtures.accepting_platform unit Fixtures.permissive_sdk
          params (Fixtures.at_instant 1000) in
      is_permit_1_2 (V1_2.result post) = true
      /\ V1_2.rateLimiter_after post = V1_2.rateLimiter params).
Proof.
  split; [|split]; cbv zeta.
  - split; [vm_compute; reflexivity|]. split; vm_compute; reflexivity.
  - split; vm_compute; reflexivity.
  - split; vm_compute; reflexivity.
Qed.

(** * Further properties of the decimal normaliser *)

Section TransformMore.
Import Transforms.

(** The result depends on the input through its trimmed form only. *)
Lemma transformToCanonical_trim (s1 s2 : string) P mode :
  trim (list_ascii_of_string s1) = trim (list_ascii_of_string s2) ->
  transformToCanonical s1 P mode = transformToCanonical s2 P mode.
Proof. intros E. unfold transformToCanonical. cbv zeta. by rewrite E. Qed.

(** Every input is either refused as not numeric in every mode, or its
    trimmed form is a numeral of the grammar and the result is the specified
    one in every mode. *)
Lemma transformToCanonical_cases (s : string) P :
  (test_numeric (trim (list_ascii_of_string s)) = false
   /\ forall mode, transformToCanonical s P mode = Thrown InvalidNumericValue)
  \/ (exists sg w f,
        all_digits w /\ w <> [] /\ all_digits f
        /\ trim (list_ascii_of_string s) = numeral_chars sg w f
        /\ forall mode,
             transformToCanonical s P mode
             = spec_canonical sg (digits_value (w ++ f)) (length f) P mode).
Proof.
  destruct (test_numeric (trim (list_ascii_of_string s))) eqn:E.
  - right. apply test_numeric_grammar in E as (sg & w & f & Hw & Hne & Hf & E).
    exists sg, w, f. split; [done|]. split; [done|]. split; [done|].
    split; [done|]. intros mode.
    rewrite <- (transformToCanonical_numeral sg w f P mode) by done.
    apply transformToCanonical_trim. unfold numeral.
    rewrite list_ascii_of_string_of_list_ascii, numeral_trim by done. done.
  - left. split; [done|]. intros mode.
    unfold transformToCanonical. cbv zeta. by rewrite E.
Qed.

Lemma drop_spaces_app (s t : list ascii) :
  drop_spaces (s ++ t)
  = if forallb is_space s then drop_spaces t else drop_spaces s ++ t.
Proof.
  induction s as [|c s IH]; [done|]. simpl.
  destruct (is_space c); [exact IH|done].
Qed.

Lemma drop_spaces_all (s : list ascii) : all_spaces s -> drop_spaces s = [].
Proof.
  intros H. rewrite <- (app_nil_r s), drop_spaces_app.
  unfold all_spaces in H. by rewrite H.
Qed.

Lemma all_spaces_reverse (s : list ascii) : all_spaces s -> all_spaces (reverse s).
Proof.
  unfold all_spaces. rewrite !forallb_forall. intros H c Hc. apply H.
  apply list_elem_of_In. apply list_elem_of_In in Hc.
  rewrite elem_of_reverse in Hc. exact Hc.
Qed.

(** [trim] removes white space of any length on both sides. *)
Lemma trim_padding (pre s post : list ascii) :
  all_spaces pre -> all_spaces post -> trim (pre ++ s ++ post) = trim s.
Proof.
  intros Hpre Hpost. unfold trim.
  rewrite (drop_spaces_app pre). unfold all_spaces in Hpre. rewrite Hpre.
  rewrite drop_spaces_app.
  destruct (forallb is_space s) eqn:Hs.
  - rewrite (drop_spaces_all post Hpost), (drop_spaces_all s Hs). done.
  - rewrite reverse_app, drop_spaces_app.
    apply all_spaces_reverse in Hpost. unfold all_spaces in Hpost.
    by rewrite Hpost.
Qed.

End TransformMore.

(** X1 (transformToCanonical): on every input string, for every precision
    that is a natural number, the normaliser either returns an integer
    between -(2^53 - 1) and 2^53 - 1 or throws one of its three own errors;
    the [SyntaxError] of [BigInt] never escapes, and the precision error is
    thrown in [strict] mode only. *)
Theorem transformToCanonical_range (s : string) (P : nat) (mode : Transforms.TransformMode) :
  match Transforms.transformToCanonical s P mode with
  | Returned r => - Transforms.MAX_SAFE_INTEGER <= r <= Transforms.MAX_SAFE_INTEGER
  | Thrown Transforms.BigIntSyntaxError => False
  | Thrown Transforms.DecimalPlacesExceeded => mode = Transforms.strict
  | Thrown _ => True
  end.
Proof.
  destruct (transformToCanonical_cases s P)
    as [[_ ->]|(sg & w & f & _ & _ & _ & _ & ->)]; [done|].
  unfold Transforms.spec_canonical, Transforms.spec_magnitude.
  change (2 ^ 53 - 1) with Transforms.MAX_SAFE_INTEGER.
  unfold Transforms.MAX_SAFE_INTEGER.
  destruct (_ <=? _)%nat; [|destruct mode; [done|..]];
    cbv zeta; case Z.ltb_spec; intros; try done; lia.
Qed.

(** X2 (transformToCanonical): white space around the input is ignored: for
    every string, padding it with ASCII white space on either side changes
    neither the result nor the error. *)
Theorem transformToCanonical_ignores_padding
    (pre s post : list ascii) (P : nat) (mode : Transforms.TransformMode) :
  all_spaces pre -> all_spaces post ->
  Transforms.transformToCanonical (string_of_list_ascii (pre ++ s ++ post)) P mode
  = Transforms.transformToCanonical (string_of_list_ascii s) P mode.
Proof.
  intros Hpre Hpost. apply transformToCanonical_trim.
  rewrite !list_ascii_of_string_of_list_ascii. by apply trim_padding.
Qed.

Lemma transformToCanonical_ignores_padding_witness :
  Transforms.transformToCanonical
    (string_of_list_ascii
       ([" "; "009"]%char ++ ["4"; "."; "9"; "9"]%char ++ ["010"; " "]%char))
    2 Transforms.strict
  = Transforms.transformToCanonical
      (string_of_list_ascii ["4"; "."; "9"; "9"]%char) 2 Transforms.strict.
Proof.
  apply (transformToCanonical_ignores_padding
           [" "; "009"]%char ["4"; "."; "9"; "9"]%char ["010"; " "]%char
           2 Transforms.strict);
    reflexivity.
Defined.

(** X3 (transformSafe, canTransform): a value that [strict] mode accepts is
    accepted with the same result in [round] and [truncate] mode. *)
Theorem strict_result_in_every_mode (s : string) (P : nat) (r : Z) :
  Transforms.transformSafe s P Transforms.strict = Some r ->
  Transforms.transformSafe s P Transforms.round = Some r
  /\ Transforms.transformSafe s P Transforms.truncate = Some r
  /\ Transforms.canTransform s P Transforms.round = true
  /\ Transforms.canTransform s P Transforms.truncate = true.
Proof.
  unfold Transforms.transformSafe, Transforms.canTransform.
  destruct (transformToCanonical_cases s P)
    as [[_ E]|(sg & w & f & _ & _ & _ & _ & E)]; rewrite !E; [done|].
  unfold Transforms.spec_canonical, Transforms.spec_magnitude.
  destruct (_ <=? _)%nat; [|done].
  cbv zeta. case Z.ltb_spec; intros; [done|]. simplify_eq. done.
Qed.

Lemma strict_result_in_every_mode_witness :
  Transforms.transformSafe "4.99" 2 Transforms.round = Some 499
  /\ Transforms.transformSafe "4.99" 2 Transforms.truncate = Some 499
  /\ Transforms.canTransform "4.99" 2 Transforms.round = true
  /\ Transforms.canTransform "4.99" 2 Transforms.truncate = true.
Proof.
  apply (strict_result_in_every_mode "4.99" 2 499). reflexivity.
Defined.

(** X4 (transformToCanonical): the sign is handled symmetrically: a leading
    minus negates the result of the unsigned numeral and keeps its error, and
    a leading plus changes nothing. *)
Theorem transformToCanonical_sign
    (w f : list ascii) (P : nat) (mode : Transforms.TransformMode) :
  all_digits w -> w <> [] -> all_digits f ->
  Transforms.transformToCanonical (Transforms.numeral Transforms.Minus w f) P mode
  = negated (Transforms.transformToCanonical
               (Transforms.numeral Transforms.NoSign w f) P mode)
  /\ Transforms.transformToCanonical (Transforms.numeral Transforms.Plus w f) P mode
     = Transforms.transformToCanonical
         (Transforms.numeral Transforms.NoSign w f) P mode.
Proof.
  intros Hw Hne Hf. rewrite !transformToCanonical_numeral by done.
  split; [|done].
  unfold Transforms.spec_canonical.
  destruct (Transforms.spec_magnitude _ _ _ _) as [m|]; [|done].
  cbn [Transforms.is_minus]. cbv zeta. rewrite Z.abs_opp.
  by destruct (_ <? _).
Qed.

Lemma transformToCanonical_sign_witness :
  Transforms.transformToCanonical "-1.005" 2 Transforms.round = Returned (-101).
Proof.
  refine (eq_trans
            (proj1 (transformToCanonical_sign
                      ["1"]%char ["0"; "0"; "5"]%char 2 Transforms.round _ _ _)) _);
    [reflexivity|discriminate|reflexivity|reflexivity].
Defined.

(** X5 (transformToCanonical): the returned integer, read as a count of
    10^-P units, is exact in [strict] mode, the floor of the magnitude in
    [truncate] mode and the nearest integer, halves upwards in magnitude, in
    [round] mode; its sign is the numeral's. *)
Theorem transformToCanonical_accuracy
    (sg : Transforms.Sign) (w f : list ascii) (P : nat)
    (mode : Transforms.TransformMode) (r : Z) :
  all_digits w -> w <> [] -> all_digits f ->
  Transforms.transformToCanonical (Transforms.numeral sg w f) P mode = Returned r ->
  let N := Transforms.digits_value (w ++ f) in
  let L := Z.of_nat (length f) in
  let m := Z.abs r in
  r = (if Transforms.is_minus sg then - m else m)
  /\ match mode with
     | Transforms.strict => m * 10 ^ L = N * 10 ^ Z.of_nat P
     | Transforms.truncate =>
         m * 10 ^ L <= N * 10 ^ Z.of_nat P < (m + 1) * 10 ^ L
     | Transforms.round =>
         (2 * m - 1) * 10 ^ L <= 2 * N * 10 ^ Z.of_nat P < (2 * m + 1) * 10 ^ L
     end.
Proof.
  intros Hw Hne Hf. rewrite transformToCanonical_numeral by done.
  assert (HN : 0 <= Transforms.digits_value (w ++ f)).
  { apply digits_value_bounds, all_digits_app. done. }
  revert HN. generalize (Transforms.digits_value (w ++ f)). intros N HN.
  unfold Transforms.spec_canonical, Transforms.spec_magnitude.
  pose proof (pow10_pos (length f)) as HL.
  destruct (Nat.leb_spec (length f) P) as [Hle|Hgt].
  - pose proof (pow10_pos (P - length f)) as HD.
    assert (HP : 10 ^ Z.of_nat P
                 = 10 ^ Z.of_nat (P - length f) * 10 ^ Z.of_nat (length f)).
    { rewrite <- pow10_split. f_equal. lia. }
    cbv zeta. case Z.ltb_spec; [done|]. intros _ [= <-].
    rewrite HP.
    set (D := 10 ^ Z.of_nat (P - length f)) in *.
    set (T := 10 ^ Z.of_nat (length f)) in *.
    assert (Hm : 0 <= N * D) by nia.
    destruct (Transforms.is_minus sg).
    + rewrite Z.abs_opp, Z.abs_eq by done. split; [done|].
      destruct mode; nia.
    + rewrite Z.abs_eq by done. split; [done|].
      destruct mode; nia.
  - pose proof (pow10_pos (length f - P)) as HD.
    pose proof (pow10_pos P) as HP.
    assert (HT : 10 ^ Z.of_nat (length f)
                 = 10 ^ Z.of_nat (length f - P) * 10 ^ Z.of_nat P).
    { rewrite <- pow10_split. f_equal. lia. }
    rewrite HT.
    set (D := 10 ^ Z.of_nat (length f - P)) in *.
    set (T := 10 ^ Z.of_nat P) in *.
    destruct mode; [done|..]; cbv zeta.
    + case Z.ltb_spec; [done|]. intros _ [= <-].
      set (q := (2 * N + D) / (2 * D)).
      assert (Hq : 2 * D * q <= 2 * N + D < 2 * D * (q + 1)).
      { split; [apply Z.mul_div_le; lia|].
        replace (q + 1) with (Z.succ q) by lia.
        apply Z.mul_succ_div_gt. lia. }
      assert (Hq0 : 0 <= q) by (apply Z.div_pos; lia).
      destruct (Transforms.is_minus sg).
      * rewrite Z.abs_opp, Z.abs_eq by done. split; [done|]. nia.
      * rewrite Z.abs_eq by done. split; [done|]. nia.
    + case Z.ltb_spec; [done|]. intros _ [= <-].
      set (q := N / D).
      assert (Hq : D * q <= N < D * (q + 1)).
      { split; [apply Z.mul_div_le; lia|].
        replace (q + 1) with (Z.succ q) by lia.
        apply Z.mul_succ_div_gt. lia. }
      assert (Hq0 : 0 <= q) by (apply Z.div_pos; lia).
      destruct (Transforms.is_minus sg).
      * rewrite Z.abs_opp, Z.abs_eq by done. split; [done|]. nia.
      * rewrite Z.abs_eq by done. split; [done|]. nia.
Qed.

Lemma transformToCanonical_accuracy_witness :
  (2 * 101 - 1) * 10 ^ 3 <= 2 * 1005 * 10 ^ 2 < (2 * 101 + 1) * 10 ^ 3.
Proof.
  refine (proj2 (transformToCanonical_accuracy
                   Transforms.NoSign ["1"]%char ["0"; "0"; "5"]%char 2
                   Transforms.round 101 _ _ _ _));
    [reflexivity|discriminate|reflexivity|reflexivity].
Defined.

(** X6 (transformToCanonical): zeros that do not change the written value do
    not change the result: a leading zero of the whole part and a trailing
    zero of the fraction are ignored in [round] and [truncate] mode, and in
    [strict] mode as long as the longer fraction still fits the precision. *)
Theorem transformToCanonical_zero_padding
    (sg : Transforms.Sign) (w f : list ascii) (P : nat)
    (mode : Transforms.TransformMode) :
  all_digits w -> w <> [] -> all_digits f ->
  (mode = Transforms.strict -> (length f < P)%nat) ->
  Transforms.transformToCanonical
    (Transforms.numeral sg ("0"%char :: w) (f ++ ["0"%char])) P mode
  = Transforms.transformToCanonical (Transforms.numeral sg w f) P mode.
Proof.
  intros Hw Hne Hf Hstrict.
  assert (Hw0 : all_digits ("0"%char :: w)) by (apply all_digits_cons; done).
  assert (Hf0 : all_digits (f ++ ["0"%char])) by (apply all_digits_app; done).
  rewrite !transformToCanonical_numeral by done.
  assert (HN : 0 <= Transforms.digits_value (w ++ f)).
  { apply digits_value_bounds, all_digits_app. done. }
  assert (E : Transforms.digits_value (("0"%char :: w) ++ f ++ ["0"%char])
              = 10 * Transforms.digits_value (w ++ f)).
  { rewrite <- app_comm_cons, digits_value_cons, app_assoc, digits_value_app.
    change (Transforms.digit_value "0") with 0.
    change (Transforms.digits_value ["0"%char]) with 0.
    change (10 ^ Z.of_nat (length ["0"%char])) with 10. lia. }
  rewrite E, length_app. change (length ["0"%char]) with 1%nat.
  revert HN. generalize (Transforms.digits_value (w ++ f)). intros N HN.
  unfold Transforms.spec_canonical, Transforms.spec_magnitude.
  destruct (Nat.leb_spec (length f + 1) P) as [H1|H1],
    (Nat.leb_spec (length f) P) as [H2|H2]; try lia.
  - replace (P - length f)%nat with (S (P - (length f + 1))) by lia.
    rewrite Nat2Z.inj_succ, Z.pow_succ_r by lia.
    replace (10 * N * 10 ^ Z.of_nat (P - (length f + 1)))
      with (N * (10 * 10 ^ Z.of_nat (P - (length f + 1)))) by lia.
    done.
  - assert (length f = P) as HP by lia.
    destruct mode; [specialize (Hstrict eq_refl); lia|..]; cbv zeta.
    + replace (length f + 1 - P)%nat with 1%nat by lia.
      replace (P - length f)%nat with 0%nat by lia.
      change (10 ^ Z.of_nat 1) with 10. change (10 ^ Z.of_nat 0) with 1.
      replace ((2 * (10 * N) + 10) / (2 * 10)) with (N * 1).
      { done. }
      rewrite Z.mul_1_r. apply (Z.div_unique_pos _ _ N 10); lia.
    + replace (length f + 1 - P)%nat with 1%nat by lia.
      replace (P - length f)%nat with 0%nat by lia.
      change (10 ^ Z.of_nat 1) with 10. change (10 ^ Z.of_nat 0) with 1.
      replace (10 * N / 10) with (N * 1); [done|].
      rewrite Z.mul_1_r. symmetry. rewrite Z.mul_comm. apply Z.div_mul. lia.
  - replace (length f + 1 - P)%nat with (S (length f - P)) by lia.
    rewrite Nat2Z.inj_succ, Z.pow_succ_r by lia.
    pose proof (pow10_pos (length f - P)) as HD.
    set (D := 10 ^ Z.of_nat (length f - P)) in *.
    destruct mode; [done|..]; cbv zeta.
    + replace (2 * (10 * N) + 10 * D) with (10 * (2 * N + D)) by lia.
      replace (2 * (10 * D)) with (10 * (2 * D)) by lia.
      rewrite Z.div_mul_cancel_l by lia. done.
    + rewrite Z.div_mul_cancel_l by lia. done.
Qed.

Lemma transformToCanonical_zero_padding_witness :
  Transforms.transformToCanonical "01.50" 2 Transforms.strict
  = Transforms.transformToCanonical "1.5" 2 Transforms.strict.
Proof.
  apply (transformToCanonical_zero_padding
           Transforms.NoSign ["1"]%char ["5"]%char 2 Transforms.strict);
    [reflexivity|discriminate|reflexivity|simpl; lia].
Defined.

(** * Further properties of the rate limiter *)

Section LimiterMore.

(** Increments inside a live window add to its count and keep its end. *)
Lemma increments_live (l : InMemoryRateLimiter) action passportId lim c R times :
  limits l !! action = Some lim ->
  buckets l !! getBucketKey action passportId = Some {| count := c; resetAt := R |} ->
  Forall (fun now => now < R) times ->
  limits (increments l action passportId times) = limits l
  /\ buckets (increments l action passportId times) !! getBucketKey action passportId
     = Some {| count := c + Z.of_nat (length times); resetAt := R |}.
Proof.
  intros Hlim Hb Hts. revert l c Hlim Hb.
  induction Hts as [|now times Hnow _ IH]; intros l c Hlim Hb.
  - simpl. rewrite Z.add_0_r. done.
  - unfold increments. simpl fold_left. fold (increments (increment l action passportId now)
                                               action passportId times).
    pose proof (increment_spec l action passportId now) as Hi. rewrite Hlim in Hi.
    destruct Hi as [Hl Hbk]. specialize (Hbk (getBucketKey action passportId)).
    rewrite decide_True, Hb in Hbk by done. simpl in Hbk.
    destruct (Z.leb_spec R now); [lia|].
    destruct (IH (increment l action passportId now) (c + 1)) as [IH1 IH2].
    { by rewrite Hl. }
    { exact Hbk. }
    split; [by rewrite IH1|]. rewrite IH2. f_equal. f_equal.
    rewrite length_cons. lia.
Qed.

End LimiterMore.

(** X7 (InMemoryRateLimiter.increment, check): the limiter counts in fixed
    windows: an increment that finds no live bucket opens a window of
    [windowMs], every later increment before its end adds one to the count,
    and [check] then answers [count < max] inside the window and [true] from
    its end on. *)
Theorem fixed_window_counting
    (l : InMemoryRateLimiter) (action : string) (passportId : option string)
    (lim : RateLimit) (t0 : Z) (later : list Z) (t : Z) :
  limits l !! action = Some lim ->
  window_open l action passportId t0 ->
  Forall (fun now => now < t0 + windowMs lim) later ->
  let l' := increments l action passportId (t0 :: later) in
  buckets l' !! getBucketKey action passportId
  = Some {| count := Z.of_nat (S (length later)); resetAt := t0 + windowMs lim |}
  /\ check l' action passportId t
     = (t0 + windowMs lim <=? t) || (Z.of_nat (S (length later)) <? max lim).
Proof.
  intros Hlim Hopen Hlater l'.
  pose proof (increment_spec l action passportId t0) as Hi. rewrite Hlim in Hi.
  destruct Hi as [Hl Hbk]. specialize (Hbk (getBucketKey action passportId)).
  rewrite decide_True in Hbk by done.
  assert (Hfirst : buckets (increment l action passportId t0)
                     !! getBucketKey action passportId
                   = Some {| count := 1; resetAt := t0 + windowMs lim |}).
  { rewrite Hbk. unfold window_open in Hopen.
    destruct (buckets l !! getBucketKey action passportId) as [b|]; [|done].
    destruct (Z.leb_spec (resetAt b) t0); [done|lia]. }
  destruct (increments_live (increment l action passportId t0) action passportId
              lim 1 (t0 + windowMs lim) later) as [H1 H2]; [by rewrite Hl|done|done|].
  assert (Hb : buckets l' !! getBucketKey action passportId
               = Some {| count := Z.of_nat (S (length later));
                         resetAt := t0 + windowMs lim |}).
  { subst l'. unfold increments in *. simpl fold_left. rewrite H2.
    f_equal. f_equal. lia. }
  split; [exact Hb|].
  unfold check. subst l'. unfold increments in *. simpl fold_left in *.
  rewrite H1, Hl, Hlim. cbv zeta. rewrite Hb. simpl.
  by destruct (_ <=? _).
Qed.

Lemma fixed_window_counting_witness :
  check (increments (setLimit "search" 2 60000 new_InMemoryRateLimiter)
           "search" (Some "passport-1") [1000; 1500]) "search" (Some "passport-1") 2000
  = false.
Proof.
  refine (eq_trans
            (proj2 (fixed_window_counting
                      (setLimit "search" 2 60000 new_InMemoryRateLimiter)
                      "search" (Some "passport-1")
                      {| max := 2; windowMs := 60000 |} 1000 [1500] 2000 _ _ _)) _).
  - vm_compute. reflexivity.
  - vm_compute. exact I.
  - constructor; [simpl; lia|constructor].
  - reflexivity.
Defined.

(** X8 (InMemoryRateLimiter.increment, reset, check): buckets are separate:
    counting or resetting one (action, passport) pair never changes what
    [check] answers for a pair with another bucket key; and after [reset] the
    pair itself is admitted again whatever its count was, the configured
    limits are kept, and the next increment opens a new window that starts
    at one. *)
Theorem limiter_isolation_and_reset
    (l : InMemoryRateLimiter) (action action' : string)
    (passportId passportId' : option string) (now t : Z) :
  (getBucketKey action passportId <> getBucketKey action' passportId' ->
   check (increment l action passportId now) action' passportId' t
   = check l action' passportId' t
   /\ check (reset l action passportId) action' passportId' t
      = check l action' passportId' t)
  /\ check (reset l action passportId) action passportId t = true
  /\ limits (reset l action passportId) = limits l
  /\ forall lim,
       limits l !! action = Some lim ->
       buckets (increment (reset l action passportId) action passportId now)
         !! getBucketKey action passportId
       = Some {| count := 1; resetAt := now + windowMs lim |}.
Proof.
  split; [|split; [|split; [done|]]].
  - intros Hne. split.
    + pose proof (increment_spec l action passportId now) as Hi.
      destruct (limits l !! action) as [lim|]; [|by rewrite Hi].
      destruct Hi as [Hl Hb]. unfold check. rewrite Hl.
      destruct (limits l !! action'); [|done]. cbv zeta.
      rewrite Hb, decide_False by done. done.
    + unfold check, reset. simpl.
      destruct (limits l !! action'); [|done]. cbv zeta.
      rewrite lookup_delete_ne by done. done.
  - unfold check, reset. simpl. destruct (limits l !! action); [|done].
    cbv zeta. by rewrite lookup_delete_eq.
  - intros lim Hlim.
    pose proof (increment_spec (reset l action passportId) action passportId now) as Hi.
    change (limits (reset l action passportId)) with (limits l) in Hi.
    rewrite Hlim in Hi. destruct Hi as [_ Hb]. rewrite Hb, decide_True by done.
    unfold reset. simpl. by rewrite lookup_delete_eq.
Qed.

Lemma limiter_isolation_and_reset_witness :
  check (increment (setLimit "book" 1 60000 (setLimit "search" 1 60000 new_InMemoryRateLimiter))
           "search" (Some "passport-1") 1000) "book" (Some "passport-1") 1000
  = true
  /\ buckets (increment (reset (increment (setLimit "search" 1 60000 new_InMemoryRateLimiter)
                                  "search" None 1000) "search" None)
                "search" None 2000) !! "search"
     = Some {| count := 1; resetAt := 62000 |}.
Proof.
  split.
  - refine (eq_trans
              (proj1 (proj1 (limiter_isolation_and_reset
                               (setLimit "book" 1 60000
                                  (setLimit "search" 1 60000 new_InMemoryRateLimiter))
                               "search" "book" (Some "passport-1") (Some "passport-1")
                               1000 1000) _)) _).
    + vm_compute. discriminate.
    + vm_compute. reflexivity.
  - apply (proj2 (proj2 (proj2 (limiter_isolation_and_reset
                                  (increment (setLimit "search" 1 60000
                                                new_InMemoryRateLimiter)
                                     "search" None 1000)
                                  "search" "search" None None 2000 0)))
             {| max := 1; windowMs := 60000 |}).
    vm_compute. reflexivity.
Defined.

(** * Further properties of constraint validation *)

Section ValidationMore.
Context `{Platform}.
Variable R : gmap string ConstraintTypeDefinition.

Lemma validate_entries_spec (context : gmap string JSValue) entries :
  (forall k v, context !! k = Some v -> convertible v) ->
  exists r,
    validate_entries R context entries = Returned r
    /\ (valid r = true ->
        message r = None
        /\ forall key p v,
             (key, JNum p) ∈ entries -> is_limit R key = true ->
             context !! key = Some v ->
             exists c, context_number v = Returned (Some c) /\ c <= p)
    /\ (valid r = false ->
        exists key p v,
          (key, JNum p) ∈ entries /\ is_limit R key = true
          /\ context !! key = Some v
          /\ ((context_number v = Returned None
               /\ message r = Some (InvalidContextValue key))
              \/ exists c, context_number v = Returned (Some c) /\ p < c
                           /\ message r = Some (ConstraintExceeded key c p))).
Proof.
  intros Hctx. induction entries as [|[key pv] rest IH].
  { eexists. split; [done|]. split; [|done]. intros _. split; [done|].
    intros ??? []%elem_of_nil. }
  assert (Hcase :
    (validate_entry R context key pv = Returned None
     /\ forall p v, pv = JNum p -> is_limit R key = true ->
                    context !! key = Some v ->
                    exists c, context_number v = Returned (Some c) /\ c <= p)
    \/ (exists res p v,
          validate_entry R context key pv = Returned (Some res)
          /\ valid res = false /\ pv = JNum p /\ is_limit R key = true
          /\ context !! key = Some v
          /\ ((context_number v = Returned None
               /\ message res = Some (InvalidContextValue key))
              \/ exists c, context_number v = Returned (Some c) /\ p < c
                           /\ message res = Some (ConstraintExceeded key c p)))).
  { unfold validate_entry.
    destruct (context !! key) as [cv|] eqn:Hcv; [|left; split; [done|congruence]].
    destruct (is_limit R key) eqn:Hlim; [|left; split; [done|congruence]].
    destruct pv as [|b|p|s| |o]; try (left; split; [done|congruence]).
    cbn [typeof_number]. fold (context_number cv).
    assert (exists n', context_number cv = Returned n') as [n' Hn'].
    { unfold context_number. destruct (typeof_number cv); [eauto|].
      exact (Hctx key cv Hcv). }
    rewrite Hn'. simpl. destruct n' as [c|].
    - destruct (Z.ltb_spec p c) as [Hlt|Hle].
      + right. eexists _, p, cv. split; [done|]. do 4 (split; [done|]).
        right. exists c. done.
      + left. split; [done|]. intros p' v [= <-] _ [= <-]. exists c. done.
    - right. eexists _, p, cv. split; [done|]. do 4 (split; [done|]).
      left. done. }
  destruct Hcase as [[E Hthis]|(res & p & v & E & Hres & -> & Hlim & Hcv & Hviol)].
  - destruct IH as (r & Hr & Hok & Hbad).
    exists r. simpl. rewrite E. simpl. split; [exact Hr|]. split.
    + intros Hv. destruct (Hok Hv) as [Hm Hall]. split; [done|].
      intros k p v [[= -> <-]|Hin]%elem_of_cons; [by apply Hthis|by apply Hall].
    + intros Hv. destruct (Hbad Hv) as (k & p & v & Hin & Hrest).
      exists k, p, v. split; [by apply list_elem_of_further|done].
  - exists res. simpl. rewrite E. simpl. split; [done|]. split; [congruence|].
    intros _. exists key, p, v. split; [apply list_elem_of_here|done].
Qed.

End ValidationMore.

(** X9 (validateConstraints): on a context whose values [Number] can
    convert, the validation returns; it answers valid exactly when every numeric
    limit of the passport is respected by the context value of the same key,
    and an invalid answer carries a message about a limit that is broken. *)
Theorem validateConstraints_sound_complete `{Platform}
    (R : gmap string ConstraintTypeDefinition)
    (passportConstraints context : gmap string JSValue)
    (catalogConstraints : option (gmap string JSValue)) :
  (forall k v, context !! k = Some v -> convertible v) ->
  exists r,
    validateConstraints R passportConstraints context catalogConstraints = Returned r
    /\ (valid r = true <-> within_limits R passportConstraints context)
    /\ (valid r = true -> message r = None)
    /\ (valid r = false -> reports_violation R passportConstraints context r).
Proof.
  intros Hctx.
  destruct (validate_entries_spec R context (map_to_list passportConstraints) Hctx)
    as (r & Hr & Hok & Hbad).
  exists r. split; [exact Hr|].
  assert (Hrep : valid r = false -> reports_violation R passportConstraints context r).
  { intros Hv. destruct (Hbad Hv) as (k & p & v & Hin%elem_of_map_to_list & Hrest).
    exists k, p, v. tauto. }
  split; [|split; [by intros [? _]%Hok|exact Hrep]].
  split.
  - intros [_ Hall]%Hok k p v Hlim Hp Hv.
    apply (Hall k p v); [by apply elem_of_map_to_list|done..].
  - intros Hwithin. destruct (valid r) eqn:Hv; [done|].
    destruct (Hrep eq_refl) as (k & p & v & Hlim & Hp & Hcv & Hviol).
    destruct (Hwithin k p v Hlim Hp Hcv) as (c & Hc & Hle).
    destruct Hviol as [[Hnan _]|(c' & Hc' & Hlt & _)]; [congruence|].
    rewrite Hc in Hc'. simplify_eq. lia.
Qed.

Lemma validateConstraints_sound_complete_witness :
  exists r,
    @validateConstraints Fixtures.accepting_platform V1_0.CONSTRAINT_TYPES
      {[ "core:cost:max" := JNum 1000 ]} {[ "core:cost:max" := JStr "500" ]} None
    = Returned r
    /\ (valid r = true
        <-> @within_limits Fixtures.accepting_platform V1_0.CONSTRAINT_TYPES
              {[ "core:cost:max" := JNum 1000 ]} {[ "core:cost:max" := JStr "500" ]})
    /\ (valid r = true -> message r = None)
    /\ (valid r = false
        -> @reports_violation Fixtures.accepting_platform V1_0.CONSTRAINT_TYPES
             {[ "core:cost:max" := JNum 1000 ]} {[ "core:cost:max" := JStr "500" ]} r).
Proof.
  apply (@validateConstraints_sound_complete Fixtures.accepting_platform
           V1_0.CONSTRAINT_TYPES
           {[ "core:cost:max" := JNum 1000 ]} {[ "core:cost:max" := JStr "500" ]} None).
  intros k v [_ <-]%lookup_singleton_Some. eexists. reflexivity.
Defined.

(** * What a permit stands for *)

Section PermitFacts.
Context `{Platform}.
Variable R : gmap string ConstraintTypeDefinition.




End PermitFacts.





(** * The rate limit over repeated calls *)

Section QuotaFacts.
Context `{Platform}.

(** For a call that passes every other check, the rate limiter alone
    decides: it is asked once, and counts only when it admits. *)
Lemma rate_step (params : V1_0.VerifyLocallyParams) clock :
  permitted_without_limits params clock ->
  exists p,
    V1_0.passport params = Some p
    /\ forall l,
         let post := V1_0.verifyLocally (with_rateLimiter params l) clock in
         if check l (V1_0.action params) (Some (passport_id p)) (now_check clock)
         then is_permit_1_0 post.1 = true
              /\ post.2 = increment l (V1_0.action params) (Some (passport_id p))
                            (now_increment clock)
         else denied_with_1_0 post.1 V1_0.RATE_LIMIT_EXCEEDED /\ post.2 = l.
Proof.
  unfold permitted_without_limits, V1_0.verifyLocally, with_rateLimiter.
  cbv zeta. simpl. intros Hp.
  destruct (V1_0.passport params) as [p|] eqn:Hpass; [|done].
  exists p. split; [done|]. intros l.
  destruct (lookup_issuerKey _ _) as [issuerKey|]; [|done].
  destruct (negb (V1_0.skipSignatureVerification params)
            && negb (verifySignatureSync p issuerKey)); [done|].
  destruct (date_lt _ _); [done|].
  destruct (bool_decide _); [done|].
  destruct (resolveCatalogVersion _ _) as [cat|]; [|done].
  destruct (js_get (permissionsByKey cat) _) as [entry|]; [|done].
  destruct (js_get (claimsByKey p) _) as [[perm|]|]; [|done..].
  destruct (validateConstraints _ _ _ _) as [r|e]; [|done].
  destruct (valid r); [|done]. simpl.
  destruct (check l _ _ _); simpl; [done|].
  split; [|done]. eexists. split; [done|]. done.
Qed.

Lemma with_rateLimiter_twice (params : V1_0.VerifyLocallyParams) l l' :
  with_rateLimiter (with_rateLimiter params l) l' = with_rateLimiter params l'.
Proof. done. Qed.

Lemma permitted_without_limits_frame (params : V1_0.VerifyLocallyParams) l clock :
  permitted_without_limits (with_rateLimiter params l) clock
  <-> permitted_without_limits params clock.
Proof. unfold permitted_without_limits. by rewrite with_rateLimiter_twice. Qed.

(** Inside a live window that holds [c] calls, call number [i] from now is
    permitted exactly when [c + i] is below the limit, and is otherwise
    refused for the rate limit. *)
Lemma calls_in_live_window (params : V1_0.VerifyLocallyParams) p lim R clocks :
  V1_0.passport params = Some p ->
  Forall (fun clock => permitted_without_limits params clock
                       /\ now_check clock < R /\ now_increment clock < R) clocks ->
  forall l c,
    limits l !! V1_0.action params = Some lim ->
    buckets l !! getBucketKey (V1_0.action params) (Some (passport_id p))
    = Some {| count := c; resetAt := R |} ->
    forall (i : nat) r,
      calls_1_0 (with_rateLimiter params l) clocks !! i = Some r ->
      if c + Z.of_nat i <? max lim
      then is_permit_1_0 r = true
      else denied_with_1_0 r V1_0.RATE_LIMIT_EXCEEDED.
Proof.
  intros Hpass Hclocks.
  induction Hclocks as [|clock rest (Hbase & Hchk & Hinc) _ IH]; intros l c Hlim Hb i r Hi.
  { done. }
  destruct (rate_step params clock Hbase) as (p' & Hp' & Hstep).
  assert (p' = p) as -> by congruence.
  specialize (Hstep l). cbv zeta in Hstep.
  assert (Hcheck : check l (V1_0.action params) (Some (passport_id p)) (now_check clock)
                   = (c <? max lim)).
  { unfold check. rewrite Hlim. cbv zeta. rewrite Hb. simpl.
    destruct (Z.leb_spec R (now_check clock)); [lia|done]. }
  rewrite Hcheck in Hstep.
  simpl in Hi. rewrite with_rateLimiter_twice in Hi.
  destruct i as [|i]; simpl in Hi.
  - simplify_eq. rewrite Z.add_0_r. destruct (c <? max lim); tauto.
  - destruct (Z.ltb_spec c (max lim)) as [Hlt|Hge]; destruct Hstep as [_ Hpost];
      rewrite Hpost in Hi.
    + pose proof (increment_spec l (V1_0.action params) (Some (passport_id p))
                    (now_increment clock)) as Hs.
      rewrite Hlim in Hs. destruct Hs as [Hl' Hb'].
      specialize (Hb' (getBucketKey (V1_0.action params) (Some (passport_id p)))).
      rewrite decide_True, Hb in Hb' by done. simpl in Hb'.
      destruct (Z.leb_spec R (now_increment clock)); [lia|].
      specialize (IH _ (c + 1) ltac:(by rewrite Hl') Hb' i r Hi).
      replace (c + Z.of_nat (S i)) with (c + 1 + Z.of_nat i) by lia. exact IH.
    + specialize (IH l c Hlim Hb i r Hi).
      destruct (Z.ltb_spec (c + Z.of_nat i) (max lim)); [lia|].
      destruct (Z.ltb_spec (c + Z.of_nat (S i)) (max lim)); [lia|]. exact IH.
Qed.

End QuotaFacts.

(** X12 (verifyLocally with InMemoryRateLimiter, 1.0.0): calls that pass
    every other check share one window of the rate limiter: the call that
    opens the window is always permitted, also under a limit of zero, and
    call number [i] after it, made before the window ends, is permitted
    exactly when [i] is below the limit and is refused with
    RATE_LIMIT_EXCEEDED otherwise. *)
Theorem quota_per_window `{Platform}
    (params : V1_0.VerifyLocallyParams) (p : Passport) (lim : RateLimit)
    (first : Clock) (later : list Clock) :
  V1_0.passport params = Some p ->
  limits (V1_0.rateLimiter params) !! V1_0.action params = Some lim ->
  window_open (V1_0.rateLimiter params) (V1_0.action params) (Some (passport_id p))
    (now_check first) ->
  now_check first <= now_increment first ->
  Forall (permitted_without_limits params) (first :: later) ->
  Forall (fun clock =>
            now_check clock < now_increment first + windowMs lim
            /\ now_increment clock < now_increment first + windowMs lim) later ->
  forall (i : nat) r,
    calls_1_0 params (first :: later) !! i = Some r ->
    if (i =? 0)%nat || (Z.of_nat i <? max lim)
    then is_permit_1_0 r = true
    else denied_with_1_0 r V1_0.RATE_LIMIT_EXCEEDED.
Proof.
  intros Hpass Hlim Hopen Horder Hbase Hlater i r Hi.
  apply Forall_cons in Hbase as [Hfirst Hbase].
  destruct (rate_step params first Hfirst) as (p' & Hp' & Hstep).
  assert (p' = p) as -> by congruence.
  specialize (Hstep (V1_0.rateLimiter params)). cbv zeta in Hstep.
  assert (Hsame : with_rateLimiter params (V1_0.rateLimiter params) = params)
    by (by destruct params).
  rewrite Hsame in Hstep.
  set (key := getBucketKey (V1_0.action params) (Some (passport_id p))) in *.
  assert (Hcheck : check (V1_0.rateLimiter params) (V1_0.action params)
                     (Some (passport_id p)) (now_check first) = true).
  { unfold check. rewrite Hlim. cbv zeta. fold key. unfold window_open in Hopen.
    fold key in Hopen.
    destruct (buckets (V1_0.rateLimiter params) !! key) as [b|]; [|done].
    destruct (Z.leb_spec (resetAt b) (now_check first)); [done|lia]. }
  rewrite Hcheck in Hstep. destruct Hstep as [Hpermit Hpost].
  simpl in Hi. destruct i as [|i]; simpl in Hi.
  { by simplify_eq. }
  rewrite Hpost in Hi.
  pose proof (increment_spec (V1_0.rateLimiter params) (V1_0.action params)
                (Some (passport_id p)) (now_increment first)) as Hs.
  rewrite Hlim in Hs. destruct Hs as [Hl' Hb']. specialize (Hb' key).
  rewrite decide_True in Hb' by done.
  assert (Hb1 : buckets (increment (V1_0.rateLimiter params) (V1_0.action params)
                           (Some (passport_id p)) (now_increment first)) !! key
                = Some {| count := 1; resetAt := now_increment first + windowMs lim |}).
  { rewrite Hb'. unfold window_open in Hopen. fold key in Hopen.
    destruct (buckets (V1_0.rateLimiter params) !! key) as [b|]; [|done].
    destruct (Z.leb_spec (resetAt b) (now_increment first)); [done|lia]. }
  assert (Hall : Forall (fun clock =>
                           permitted_without_limits params clock
                           /\ now_check clock < now_increment first + windowMs lim
                           /\ now_increment clock < now_increment first + windowMs lim)
                   later).
  { rewrite Forall_forall in *. intros clock Hin. split; [by apply Hbase|by apply Hlater]. }
  pose proof (calls_in_live_window params p lim _ later Hpass Hall _ 1
                ltac:(by rewrite Hl') Hb1 i r Hi) as Hres.
  replace (1 + Z.of_nat i) with (Z.of_nat (S i)) in Hres by lia.
  exact Hres.
Qed.

Lemma quota_per_window_witness :
  exists r,
    @calls_1_0 Fixtures.accepting_platform
      (mock_params_1_0 false ∅ "flights:search"
         (setLimit "flights:search" 2 60000 new_InMemoryRateLimiter))
      [Fixtures.at_instant 1000; Fixtures.at_instant 1001; Fixtures.at_instant 1002]
      !! 2%nat = Some r
    /\ denied_with_1_0 r V1_0.RATE_LIMIT_EXCEEDED.
Proof.
  eexists. split; [vm_compute; reflexivity|].
  refine (@quota_per_window Fixtures.accepting_platform
            (mock_params_1_0 false ∅ "flights:search"
               (setLimit "flights:search" 2 60000 new_InMemoryRateLimiter))
            (Fixtures.mock_passport "core:cost:max" 0 5000)
            {| max := 2; windowMs := 60000 |}
            (Fixtures.at_instant 1000)
            [Fixtures.at_instant 1001; Fixtures.at_instant 1002]
            _ _ _ _ _ _ 2%nat _ _).
  - reflexivity.
  - vm_compute. reflexivity.
  - vm_compute. exact I.
  - simpl. lia.
  - repeat (constructor; [vm_compute; reflexivity|]). constructor.
  - repeat (constructor; [simpl; lia|]). constructor.
  - vm_compute. reflexivity.
Defined.

(** * Further properties of the constraint merge *)

(** X13 (mergeConstraints): merging is the identity on a passport without
    constraints, and merging the same passport constraints a second time
    changes nothing. *)
Theorem mergeConstraints_idempotent
    (R : gmap string ConstraintTypeDefinition) (X Y : gmap string JSValue) :
  mergeConstraints R X ∅ = X
  /\ mergeConstraints R (mergeConstraints R X Y) Y = mergeConstraints R X Y.
Proof.
  split; [done|].
  apply map_eq. intros k.
  destruct (decide (k <> "__proto__" \/ is_Some (X !! k))) as [Hk|Hk].
  - assert (Hk' : k <> "__proto__" \/ is_Some (mergeConstraints R X Y !! k)).
    { destruct Hk as [?|[x Hx]]; [by left|right].
      rewrite mergeConstraints_lookup by (right; by rewrite Hx). rewrite Hx.
      destruct (Y !! k); [apply merged_value_is_Some|done]. }
    rewrite (mergeConstraints_lookup R (mergeConstraints R X Y) Y k Hk').
    rewrite (mergeConstraints_lookup R X Y k Hk).
    destruct (Y !! k) as [v|]; [|done].
    unfold merged_value.
    destruct (if is_limit R k then typeof_number v else None) as [y|] eqn:E.
    + destruct (X !! k ≫= typeof_number) as [x|]; simpl.
      * f_equal. f_equal. lia.
      * destruct (is_limit R k); [|done]. rewrite E. simpl.
        destruct v; simplify_eq/=. f_equal. f_equal. lia.
    + destruct (is_term R k); done.
  - assert (k = "__proto__") as -> by (destruct (decide (k = "__proto__")); tauto).
    assert (HX : X !! "__proto__" = None).
    { destruct (X !! "__proto__") eqn:E; [|done]. exfalso. apply Hk. right. eauto. }
    rewrite !mergeConstraints_lookup_proto; [done..|].
    by apply mergeConstraints_lookup_proto.
Qed.

(** X14 (verifyLocally 1.0.0, validateConstraints): the constraints that the
    catalog attaches to its permissions take no part in the decision: with
    any other catalog constraints the call returns the same permit or the
    same denial and leaves the rate limiter in the same state; they show in
    the effective constraints of a permit only. *)
Theorem catalog_limits_not_enforced_1_0 `{Platform}
    (params : V1_0.VerifyLocallyParams) (clock : Clock)
    (f : CatalogPermission -> gmap string JSValue) :
  let post := V1_0.verifyLocally params clock in
  let post' :=
    V1_0.verifyLocally (with_catalog params (relimit f (V1_0.catalog params))) clock in
  decision_of post'.1 = decision_of post.1 /\ post'.2 = post.2.
Proof.
  cbv zeta. unfold V1_0.verifyLocally, with_catalog. cbv zeta. simpl.
  destruct (V1_0.passport params) as [p|]; [|done].
  destruct (lookup_issuerKey _ _) as [issuerKey|]; [|done].
  destruct (negb (V1_0.skipSignatureVerification params)
            && negb (verifySignatureSync p issuerKey)); [done|].
  destruct (date_lt _ _); [done|].
  destruct (bool_decide _); [done|].
  assert (Hres : resolveCatalogVersion (relimit f (V1_0.catalog params)) (Some p)
                 = match resolveCatalogVersion (V1_0.catalog params) (Some p) with
                   | Resolved v => Resolved (relimit_version f v)
                   | Deprecated => Deprecated
                   end).
  { unfold resolveCatalogVersion. simpl.
    destruct (catalog_version_pin p) as [pins|]; [|done]. simpl.
    destruct (pins !! cat_gate_id (V1_0.catalog params)) as [pin|]; [|done].
    destruct (pin <? _); [done|]. rewrite lookup_fmap.
    by destruct (versions (V1_0.catalog params) !! pin). }
  rewrite Hres.
  destruct (resolveCatalogVersion (V1_0.catalog params) (Some p)) as [cat|]; [|done].
  simpl. rewrite js_get_fmap.
  destruct (js_get (permissionsByKey cat) (V1_0.action params)) as [[entry|]|];
    [| |done].
  all: simpl.
  all: destruct (js_get (claimsByKey p) (V1_0.action params)) as [[perm|]|]; [|done..].
  all: unfold validateConstraints.
  all: destruct (validate_entries _ _ _) as [r|e]; [|done].
  all: destruct (valid r); [|done]; simpl.
  all: destruct (check _ _ _ _); done.
Qed.

(** * The passport index *)

Section IndexFacts.

Lemma index_fold_lookup (permissions : list PassportPermission)
    (idx : gmap string PassportPermission) (key : string) :
  key <> "__proto__" ->
  fold_left (fun idx permission => js_set (permission_key permission) permission idx)
    permissions idx !! key
  = match last_permission key permissions with
    | Some permission => Some permission
    | None => idx !! key
    end.
Proof.
  intros Hkey. unfold last_permission. revert idx.
  induction permissions as [|perm rest IH]; intros idx; [done|].
  simpl fold_left. rewrite IH, filter_cons.
  destruct (decide (permission_key perm = key)) as [<-|Hne].
  - destruct (filter _ rest) as [|perm' rest'] eqn:E.
    + simpl. rewrite js_set_lookup_eq; [done|by left].
    + rewrite last_cons_cons.
      destruct (last (perm' :: rest')) eqn:El; [done|]. by apply last_None in El.
  - destruct (last _); [done|]. by rewrite js_set_lookup_ne.
Qed.

Lemma index_fold_proto (permissions : list PassportPermission)
    (idx : gmap string PassportPermission) :
  idx !! "__proto__" = None ->
  fold_left (fun idx permission => js_set (permission_key permission) permission idx)
    permissions idx !! "__proto__" = None.
Proof.
  revert idx. induction permissions as [|perm rest IH]; intros idx Hidx; [done|].
  simpl fold_left. apply IH.
  destruct (decide (permission_key perm = "__proto__")) as [->|Hne].
  - by rewrite js_set_proto.
  - by rewrite js_set_lookup_ne.
Qed.

Lemma index_lookup (passport : Passport) (key : string) :
  key <> "__proto__" ->
  claimsByKey (buildPassportIndex passport) !! key
  = last_permission key (permissions passport).
Proof.
  intros Hkey. unfold buildPassportIndex. simpl. rewrite index_fold_lookup by done.
  by destruct (last_permission _ _).
Qed.

(** The index never has [__proto__] as a key. *)
Lemma index_proto (passport : Passport) :
  claimsByKey (buildPassportIndex passport) !! "__proto__" = None.
Proof. unfold buildPassportIndex. simpl. by apply index_fold_proto. Qed.

Lemma index_sound (passport : Passport) (key : string) permission :
  claimsByKey (buildPassportIndex passport) !! key = Some permission ->
  permission_key permission = key /\ permission ∈ permissions passport.
Proof.
  destruct (decide (key = "__proto__")) as [->|Hkey].
  { by rewrite index_proto. }
  rewrite index_lookup by done. unfold last_permission. intros Hl.
  apply last_Some_elem_of in Hl. by apply list_elem_of_filter in Hl.
Qed.

Lemma last_permission_is_Some key (permissions : list PassportPermission) :
  is_Some (last_permission key permissions) <-> key ∈ permission_key <$> permissions.
Proof.
  unfold last_permission. split.
  - intros [perm Hl]. apply last_Some_elem_of in Hl.
    apply list_elem_of_filter in Hl as [<- Hin]. by apply list_elem_of_fmap_2.
  - intros (perm & -> & Hin)%list_elem_of_fmap. apply last_is_Some.
    intros Hnil.
    assert (Hf : perm ∈ filter (fun q => permission_key q = permission_key perm)
                          permissions).
    { by apply list_elem_of_filter. }
    rewrite Hnil in Hf. by apply elem_of_nil in Hf.
Qed.

End IndexFacts.

(** X15 (buildPassportIndex, getPermissionConstraints): the own properties
    of the index: under a key other than [__proto__] the index holds the
    last permission of the passport with that key, and it never holds the
    key [__proto__], which the assignment of the loop cannot store; what it
    holds under a key carries that key and is a permission of the passport;
    for a passport without a permission named [__proto__], the constraints
    read through the index are those of the last permission with the key;
    and indexing an indexed passport changes nothing. *)
Theorem buildPassportIndex_lookup (passport : Passport) (key : string) :
  (key <> "__proto__" ->
   claimsByKey (buildPassportIndex passport) !! key
   = last_permission key (permissions passport))
  /\ claimsByKey (buildPassportIndex passport) !! "__proto__" = None
  /\ (forall permission,
        claimsByKey (buildPassportIndex passport) !! key = Some permission ->
        permission_key permission = key /\ permission ∈ permissions passport)
  /\ ("__proto__" ∉ permission_key <$> permissions passport ->
      getPermissionConstraints (Some (buildPassportIndex passport)) key
      = constraints <$> last_permission key (permissions passport))
  /\ buildPassportIndex (buildPassportIndex passport) = buildPassportIndex passport.
Proof.
  split; [apply index_lookup|]. split; [apply index_proto|].
  split; [apply index_sound|]. split; [|done].
  intros Hplain. unfold getPermissionConstraints.
  destruct (decide (key = "__proto__")) as [->|Hkey].
  - rewrite index_proto.
    destruct (last_permission "__proto__" (permissions passport)) eqn:E; [|done].
    exfalso. apply Hplain. apply last_permission_is_Some. by rewrite E.
  - by rewrite index_lookup.
Qed.

(** X16 (hasPermission, verifyLocally): for a passport without a permission
    named [__proto__] and an action that is not a name inherited from
    [Object.prototype], [hasPermission] on the indexed passport says whether
    some permission of the passport has that key; on no passport it says no;
    and an action that [verifyLocally] permits is one that [hasPermission]
    accepts. *)
Theorem hasPermission_spec `{Platform} (passport : Passport) (action : string) :
  "__proto__" ∉ permission_key <$> permissions passport ->
  action ∉ Object_prototype_names ->
  (hasPermission (Some (buildPassportIndex passport)) action = true
   <-> action ∈ permission_key <$> permissions passport)
  /\ hasPermission None action = false
  /\ forall params clock,
       V1_0.action params = action ->
       is_permit_1_0 (V1_0.verifyLocally params clock).1 = true ->
       hasPermission (V1_0.passport params) action = true.
Proof.
  intros _ Hproto. split; [|split; [done|]].
  - unfold hasPermission, js_in.
    rewrite (bool_decide_eq_false_2 (action ∈ Object_prototype_names)) by done.
    rewrite orb_false_r, bool_decide_eq_true.
    assert (Hkey : action <> "__proto__").
    { intros ->. apply Hproto. apply (bool_decide_unpack _). vm_compute. exact I. }
    rewrite index_lookup by done. apply last_permission_is_Some.
  - intros params clock <-. unfold V1_0.verifyLocally. cbv zeta.
    destruct (V1_0.passport params) as [p|]; [|done].
    destruct (lookup_issuerKey _ _) as [issuerKey|]; [|done].
    destruct (negb (V1_0.skipSignatureVerification params)
              && negb (verifySignatureSync p issuerKey)); [done|].
    destruct (date_lt _ _); [done|].
    destruct (bool_decide _); [done|].
    destruct (resolveCatalogVersion _ _) as [cat|]; [|done].
    destruct (js_get (permissionsByKey cat) _) as [entry|]; [|done].
    destruct (js_get (claimsByKey p) _) as [[perm|]|] eqn:Hclaim; [|done..].
    apply js_get_Own in Hclaim.
    intros _. unfold hasPermission, js_in. by rewrite Hclaim.
Qed.

Lemma hasPermission_spec_witness :
  hasPermission (Some (Fixtures.mock_passport "core:cost:max" 0 5000)) "flights:book"
  = true.
Proof.
  apply (proj2 (proj1 (@hasPermission_spec Fixtures.accepting_platform
                         {| passport_id := "passport_test_123";
                            issuer_id := "issuer_trusted";
                            agent_id := "agent_test";
                            gate_id := "gate_test";
                            permissions := Fixtures.mock_permissions "core:cost:max";
                            passport_constraints := ∅;
                            signature := "00000000";
                            expires_at := Some 5000;
                            issued_at := Some 0;
                            catalog_version_pin := None;
                            claimsByKey := ∅ |}
                         "flights:book"
                         ltac:(apply (bool_decide_unpack _); vm_compute; exact I)
                         ltac:(apply (bool_decide_unpack _); vm_compute; exact I)))).
  apply (bool_decide_unpack _). vm_compute. exact I.
Defined.

(** * Billing aggregation *)

Section BillingFacts.
Import Commerce.

Lemma total_nonneg {A} (f : A -> Z) (l : list A) :
  Forall (fun x => 0 <= f x) l -> 0 <= total f l.
Proof. unfold total. induction 1; simpl; lia. Qed.

(** While the sum stays below [2^53], every addition of the loop is exact. *)
Lemma fold_left_total {A} (f : A -> Z) (l : list A) (acc : Z) :
  Forall (fun x => 0 <= f x) l -> 0 <= acc -> acc + total f l < 2 ^ 53 ->
  fold_left (fun acc x => Float64.add acc (f x)) l acc = acc + total f l.
Proof.
  intros Hl. revert acc. induction Hl as [|x l Hx Hl IH]; intros acc Hacc Hsum; simpl.
  { unfold total. simpl. lia. }
  pose proof (total_nonneg f l Hl) as Hnn.
  change (total f (x :: l)) with (f x + total f l) in *.
  rewrite add_exact by lia. rewrite IH by lia. lia.
Qed.

Lemma rounded_total_exact {A} (f : A -> Z) (l : list A) :
  Forall (fun x => 0 <= f x) l -> total f l < 2 ^ 53 ->
  rounded_total f l = total f l.
Proof.
  intros Hl Hsum. unfold rounded_total. by rewrite fold_left_total by (done || lia).
Qed.

Lemma fold_left_ids {A} (f : A -> string) (l : list A) (acc : list string) :
  fold_left (fun ids x => ids ++ [f x]) l acc = acc ++ (f <$> l).
Proof.
  revert acc. induction l as [|x l IH]; intros acc; simpl.
  - by rewrite app_nil_r.
  - rewrite IH, <- app_assoc. done.
Qed.

Lemma same_pair_spec agent gate att :
  same_pair agent gate att = true <-> for_pair agent gate att.
Proof.
  unfold same_pair, for_pair. rewrite andb_true_iff, !String.eqb_eq. done.
Qed.

(** The three outcomes of [aggregateAttestations]. *)
Lemma aggregateAttestations_outcome (l : list ConsumptionAttestation) ps pe :
  match aggregateAttestations l ps pe with
  | Returned None => l = []
  | Returned (Some b) =>
      (exists first rest,
         l = first :: rest
         /\ bp_agent_id b = agent_id (payload first)
         /\ bp_gate_id b = gate_id (payload first))
      /\ Forall (for_pair (bp_agent_id b) (bp_gate_id b)) l
      /\ period_start b = ps /\ period_end b = pe
      /\ total_calls b = rounded_total receipt_units l
      /\ total_cost_cents b = rounded_total receipt_cost l
      /\ total_platform_fee_cents b = rounded_total receipt_fee l
      /\ attestation_ids b = receipt_id <$> l
  | Thrown e =>
      e = Error "All attestations must be for the same agent/gate pair"
      /\ exists first rest att,
           l = first :: rest /\ att ∈ rest
           /\ ~ for_pair (agent_id (payload first)) (gate_id (payload first)) att
  end.
Proof.
  unfold aggregateAttestations. destruct l as [|first rest]; [done|].
  cbv zeta.
  destruct (forallb _ (first :: rest)) eqn:Hall; simpl negb; cbv iota.
  - split; [by exists first, rest|].
    cbn [bp_agent_id bp_gate_id period_start period_end total_calls total_cost_cents
         total_platform_fee_cents attestation_ids].
    split.
    { apply Forall_forall. intros att Hin. apply same_pair_spec.
      rewrite forallb_forall in Hall. apply Hall. by apply list_elem_of_In. }
    do 5 (split; [done|]).
    by rewrite (fold_left_ids receipt_id (first :: rest)).
  - split; [done|]. exists first, rest.
    simpl in Hall. apply andb_false_iff in Hall as [Hfirst|Hrest].
    { unfold same_pair in Hfirst. by rewrite !String.eqb_refl in Hfirst. }
    assert (Hex : Exists (fun att => same_pair (agent_id (payload first))
                                      (gate_id (payload first)) att = false) rest).
    { clear -Hrest. induction rest as [|a rest IH]; [done|]. simpl in Hrest.
      apply andb_false_iff in Hrest as [Ha|Hr]; [by left|right; by apply IH]. }
    apply Exists_exists in Hex as (att & Hin & Hatt).
    exists att. split; [done|]. split; [done|].
    intros Hpair%same_pair_spec. congruence.
Qed.

End BillingFacts.

Section BillingComposition.
Import Commerce.

Lemma total_app {A} (f : A -> Z) (l1 l2 : list A) :
  total f (l1 ++ l2) = total f l1 + total f l2.
Proof. unfold total. induction l1 as [|x l1 IH]; simpl; lia. Qed.

Lemma amounts_nonneg (l : list ConsumptionAttestation) :
  Forall (fun att => 0 <= receipt_units att /\ 0 <= receipt_cost att
                     /\ 0 <= receipt_fee att) l ->
  Forall (fun att => 0 <= receipt_units att) l
  /\ Forall (fun att => 0 <= receipt_cost att) l
  /\ Forall (fun att => 0 <= receipt_fee att) l.
Proof.
  rewrite !Forall_forall. intros Hl.
  split; [|split]; intros att Hin; by destruct (Hl att Hin) as (? & ? & ?).
Qed.

Lemma exact_totals_app (l1 l2 : list ConsumptionAttestation) :
  exact_totals (l1 ++ l2) -> exact_totals l1 /\ exact_totals l2.
Proof.
  unfold exact_totals. rewrite !total_app, Forall_app.
  intros ([H1 H2] & Hu & Hc & Hf).
  destruct (amounts_nonneg l1 H1) as (Hu1 & Hc1 & Hf1).
  destruct (amounts_nonneg l2 H2) as (Hu2 & Hc2 & Hf2).
  apply total_nonneg in Hu1, Hc1, Hf1, Hu2, Hc2, Hf2.
  split; (split; [done|lia]).
Qed.

(** The totals of receipts with exact sums. *)
Lemma exact_totals_rounded (l : list ConsumptionAttestation) :
  exact_totals l ->
  rounded_total receipt_units l = total receipt_units l
  /\ rounded_total receipt_cost l = total receipt_cost l
  /\ rounded_total receipt_fee l = total receipt_fee l.
Proof.
  intros (Hnn & Hu & Hc & Hf).
  destruct (amounts_nonneg l Hnn) as (Hu0 & Hc0 & Hf0).
  split; [|split]; by apply rounded_total_exact.
Qed.

Lemma aggregateAttestations_returns (l : list ConsumptionAttestation) ps pe first rest :
  l = first :: rest ->
  Forall (for_pair (agent_id (payload first)) (gate_id (payload first))) l ->
  aggregateAttestations l ps pe
  = Returned (Some {| period_start := ps;
                      period_end := pe;
                      bp_agent_id := agent_id (payload first);
                      bp_gate_id := gate_id (payload first);
                      total_calls := rounded_total receipt_units l;
                      total_cost_cents := rounded_total receipt_cost l;
                      total_platform_fee_cents := rounded_total receipt_fee l;
                      attestation_ids := receipt_id <$> l |}).
Proof.
  intros -> Hall. unfold aggregateAttestations. cbv zeta.
  assert (forallb (same_pair (agent_id (payload first)) (gate_id (payload first)))
            (first :: rest) = true) as ->.
  { apply forallb_forall. intros att Hin%list_elem_of_In. apply same_pair_spec.
    rewrite Forall_forall in Hall. by apply Hall. }
  simpl negb. cbv iota.
  by rewrite (fold_left_ids receipt_id (first :: rest)).
Qed.

End BillingComposition.

(** Billing periods compose, as long as the sums are exact: when two lists
    of receipts aggregate to periods of the same agent and gate, their
    concatenation aggregates to the period whose totals are the sums of the
    two periods' totals and whose ids are the two lists of ids, one after
    the other. *)
Lemma aggregateAttestations_concat
    (l1 l2 : list Commerce.ConsumptionAttestation) (ps pe : string)
    (b1 b2 : Commerce.BillingPeriod) :
  exact_totals (l1 ++ l2) ->
  Commerce.aggregateAttestations l1 ps pe = Returned (Some b1) ->
  Commerce.aggregateAttestations l2 ps pe = Returned (Some b2) ->
  Commerce.bp_agent_id b1 = Commerce.bp_agent_id b2 ->
  Commerce.bp_gate_id b1 = Commerce.bp_gate_id b2 ->
  Commerce.aggregateAttestations (l1 ++ l2) ps pe
  = Returned (Some {| Commerce.period_start := ps;
                      Commerce.period_end := pe;
                      Commerce.bp_agent_id := Commerce.bp_agent_id b1;
                      Commerce.bp_gate_id := Commerce.bp_gate_id b1;
                      Commerce.total_calls :=
                        Commerce.total_calls b1 + Commerce.total_calls b2;
                      Commerce.total_cost_cents :=
                        Commerce.total_cost_cents b1 + Commerce.total_cost_cents b2;
                      Commerce.total_platform_fee_cents :=
                        Commerce.total_platform_fee_cents b1
                        + Commerce.total_platform_fee_cents b2;
                      Commerce.attestation_ids :=
                        Commerce.attestation_ids b1 ++ Commerce.attestation_ids b2 |}).
Proof.
  intros Hexact E1 E2 Ha Hg.
  pose proof (aggregateAttestations_outcome l1 ps pe) as H1. rewrite E1 in H1.
  pose proof (aggregateAttestations_outcome l2 ps pe) as H2. rewrite E2 in H2.
  destruct H1 as ((first & rest & -> & Ha1 & Hg1) & Hall1 & _ & _ & -> & -> & -> & ->).
  destruct H2 as (_ & Hall2 & _ & _ & -> & -> & -> & ->).
  rewrite <- Ha, <- Hg in Hall2. rewrite Ha1, Hg1 in *.
  rewrite (aggregateAttestations_returns ((first :: rest) ++ l2) ps pe first (rest ++ l2));
    [|done|by apply Forall_app].
  destruct (exact_totals_app _ _ Hexact) as [Hx1 Hx2].
  destruct (exact_totals_rounded _ Hexact) as (-> & -> & ->).
  destruct (exact_totals_rounded _ Hx1) as (-> & -> & ->).
  destruct (exact_totals_rounded _ Hx2) as (-> & -> & ->).
  rewrite !total_app, fmap_app. done.
Qed.

(** X17 (aggregateAttestations): the aggregation returns null exactly for the
    empty list; it throws exactly when some receipt is for another agent or
    gate than the first one; otherwise it returns the billing period of the
    first receipt's pair with the receipts' ids in order, whose totals are
    the sums of the receipts' units, costs and platform fees when no amount
    is negative and the sums stay below 2^53; under the same condition
    billing periods compose: the concatenation of two lists that aggregate
    to periods of the same agent and gate aggregates to the period of the
    summed totals and the appended ids.  Beyond 2^53 the additions round:
    costs of 2^53 - 1 and 2 add up to 2^53. *)
Theorem aggregateAttestations_spec
    (l : list Commerce.ConsumptionAttestation) (ps pe : string) :
  (Commerce.aggregateAttestations l ps pe = Returned None <-> l = [])
  /\ ((exists e, Commerce.aggregateAttestations l ps pe = Thrown e)
      <-> exists first rest att,
            l = first :: rest /\ att ∈ rest
            /\ ~ for_pair (Commerce.agent_id (Commerce.payload first))
                   (Commerce.gate_id (Commerce.payload first)) att)
  /\ (forall b,
       Commerce.aggregateAttestations l ps pe = Returned (Some b) ->
       Forall (for_pair (Commerce.bp_agent_id b) (Commerce.bp_gate_id b)) l
       /\ Commerce.attestation_ids b = receipt_id <$> l
       /\ (exact_totals l ->
           Commerce.total_calls b = total receipt_units l
           /\ Commerce.total_cost_cents b = total receipt_cost l
           /\ Commerce.total_platform_fee_cents b = total receipt_fee l))
  /\ (forall l' b b',
       exact_totals (l ++ l') ->
       Commerce.aggregateAttestations l ps pe = Returned (Some b) ->
       Commerce.aggregateAttestations l' ps pe = Returned (Some b') ->
       Commerce.bp_agent_id b = Commerce.bp_agent_id b' ->
       Commerce.bp_gate_id b = Commerce.bp_gate_id b' ->
       Commerce.aggregateAttestations (l ++ l') ps pe
       = Returned (Some {| Commerce.period_start := ps;
                           Commerce.period_end := pe;
                           Commerce.bp_agent_id := Commerce.bp_agent_id b;
                           Commerce.bp_gate_id := Commerce.bp_gate_id b;
                           Commerce.total_calls :=
                             Commerce.total_calls b + Commerce.total_calls b';
                           Commerce.total_cost_cents :=
                             Commerce.total_cost_cents b + Commerce.total_cost_cents b';
                           Commerce.total_platform_fee_cents :=
                             Commerce.total_platform_fee_cents b
                             + Commerce.total_platform_fee_cents b';
                           Commerce.attestation_ids :=
                             Commerce.attestation_ids b ++ Commerce.attestation_ids b' |}))
  /\ exists b,
       Commerce.aggregateAttestations
         [mock_receipt "catt_1" "agent_a" "gate_g" 1 9007199254740991 0;
          mock_receipt "catt_2" "agent_a" "gate_g" 1 2 0] ps pe
       = Returned (Some b)
       /\ Commerce.total_cost_cents b = 9007199254740992.
Proof.
  pose proof (aggregateAttestations_outcome l ps pe) as H.
  split; [|split; [|split; [|split;
    [intros l' b b'; apply aggregateAttestations_concat
    |eexists; split; [reflexivity|vm_compute; reflexivity]]]]].
  - split; [intros E; by rewrite E in H|]. by intros ->.
  - split.
    + intros [e E]. rewrite E in H. tauto.
    + intros (first & rest & att & -> & Hin & Hpair).
      destruct (Commerce.aggregateAttestations (first :: rest) ps pe) as [[b|]|e];
        [|done|eauto].
      destruct H as ((first' & rest' & [= <- <-] & Ha & Hg) & Hall & _).
      rewrite Ha, Hg in Hall. apply Forall_cons in Hall as [_ Hall].
      rewrite Forall_forall in Hall. destruct Hpair. by apply Hall.
  - intros b E. rewrite E in H.
    destruct H as (_ & Hall & _ & _ & Hu & Hc & Hf & Hids).
    split; [done|]. split; [done|]. intros Hexact.
    destruct (exact_totals_rounded _ Hexact) as (Hu' & Hc' & Hf'). by rewrite Hu, Hc, Hf.
Qed.

Lemma aggregateAttestations_spec_witness :
  Commerce.aggregateAttestations
    ([mock_receipt "catt_1" "agent_a" "gate_g" 1 10 1]
     ++ [mock_receipt "catt_2" "agent_a" "gate_g" 2 20 1]) "from" "to"
  = Returned (Some {| Commerce.period_start := "from";
                      Commerce.period_end := "to";
                      Commerce.bp_agent_id := "agent_a";
                      Commerce.bp_gate_id := "gate_g";
                      Commerce.total_calls := 1 + 2;
                      Commerce.total_cost_cents := 10 + 20;
                      Commerce.total_platform_fee_cents := 1 + 1;
                      Commerce.attestation_ids := ["catt_1"] ++ ["catt_2"] |}).
Proof.
  pose proof (aggregateAttestations_spec
                [mock_receipt "catt_1" "agent_a" "gate_g" 1 10 1] "from" "to")
    as (_ & _ & _ & Hcompose & _).
  specialize (Hcompose
                [mock_receipt "catt_2" "agent_a" "gate_g" 2 20 1]
                {| Commerce.period_start := "from"; Commerce.period_end := "to";
                   Commerce.bp_agent_id := "agent_a"; Commerce.bp_gate_id := "gate_g";
                   Commerce.total_calls := 1; Commerce.total_cost_cents := 10;
                   Commerce.total_platform_fee_cents := 1;
                   Commerce.attestation_ids := ["catt_1"] |}
                {| Commerce.period_start := "from"; Commerce.period_end := "to";
                   Commerce.bp_agent_id := "agent_a"; Commerce.bp_gate_id := "gate_g";
                   Commerce.total_calls := 2; Commerce.total_cost_cents := 20;
                   Commerce.total_platform_fee_cents := 1;
                   Commerce.attestation_ids := ["catt_2"] |}).
  apply Hcompose; [|reflexivity..].
  unfold exact_totals. split; [|vm_compute; done].
  repeat (constructor; [vm_compute; repeat split; discriminate|]). constructor.
Defined.

(** * Further properties of fees and receipts *)

(** X18 (computePlatformFee): the fee computation returns exactly for a
    non-negative cost and non-negative basis points; while the product of
    cost and basis points stays below 2^53 the fee is never negative, is
    zero exactly when the product is zero, never exceeds the cost when the
    basis points are at most 10000, and grows with the cost.  Beyond 2^53
    the rounding of the product can lift the fee above the cost. *)
Theorem computePlatformFee_bounds (cost bp : Z) :
  ((exists fee, computePlatformFee cost bp = Returned fee) <-> 0 <= cost /\ 0 <= bp)
  /\ (forall fee,
       computePlatformFee cost bp = Returned fee ->
       cost * bp < 2 ^ 53 ->
       0 <= fee
       /\ (fee = 0 <-> cost * bp = 0)
       /\ (bp <= 10000 -> fee <= cost)
       /\ forall cost' fee',
            computePlatformFee cost' bp = Returned fee' ->
            cost' * bp < 2 ^ 53 -> cost <= cost' -> fee <= fee')
  /\ computePlatformFee 35184372088830 10000 = Returned 35184372088831.
Proof.
  assert (Hret : forall c f, computePlatformFee c bp = Returned f ->
                             0 <= c /\ 0 <= bp).
  { intros c f. rewrite computePlatformFee_outcome.
    destruct (Z.ltb_spec c 0); [done|]. destruct (Z.ltb_spec bp 0); [done|]. done. }
  assert (Hfee : forall c f, computePlatformFee c bp = Returned f -> c * bp < 2 ^ 53 ->
                             f = ceil_div (c * bp) 10000).
  { intros c f E Hp. destruct (Hret c f E) as [Hc Hb].
    rewrite computePlatformFee_returns in E by done. congruence. }
  split; [|split; [|vm_compute; reflexivity]].
  - split.
    + intros [fee E]. by apply (Hret cost fee).
    + intros [Hc Hb]. rewrite computePlatformFee_outcome.
      destruct (Z.ltb_spec cost 0); [lia|]. destruct (Z.ltb_spec bp 0); [lia|]. eauto.
  - intros fee E Hp. destruct (Hret _ _ E) as [Hc Hb].
    rewrite (Hfee _ _ E Hp).
    pose proof (ceil_div_spec (cost * bp) 10000 ltac:(lia)) as Hq.
    split; [nia|]. split; [split; nia|]. split; [nia|].
    intros cost' fee' E' Hp' Hle. destruct (Hret _ _ E') as [Hc' _].
    rewrite (Hfee _ _ E' Hp').
    pose proof (ceil_div_spec (cost' * bp) 10000 ltac:(lia)) as Hq'.
    nia.
Qed.

(** X19 (verifyConsumptionAttestation): what a valid verdict stands for: the
    verification callback accepted the signature over the receipt without
    its proof, a non-empty expected nonce is the one the receipt echoes, and
    the verdict has no error; moreover cost and platform fee of a valid
    receipt are determined by its units, duration and effective constraints,
    so a receipt whose amounts were altered does not verify. *)
Theorem valid_receipt_guarantees
    (JSON_stringify : Commerce.AttestationPayload -> string)
    (verify : string -> string -> string -> bool)
    (att : Commerce.ConsumptionAttestation) (expected_nonce : option string)
    (gate_public_key : string) (verdict : Commerce.ReceiptVerdict) :
  Commerce.verifyConsumptionAttestation JSON_stringify verify att expected_nonce
    gate_public_key = Returned verdict ->
  Commerce.valid verdict = true ->
  verify (JSON_stringify (Commerce.payload att)) (Commerce.sig (Commerce.proof att))
    gate_public_key = true
  /\ (forall e, Commerce.truthy_string expected_nonce = Some e ->
                Commerce.request_nonce (Commerce.payload att) = Some e)
  /\ Commerce.error verdict = None
  /\ forall att' nonce' key' verdict',
       Commerce.verifyConsumptionAttestation JSON_stringify verify att' nonce' key'
       = Returned verdict' ->
       Commerce.valid verdict' = true ->
       receipt_units att' = receipt_units att ->
       Commerce.duration_ms (Commerce.consumption (Commerce.payload att'))
       = Commerce.duration_ms (Commerce.consumption (Commerce.payload att)) ->
       Commerce.effective_constraints (Commerce.payload att')
       = Commerce.effective_constraints (Commerce.payload att) ->
       receipt_cost att' = receipt_cost att /\ receipt_fee att' = receipt_fee att.
Proof.
  assert (Hinv : forall a n k v,
    Commerce.verifyConsumptionAttestation JSON_stringify verify a n k = Returned v ->
    Commerce.valid v = true ->
    verify (JSON_stringify (Commerce.payload a)) (Commerce.sig (Commerce.proof a)) k = true
    /\ (forall e, Commerce.truthy_string n = Some e ->
                  Commerce.request_nonce (Commerce.payload a) = Some e)
    /\ Commerce.error v = None
    /\ exists cost,
         cost = (let cons := Commerce.consumption (Commerce.payload a) in
                 let pricing :=
                   default Commerce.empty_pricing
                     (Commerce.pricing (Commerce.effective_constraints (Commerce.payload a))) in
                 if Commerce.model_is_per_minute pricing then
                   match Commerce.truthy_number (Commerce.duration_ms cons) with
                   | Some d => computeTimeCost pricing d
                   | None => computeCallCost pricing (Commerce.units cons)
                   end
                 else computeCallCost pricing (Commerce.units cons))
         /\ receipt_cost a = cost
         /\ match Commerce.truthy_number
                    (basis_points
                       (default Commerce.empty_platform_fee
                          (Commerce.platform_fee
                             (Commerce.effective_constraints (Commerce.payload a))))) with
            | Some bp => computePlatformFee cost bp
            | None => Returned 0
            end = Returned (receipt_fee a)).
  { intros a n k v. unfold Commerce.verifyConsumptionAttestation. cbv zeta.
    destruct (match Commerce.truthy_string n with Some _ => _ | None => _ end)
      eqn:Hnd; [by intros [= <-]|].
    destruct (verify _ _ _) eqn:Hv; simpl; [|by intros [= <-]].
    match goal with
    | |- context [negb (?x =? ?y)] => destruct (Z.eqb_spec x y) as [Hc|Hc]
    end; simpl; [|by intros [= <-]].
    match goal with
    | |- context [mbind _ ?m] => destruct m as [fee|err] eqn:Hfee
    end; simpl; [|done].
    match goal with
    | |- context [negb (?x =? ?y)] => destruct (Z.eqb_spec x y) as [Hf|Hf]
    end; simpl; [|by intros [= <-]].
    intros [= <-] _. split; [done|]. split.
    { intros e He. rewrite He in Hnd.
      destruct (Commerce.request_nonce (Commerce.payload a)) as [m|]; [|done].
      destruct (String.eqb_spec m e); [congruence|done]. }
    split; [done|].
    eexists. split; [reflexivity|]. split; [exact Hc|].
    unfold receipt_fee. rewrite Hf. exact Hfee. }
  intros E Hvalid.
  destruct (Hinv _ _ _ _ E Hvalid) as (Hsig & Hnonce & Herr & cost & Hcost & Hc & Hfee).
  do 3 (split; [done|]).
  intros att' nonce' key' verdict' E' Hvalid' Hu Hd Hec.
  destruct (Hinv _ _ _ _ E' Hvalid') as (_ & _ & _ & cost' & Hcost' & Hc' & Hfee').
  cbv zeta in Hcost, Hcost'. unfold receipt_units in Hu.
  rewrite Hu, Hd, Hec, <- Hcost in Hcost'. subst cost'.
  split; [congruence|].
  rewrite Hec, Hfee in Hfee'. congruence.
Qed.

Lemma valid_receipt_guarantees_witness :
  String.eqb (Commerce.sig (Commerce.proof (mock_receipt "catt_1" "agent_a" "gate_g" 1 0 0)))
    "00" = true.
Proof.
  exact (proj1 (valid_receipt_guarantees (fun _ => "payload")
                  (fun _ sig _ => String.eqb sig "00")
                  (mock_receipt "catt_1" "agent_a" "gate_g" 1 0 0) None "gate_key"
                  {| Commerce.valid := true; Commerce.error := None |}
                  eq_refl eq_refl)).
Defined.

(** X20 (issueConsumptionAttestation, verifyConsumptionAttestation): the
    receipt round trip: when the verification callback accepts what the
    signing callback produced, every receipt that the gate issues verifies
    against the nonce of the request, except for a per-minute tool measured
    at exactly 0 ms whose per-call price is not zero. *)
Theorem issued_receipt_verifies
    (JSON_stringify : Commerce.AttestationPayload -> string)
    (sign : string -> string) (verify : string -> string -> string -> bool)
    (gate_public_key : string)
    (params : Commerce.IssueReceiptParams) (attestation_id now_iso : string)
    (att : Commerce.ConsumptionAttestation) :
  (forall bytes, verify bytes (sign bytes) gate_public_key = true) ->
  Commerce.issueConsumptionAttestation JSON_stringify sign params attestation_id now_iso
  = Returned att ->
  ~ (Commerce.model_is_per_minute
       (extractPricingConstraints (Commerce.p_effective_constraints params)) = true
     /\ Commerce.p_duration_ms params = Some 0
     /\ computeCallCost
          (extractPricingConstraints (Commerce.p_effective_constraints params))
          (default 1 (Commerce.p_units params)) <> 0) ->
  Commerce.verifyConsumptionAttestation JSON_stringify verify att
    (Commerce.p_request_nonce params) gate_public_key
  = Returned {| Commerce.valid := true; Commerce.error := None |}.
Proof.
  intros Hvs Hissue Hexc.
  by apply (receipt_roundtrip JSON_stringify sign verify gate_public_key Hvs
              params attestation_id now_iso att).
Qed.

Lemma issued_receipt_verifies_witness :
  exists att,
    Commerce.issueConsumptionAttestation (fun _ => "payload") (fun bytes => bytes)
      per_call_params "catt_1" "2026-01-01T00:00:00.000Z" = Returned att
    /\ Commerce.verifyConsumptionAttestation (fun _ => "payload")
         (fun bytes sig _ => String.eqb sig bytes) att
         (Commerce.p_request_nonce per_call_params) "gate_key"
       = Returned {| Commerce.valid := true; Commerce.error := None |}.
Proof.
  eexists. split; [vm_compute; reflexivity|].
  apply (issued_receipt_verifies (fun _ => "payload") (fun bytes => bytes)
           (fun bytes sig _ => String.eqb sig bytes) "gate_key"
           per_call_params "catt_1" "2026-01-01T00:00:00.000Z").
  - intros bytes. apply String.eqb_refl.
  - vm_compute. reflexivity.
  - vm_compute. intros (? & ? & _). discriminate.
Defined.

(** X21 (matchesDiscoveryCriteria, meetsSLARequirements): loosening a
    requirement never loses a match: a service that matches a price ceiling
    matches every higher ceiling and no ceiling, with or without the currency
    requirement; a service that meets a minimum uptime and a maximum
    response time meets every lower minimum and every higher maximum, and
    then advertises a non-zero uptime and response time within them. *)
Theorem discovery_criteria_monotone
    (pricing : PricingConstraints) (sla : Commerce.SLA)
    (maxPrice maxPrice' minUptime minUptime' maxResponse maxResponse' : Z)
    (currency : option string) :
  maxPrice <= maxPrice' -> minUptime' <= minUptime -> maxResponse <= maxResponse' ->
  (Commerce.matchesDiscoveryCriteria pricing (Some maxPrice) currency = true ->
   Commerce.matchesDiscoveryCriteria pricing (Some maxPrice') currency = true
   /\ Commerce.matchesDiscoveryCriteria pricing None currency = true
   /\ Commerce.matchesDiscoveryCriteria pricing (Some maxPrice) None = true)
  /\ (Commerce.meetsSLARequirements sla (Some minUptime) (Some maxResponse) = true ->
      Commerce.meetsSLARequirements sla (Some minUptime') (Some maxResponse') = true
      /\ Commerce.meetsSLARequirements sla None (Some maxResponse) = true
      /\ Commerce.meetsSLARequirements sla (Some minUptime) None = true
      /\ exists uptime response,
           Commerce.uptime_basis_points sla = Some uptime
           /\ Commerce.response_time_ms sla = Some response
           /\ uptime <> 0 /\ response <> 0
           /\ minUptime <= uptime /\ response <= maxResponse).
Proof.
  intros Hp Hu Hr. split.
  - unfold Commerce.matchesDiscoveryCriteria. cbv zeta.
    destruct (Commerce.truthy_string currency) as [wanted|].
    + destruct (Commerce.truthy_string (Types.currency pricing)) as [offered|].
      * destruct (negb (String.eqb offered wanted)); [done|].
        destruct (Z.ltb_spec maxPrice (default (default 0 (per_minute_cents pricing))
                                         (per_call_cents pricing))); [done|].
        intros _. split; [|done].
        destruct (Z.ltb_spec maxPrice' (default (default 0 (per_minute_cents pricing))
                                          (per_call_cents pricing))); [lia|done].
      * destruct (Z.ltb_spec maxPrice (default (default 0 (per_minute_cents pricing))
                                         (per_call_cents pricing))); [done|].
        intros _. split; [|done].
        destruct (Z.ltb_spec maxPrice' (default (default 0 (per_minute_cents pricing))
                                          (per_call_cents pricing))); [lia|done].
    + destruct (Z.ltb_spec maxPrice (default (default 0 (per_minute_cents pricing))
                                       (per_call_cents pricing))); [done|].
      intros _. split; [|done].
      destruct (Z.ltb_spec maxPrice' (default (default 0 (per_minute_cents pricing))
                                        (per_call_cents pricing))); [lia|done].
  - unfold Commerce.meetsSLARequirements, Commerce.truthy_number. cbv zeta.
    destruct (Commerce.uptime_basis_points sla) as [uptime|]; [|done].
    destruct (Z.eqb_spec uptime 0); [done|].
    destruct (Z.ltb_spec uptime minUptime); [done|].
    destruct (Commerce.response_time_ms sla) as [response|]; [|done].
    destruct (Z.eqb_spec response 0); [done|].
    destruct (Z.ltb_spec maxResponse response); [done|].
    intros _.
    destruct (Z.ltb_spec uptime minUptime'); [lia|].
    destruct (Z.ltb_spec maxResponse' response); [lia|].
    do 3 (split; [done|]). exists uptime, response. done.
Qed.

Lemma discovery_criteria_monotone_witness :
  Commerce.meetsSLARequirements
    {| Commerce.uptime_basis_points := Some 9995; Commerce.response_time_ms := Some 120 |}
    (Some 9900) (Some 500) = true.
Proof.
  apply (proj2 (discovery_criteria_monotone Commerce.empty_pricing
                  {| Commerce.uptime_basis_points := Some 9995;
                     Commerce.response_time_ms := Some 120 |}
                  0 0 9990 9900 200 500 None
                  ltac:(lia) ltac:(lia) ltac:(lia))).
  reflexivity.
Defined.

(** * Exceptions of the pipeline *)

Section ExceptionFacts.
Context `{Platform}.
Variable R : gmap string ConstraintTypeDefinition.



End ExceptionFacts.


(** * The cache *)

Section CacheFacts.
Import Cache.

Lemma reindex_well_keyed (index : gmap string CatalogPermission) :
  well_keyed index -> index !! "__proto__" = None ->
  map_fold (fun _ perm idx => js_set (cp_permission_key perm) perm idx) ∅ index = index.
Proof.
  apply (map_fold_weak_ind
           (fun (r : gmap string CatalogPermission) (m : gmap string CatalogPermission) =>
              well_keyed m -> m !! "__proto__" = None -> r = m)).
  - done.
  - intros i x m r Hi IH Hwk Hproto.
    assert (Hne : i <> "__proto__").
    { intros ->. by rewrite lookup_insert_eq in Hproto. }
    rewrite (Hwk i x) by apply lookup_insert_eq.
    rewrite js_set_insert by done.
    rewrite lookup_insert_ne in Hproto by done.
    rewrite IH; [done| |done].
    intros k perm Hk. apply Hwk. rewrite lookup_insert_ne; [done|]. congruence.
Qed.

Lemma buildPermissionIndex_fold (permissions : list PermissionData)
    (index : gmap string CatalogPermission) key :
  key <> "__proto__" ->
  fold_left (fun index perm => js_set (d_permission_key perm) (entry_of perm) index)
    permissions index !! key
  = match last_sent key permissions with
    | Some perm => Some (entry_of perm)
    | None => index !! key
    end.
Proof.
  intros Hkey. unfold last_sent. revert index.
  induction permissions as [|perm rest IH]; intros index; [done|].
  simpl fold_left. rewrite IH, filter_cons.
  destruct (decide (d_permission_key perm = key)) as [<-|Hne].
  - destruct (filter _ rest) as [|perm' rest'] eqn:E.
    + simpl. rewrite js_set_lookup_eq; [done|by left].
    + rewrite last_cons_cons.
      destruct (last (perm' :: rest')) eqn:El; [done|]. by apply last_None in El.
  - destruct (last _); [done|]. by rewrite js_set_lookup_ne.
Qed.

Lemma buildPermissionIndex_fold_proto (permissions : list PermissionData)
    (index : gmap string CatalogPermission) :
  index !! "__proto__" = None ->
  fold_left (fun index perm => js_set (d_permission_key perm) (entry_of perm) index)
    permissions index !! "__proto__" = None.
Proof.
  revert index. induction permissions as [|perm rest IH]; intros index Hidx; [done|].
  simpl fold_left. apply IH.
  destruct (decide (d_permission_key perm = "__proto__")) as [->|Hne].
  - by rewrite js_set_proto.
  - by rewrite js_set_lookup_ne.
Qed.

Lemma buildPermissionIndex_lookup (permissions : list PermissionData) key :
  key <> "__proto__" ->
  buildPermissionIndex permissions !! key = entry_of <$> last_sent key permissions.
Proof.
  intros Hkey. unfold buildPermissionIndex.
  rewrite buildPermissionIndex_fold by done. by destruct (last_sent key permissions).
Qed.

(** The index never has [__proto__] as a key. *)
Lemma buildPermissionIndex_proto (permissions : list PermissionData) :
  buildPermissionIndex permissions !! "__proto__" = None.
Proof. unfold buildPermissionIndex. by apply buildPermissionIndex_fold_proto. Qed.

Lemma buildPermissionIndex_well_keyed (permissions : list PermissionData) :
  well_keyed (buildPermissionIndex permissions).
Proof.
  intros key perm.
  destruct (decide (key = "__proto__")) as [->|Hkey].
  { by rewrite buildPermissionIndex_proto. }
  rewrite buildPermissionIndex_lookup by done.
  destruct (last_sent key permissions) as [d|] eqn:E; [|done].
  intros [= <-]. simpl. unfold last_sent in E.
  apply last_Some_elem_of, list_elem_of_filter in E. tauto.
Qed.

End CacheFacts.

(** X23 (CacheManager.updateCatalog, buildPermissionIndex, refreshCatalog):
    the alias index of the cached catalog: [updateCatalog] on a catalog whose
    current permissions are filed under their own keys, none of them
    [__proto__], stores an index equal to them and stamps the catalog with
    the update's instant; a successful [refreshCatalog] of permissions none
    of which is named [__proto__] therefore caches a catalog whose alias
    index equals its current permissions, in which a key is present exactly
    when the endpoint sent a permission with that key, the last such one
    deciding the entry, with the documented defaults; a permission that the
    endpoint sends under the name [__proto__] is never stored as a property
    of either index; a failed refresh leaves the cache as it is. *)
Theorem refreshCatalog_index
    (data : Cache.CatalogData) (now_iso : string) (now now' : Z)
    (m : Cache.CacheManager) :
  (forall c t,
     well_keyed (permissionsByKey (current c)) ->
     permissionsByKey (current c) !! "__proto__" = None ->
     exists c',
       Cache.catalog (Cache.state (Cache.updateCatalog c t m)) = Some c'
       /\ cat_permissionsByKey c' = permissionsByKey (current c)
       /\ current c' = current c /\ cached_at c' = t)
  /\ ("__proto__" ∉ Cache.d_permission_key <$> default [] (Cache.d_permissions data) ->
      exists c,
        Cache.catalog (Cache.state (Cache.refreshCatalog (Returned data) now_iso now now' m))
        = Some c
        /\ cat_permissionsByKey c = permissionsByKey (current c)
        /\ well_keyed (permissionsByKey (current c))
        /\ cached_at c = now'
        /\ forall key,
             match last_sent key (default [] (Cache.d_permissions data)) with
             | Some sent =>
                 exists entry,
                   permissionsByKey (current c) !! key = Some entry
                   /\ display_name entry = default key (Cache.d_display_name sent)
                   /\ risk_level entry = default low (Cache.d_risk_level sent)
                   /\ cp_constraints entry = default ∅ (Cache.d_constraints sent)
             | None => permissionsByKey (current c) !! key = None
             end)
  /\ (exists c,
        Cache.catalog (Cache.state (Cache.refreshCatalog (Returned data) now_iso now now' m))
        = Some c
        /\ permissionsByKey (current c) !! "__proto__" = None
        /\ cat_permissionsByKey c !! "__proto__" = None)
  /\ forall e, Cache.refreshCatalog (Thrown e) now_iso now now' m = m.
Proof.
  pose proof (buildPermissionIndex_well_keyed (default [] (Cache.d_permissions data)))
    as Hwk.
  pose proof (buildPermissionIndex_proto (default [] (Cache.d_permissions data)))
    as Hproto.
  pose proof (reindex_well_keyed _ Hwk Hproto) as Halias.
  split; [|split; [|split; [|done]]].
  - intros c t Hwk' Hproto'. eexists. split; [reflexivity|]. simpl.
    split; [by apply reindex_well_keyed|done].
  - intros Hplain. eexists. split; [reflexivity|]. simpl.
    split; [exact Halias|]. split; [exact Hwk|]. split; [done|].
    intros key.
    destruct (decide (key = "__proto__")) as [->|Hkey].
    + destruct (last_sent "__proto__" _) as [sent|] eqn:E; [|exact Hproto].
      exfalso. apply Hplain. unfold last_sent in E.
      apply last_Some_elem_of, list_elem_of_filter in E as [<- Hin].
      by apply list_elem_of_fmap_2.
    + rewrite buildPermissionIndex_lookup by done.
      destruct (last_sent key _) as [sent|] eqn:E; [|done].
      eexists. split; [reflexivity|]. simpl.
      unfold last_sent in E. apply last_Some_elem_of, list_elem_of_filter in E as [<- _].
      done.
  - eexists. split; [reflexivity|]. simpl. split; [exact Hproto|].
    by rewrite Halias.
Qed.

(** X24 (CacheManager.resolveCatalogVersion, resolveCatalogVersion): the two
    resolutions of the catalog version agree: on a loaded cache the cache
    manager answers null exactly where the verification module answers
    deprecated, and the same version otherwise; without a catalog it answers
    null.  The answer is deprecated exactly when the passport pins this gate
    to a version below the minimum compatible one, and a resolved version is
    the current one or the retained version of a pin that is not below the
    minimum. *)
Theorem resolveCatalogVersion_agree
    (m : Cache.CacheManager) (passport : option Passport) :
  match Cache.catalog (Cache.state m) with
  | None => Cache.resolveCatalogVersion m passport = None
  | Some c =>
      Cache.resolveCatalogVersion m passport
      = as_nullable (resolveCatalogVersion c passport)
      /\ (resolveCatalogVersion c passport = Deprecated
          <-> exists p pins pin,
                passport = Some p /\ catalog_version_pin p = Some pins
                /\ pins !! cat_gate_id c = Some pin
                /\ pin < min_compatible_version c)
      /\ forall v,
           resolveCatalogVersion c passport = Resolved v ->
           v = current c
           \/ exists p pins pin,
                passport = Some p /\ catalog_version_pin p = Some pins
                /\ pins !! cat_gate_id c = Some pin
                /\ min_compatible_version c <= pin
                /\ versions c !! pin = Some v
  end.
Proof.
  unfold Cache.resolveCatalogVersion, resolveCatalogVersion.
  destruct (Cache.catalog (Cache.state m)) as [c|]; [|done].
  destruct passport as [p|]; simpl.
  2:{ split; [done|]. split; [|intros v [= <-]; by left].
      split; [done|]. by intros (? & ? & ? & [=] & _). }
  destruct (catalog_version_pin p) as [pins|] eqn:Hpins; simpl.
  2:{ split; [done|]. split; [|intros v [= <-]; by left].
      split; [done|]. intros (? & ? & ? & [= <-] & ? & _). congruence. }
  destruct (pins !! cat_gate_id c) as [pin|] eqn:Hpin.
  2:{ split; [done|]. split; [|intros v [= <-]; by left].
      split; [done|]. intros (? & ? & ? & [= <-] & ? & ? & _). congruence. }
  destruct (Z.ltb_spec pin (min_compatible_version c)) as [Hlt|Hge].
  - split; [done|]. split; [|done]. split; [|done]. intros _. by exists p, pins, pin.
  - split; [done|]. split.
    + split; [done|]. intros (? & ? & ? & [= <-] & ? & ? & ?). simplify_eq. lia.
    + intros v [= <-]. destruct (versions c !! pin) as [v|] eqn:Hv; simpl; [|by left].
      right. by exists p, pins, pin.
Qed.

(** * Sessions *)

Section SessionFacts.
Import Sessions.

Lemma cleanupInactive_fold (maxMs now : Z) (all mm : gmap string Session) :
  let acc :=
    map_fold
      (fun sessionId session '(cleaned, remaining) =>
         if maxMs <? now - last_activity session
         then (cleaned + 1, delete sessionId remaining)
         else (cleaned, remaining))
      (0, all) mm in
  acc.1 = Z.of_nat (size (filter (fun kv => inactive maxMs now kv.2) mm))
  /\ forall k, acc.2 !! k
               = match mm !! k with
                 | Some s => if decide (inactive maxMs now s) then None else all !! k
                 | None => all !! k
                 end.
Proof.
  cbv zeta.
  apply (map_fold_weak_ind
           (fun (acc : Z * gmap string Session) (mm : gmap string Session) =>
              acc.1 = Z.of_nat (size (filter (fun kv => inactive maxMs now kv.2) mm))
              /\ forall k, acc.2 !! k
                           = match mm !! k with
                             | Some s => if decide (inactive maxMs now s)
                                         then None else all !! k
                             | None => all !! k
                             end)).
  - split; [by rewrite map_filter_empty, map_size_empty|done].
  - intros i x m' [c r] Hi [Hc Hr]. simpl in Hc, Hr.
    destruct (Z.ltb_spec maxMs (now - last_activity x)) as [Hin|Hact]; simpl.
    + split.
      * rewrite map_filter_insert_True by done.
        rewrite map_size_insert_None by (by apply map_lookup_filter_None_2; left).
        lia.
      * intros k. destruct (decide (i = k)) as [->|Hne].
        -- rewrite lookup_delete_eq, lookup_insert_eq. by rewrite decide_True.
        -- rewrite lookup_delete_ne, lookup_insert_ne by done. apply Hr.
    + split.
      * rewrite map_filter_insert_False by (unfold inactive; simpl; lia).
        rewrite delete_id by done. done.
      * intros k. destruct (decide (i = k)) as [->|Hne].
        -- rewrite lookup_insert_eq, Hr, Hi.
           rewrite decide_False by (unfold inactive; lia). done.
        -- rewrite lookup_insert_ne by done. apply Hr.
Qed.

End SessionFacts.

(** X25 (SessionManager.cleanupInactiveSessions): the cleanup removes exactly
    the sessions whose last activity lies more than [maxInactiveMs] (thirty
    minutes by default) before now, leaves every other session as it is, and
    returns the number of sessions it removed; a session whose last activity is
    exactly [maxInactiveMs] ago stays. *)
Theorem cleanupInactiveSessions_spec
    (m : Sessions.SessionManager) (maxInactiveMs : option Z) (now : Z) :
  let maxMs := default 1800000 maxInactiveMs in
  let result := Sessions.cleanupInactiveSessions m maxInactiveMs now in
  (forall sessionId,
     Sessions.sessions result.2 !! sessionId
     = match Sessions.sessions m !! sessionId with
       | Some session =>
           if decide (inactive maxMs now session) then None else Some session
       | None => None
       end)
  /\ result.1
     = Z.of_nat (size (filter (fun kv => inactive maxMs now kv.2) (Sessions.sessions m)))
  /\ Sessions.safeDefaultConfig result.2 = Sessions.safeDefaultConfig m.
Proof.
  cbv zeta. unfold Sessions.cleanupInactiveSessions.
  change (30 * 60 * 1000) with 1800000.
  pose proof (cleanupInactive_fold (default 1800000 maxInactiveMs) now
                (Sessions.sessions m) (Sessions.sessions m)) as H.
  cbv zeta in H.
  destruct (map_fold _ _ _) as [c r]. simpl in *. destruct H as [Hc Hr].
  split; [|done]. intros k. rewrite Hr.
  destruct (Sessions.sessions m !! k) as [s|] eqn:Hs; [|done].
  destruct (decide _); done.
Qed.

Section SessionExpiryFacts.
Import Sessions.

Lemma cleanupExpired_fold (now : Z) (all mm : gmap string Session) :
  let acc :=
    map_fold
      (fun sessionId session '(cleaned, remaining) =>
         match passport session with
         | Some p =>
             if date_lt (expires_at p) now
             then (cleaned + 1,
                   <[sessionId := {| session_id := session_id session;
                                     passport := None;
                                     created_at := created_at session;
                                     last_activity := last_activity session |}]>
                     remaining)
             else (cleaned, remaining)
         | None => (cleaned, remaining)
         end)
      (0, all) mm in
  acc.1 = Z.of_nat (size (filter (fun kv => holds_expired now kv.2) mm))
  /\ forall k, acc.2 !! k
               = match mm !! k with
                 | Some s => if decide (holds_expired now s)
                             then Some (without_passport s) else all !! k
                 | None => all !! k
                 end.
Proof.
  cbv zeta.
  apply (map_fold_weak_ind
           (fun (acc : Z * gmap string Session) (mm : gmap string Session) =>
              acc.1 = Z.of_nat (size (filter (fun kv => holds_expired now kv.2) mm))
              /\ forall k, acc.2 !! k
                           = match mm !! k with
                             | Some s => if decide (holds_expired now s)
                                         then Some (without_passport s) else all !! k
                             | None => all !! k
                             end)).
  - split; [by rewrite map_filter_empty, map_size_empty|done].
  - intros i x m' [c r] Hi [Hc Hr]. simpl in Hc, Hr.
    destruct (decide (holds_expired now x)) as [Hexp|Hlive].
    + destruct Hexp as (p & Hp & Hlt). rewrite Hp, Hlt. simpl. split.
      * rewrite map_filter_insert_True by (simpl; by exists p).
        rewrite map_size_insert_None by (by apply map_lookup_filter_None_2; left).
        lia.
      * intros k. destruct (decide (i = k)) as [->|Hne].
        -- rewrite !lookup_insert_eq. rewrite decide_True by (by exists p). done.
        -- rewrite !lookup_insert_ne by done. apply Hr.
    + assert (Hsame : match passport x with
                      | Some p =>
                          if date_lt (expires_at p) now
                          then (c + 1,
                                <[i := {| session_id := session_id x; passport := None;
                                          created_at := created_at x;
                                          last_activity := last_activity x |}]> r)
                          else (c, r)
                      | None => (c, r)
                      end = (c, r)).
      { destruct (passport x) as [p|] eqn:Hp; [|done].
        destruct (date_lt (expires_at p) now) eqn:Hlt; [|done].
        destruct Hlive. by exists p. }
      rewrite Hsame. simpl. split.
      * rewrite map_filter_insert_False by done. rewrite delete_id by done. done.
      * intros k. destruct (decide (i = k)) as [->|Hne].
        -- rewrite lookup_insert_eq, Hr, Hi. by rewrite decide_False.
        -- rewrite lookup_insert_ne by done. apply Hr.
Qed.

End SessionExpiryFacts.

(** X26 (SessionManager.cleanupExpiredPassports, verifyLocally): the cleanup
    keeps every session, takes the passport away from exactly the sessions
    whose passport expires before now, and returns their number; a passport
    that a session holds afterwards is the one it held before and is not
    expired at that instant, so [verifyLocally] at the same instant never
    answers PASSPORT_EXPIRED for it: the cleanup and the pipeline draw the
    boundary at the same place. *)
Theorem cleanupExpiredPassports_spec (m : Sessions.SessionManager) (now : Z) :
  let result := Sessions.cleanupExpiredPassports m now in
  (forall sessionId,
     Sessions.sessions result.2 !! sessionId
     = (fun session => if decide (holds_expired now session)
                       then without_passport session else session)
       <$> Sessions.sessions m !! sessionId)
  /\ result.1
     = Z.of_nat (size (filter (fun kv => holds_expired now kv.2) (Sessions.sessions m)))
  /\ (forall sessionId p,
        Sessions.getPassport result.2 sessionId = Some p ->
        Sessions.getPassport m sessionId = Some p
        /\ date_lt (expires_at p) now = false)
  /\ forall (platform : Platform) sessionId params clock,
       now_expiry clock = now ->
       ~ denied_with_1_0
           (@V1_0.verifyLocally platform
              (session_call result.2 sessionId params) clock).1
           V1_0.PASSPORT_EXPIRED.
Proof.
  cbv zeta. unfold Sessions.cleanupExpiredPassports.
  pose proof (cleanupExpired_fold now (Sessions.sessions m) (Sessions.sessions m)) as H.
  cbv zeta in H.
  destruct (map_fold _ _ _) as [c r]. simpl in *. destruct H as [Hc Hr].
  assert (Hlook : forall sessionId,
            r !! sessionId
            = (fun session => if decide (holds_expired now session)
                              then without_passport session else session)
              <$> Sessions.sessions m !! sessionId).
  { intros k. rewrite Hr.
    destruct (Sessions.sessions m !! k) as [s|] eqn:Hs; [|done]. simpl.
    by destruct (decide _). }
  assert (Hpass : forall sessionId p,
            Sessions.getPassport (Sessions.with_sessions m r) sessionId = Some p ->
            Sessions.getPassport m sessionId = Some p
            /\ date_lt (expires_at p) now = false).
  { intros k p. unfold Sessions.getPassport. simpl. rewrite Hlook.
    destruct (Sessions.sessions m !! k) as [s|]; [|done]. simpl.
    destruct (decide (holds_expired now s)) as [Hexp|Hlive]; [done|].
    intros Hp. split; [done|].
    destruct (date_lt (expires_at p) now) eqn:Hlt; [|done].
    destruct Hlive. by exists p. }
  split; [exact Hlook|]. split; [exact Hc|]. split; [exact Hpass|].
  intros HP k params clock Hnow.
  rewrite passport_expired_iff_1_0.
  intros (p & key & t & Hp & _ & _ & Ht & Hlt).
  simpl in Hp. apply Hpass in Hp as [_ Hlive].
  unfold date_lt in Hlive. rewrite Ht in Hlive.
  apply Z.ltb_ge in Hlive. lia.
Qed.

(** X27 (SessionManager.setPassport, getPassport, clearPassport,
    getSessionPermissions, sessionHasPermission, getSessionConstraints): a
    passport set on an existing session is read back indexed, with its
    permission keys and, when none of its permissions is named [__proto__],
    per action the constraints of the last permission with that key;
    clearing it reads back null; both record the instant as last activity
    and leave every other session alone; on an unknown session id they
    change nothing and create no session. *)
Theorem session_passport_roundtrip
    (m : Sessions.SessionManager) (sessionId : string) (p : Passport) (now now' : Z) :
  let m1 := Sessions.setPassport m sessionId p now in
  let m2 := Sessions.clearPassport m1 sessionId now' in
  (forall session,
     Sessions.sessions m !! sessionId = Some session ->
     Sessions.getPassport m1 sessionId = Some (buildPassportIndex p)
     /\ Sessions.getSessionPermissions m1 sessionId = permission_key <$> permissions p
     /\ ("__proto__" ∉ permission_key <$> permissions p ->
         (forall action,
            action <> EmptyString ->
            Sessions.getSessionConstraints m1 sessionId (Some action)
            = constraints <$> last_permission action (permissions p))
         /\ (forall action,
               action ∉ Object_prototype_names ->
               (Sessions.sessionHasPermission m1 sessionId action = true
                <-> action ∈ permission_key <$> permissions p)))
     /\ Sessions.getPassport m2 sessionId = None
     /\ Sessions.getSessionPermissions m2 sessionId = []
     /\ Sessions.last_activity <$> Sessions.getSession m1 sessionId = Some now
     /\ Sessions.last_activity <$> Sessions.getSession m2 sessionId = Some now'
     /\ Sessions.created_at <$> Sessions.getSession m2 sessionId
        = Some (Sessions.created_at session))
  /\ (Sessions.sessions m !! sessionId = None -> m1 = m /\ m2 = m)
  /\ forall other,
       other <> sessionId ->
       Sessions.getSession m2 other = Sessions.getSession m other.
Proof.
  cbv zeta. split; [|split].
  - intros session Hs.
    unfold Sessions.setPassport. rewrite Hs.
    unfold Sessions.clearPassport. simpl. rewrite lookup_insert_eq.
    unfold Sessions.getPassport, Sessions.getSessionPermissions,
      Sessions.getSessionConstraints, Sessions.sessionHasPermission,
      Sessions.getPassport, Sessions.getSession.
    simpl. rewrite !lookup_insert_eq. simpl.
    split; [done|]. split; [done|]. split; [|done].
    intros Hplain.
    assert (Hidx : forall action,
              fold_left (fun idx permission =>
                           js_set (permission_key permission) permission idx)
                (permissions p) ∅ !! action
              = last_permission action (permissions p)).
    { intros action. destruct (decide (action = "__proto__")) as [->|Hkey].
      - pose proof (index_proto p) as Hproto. simpl in Hproto. rewrite Hproto.
        destruct (last_permission "__proto__" (permissions p)) eqn:E; [|done].
        exfalso. apply Hplain. apply last_permission_is_Some. by rewrite E.
      - exact (index_lookup p action Hkey). }
    split.
    { intros action Hne. destruct (String.eqb_spec action EmptyString); [done|].
      unfold getPermissionConstraints. simpl. by rewrite Hidx. }
    intros action Hproto. unfold hasPermission, js_in. simpl.
    rewrite (bool_decide_eq_false_2 (action ∈ Object_prototype_names)) by done.
    rewrite orb_false_r, bool_decide_eq_true, Hidx.
    apply last_permission_is_Some.
  - intros Hs. unfold Sessions.setPassport. rewrite Hs.
    unfold Sessions.clearPassport. by rewrite Hs.
  - intros other Hne. unfold Sessions.getSession, Sessions.setPassport.
    destruct (Sessions.sessions m !! sessionId) as [session|] eqn:Hs.
    + unfold Sessions.clearPassport. simpl. rewrite lookup_insert_eq. simpl.
      by rewrite !lookup_insert_ne.
    + unfold Sessions.clearPassport. by rewrite Hs.
Qed.

(** X28 (SessionManager.getOrCreateSession, getSession): the session that
    the call returns is the one stored under the id, and no other session
    changes; for a known id the call only records the instant as last
    activity and never asks for a safe-default passport; for a new id the
    session is created at the first read of the clock, whether the issuance
    succeeds or not, and holds the issued passport, indexed, exactly when the
    safe default is enabled with automatic issuance and the issuance
    returned one. *)
Theorem getOrCreateSession_spec
    (m : Sessions.SessionManager) (sessionId : string)
    (fetched : Outcome JSError Passport) (now now' : Z) :
  let result := Sessions.getOrCreateSession m sessionId fetched now now' in
  Sessions.getSession result.2 sessionId = Some result.1
  /\ (forall other, other <> sessionId ->
                    Sessions.getSession result.2 other = Sessions.getSession m other)
  /\ (forall session,
        Sessions.sessions m !! sessionId = Some session ->
        result.1 = Sessions.touch session (Sessions.passport session) now
        /\ forall fetched',
             Sessions.getOrCreateSession m sessionId fetched' now now' = result)
  /\ (Sessions.sessions m !! sessionId = None ->
      Sessions.session_id result.1 = sessionId
      /\ Sessions.created_at result.1 = now
      /\ Sessions.last_activity result.1 = now'
      /\ forall issued,
           Sessions.passport result.1 = Some issued
           <-> Sessions.enabled (Sessions.safeDefaultConfig m) = true
               /\ Sessions.auto_issue (Sessions.safeDefaultConfig m) = true
               /\ exists p, fetched = Returned p /\ issued = buildPassportIndex p).
Proof.
  cbv zeta. unfold Sessions.getOrCreateSession, Sessions.getSession.
  destruct (Sessions.sessions m !! sessionId) as [session|] eqn:Hs; simpl.
  - rewrite lookup_insert_eq. split; [done|].
    split; [by intros; rewrite lookup_insert_ne|]. split; [|done].
    intros ? [= <-]. done.
  - rewrite lookup_insert_eq. split; [done|].
    split; [by intros; rewrite lookup_insert_ne|]. split; [done|].
    intros _. do 3 (split; [done|]). intros issued.
    destruct (Sessions.enabled _), (Sessions.auto_issue _), fetched as [p|e];
      simpl; split; try done; try (by intros (? & ? & _)); try (by intros (_ & _ & ? & ? & _)).
    + intros [= <-]. eauto.
    + intros (_ & _ & p' & [= <-] & ->). done.
Qed.

(** X29 (CacheManager.isCatalogFresh, isRevocationListFresh, getFailMode,
    updateCatalog, updateRevocationList; verifyLocally): cache freshness is
    measured from the instant of the update: a cache without catalog is never
    fresh; after an update at [t] the catalog, respectively the revocation
    list, is fresh at [now] exactly when [now - t] is below the maximum age,
    so it is stale at exactly the maximum age; the maximum age of the
    revocation list and the fail mode are the override's for an action that
    has one and the configuration's otherwise; and a passport whose id is in
    the updated revocation list is never permitted by [verifyLocally] on
    that list. *)
Theorem cache_freshness (m : Cache.CacheManager) (now t : Z) :
  (forall cfg gate, Cache.isCatalogFresh (Cache.new_CacheManager cfg gate) now = false)
  /\ (forall c,
        Cache.isCatalogFresh (Cache.updateCatalog c t m) now = true
        <-> now - t < Cache.catalog_max_age_minutes (Cache.config m) * 60000)
  /\ forall revocations action,
       let m' := Cache.updateRevocationList revocations t m in
       (forall id, id ∈ Cache.revocationList (Cache.state m') <-> id ∈ revocations)
       /\ (no_override m action ->
           (Cache.isRevocationListFresh m' action now = true
            <-> now - t < Cache.revocation_max_age_minutes (Cache.config m) * 60000)
           /\ Cache.getFailMode m' action = Cache.fail_mode (Cache.config m))
       /\ (forall a overrides o,
             action = Some a -> a <> EmptyString ->
             Cache.fail_mode_overrides (Cache.config m) = Some overrides ->
             overrides !! a = Some o ->
             (Cache.isRevocationListFresh m' action now = true
              <-> now - t < Cache.o_revocation_max_age_minutes o * 60000)
             /\ Cache.getFailMode m' action = Cache.o_fail_mode o)
       /\ Cache.isCatalogFresh m' now = Cache.isCatalogFresh m now
       /\ forall (platform : Platform) params clock p,
            V1_0.passport params = Some p ->
            passport_id p ∈ revocations ->
            V1_0.revocationList params = Cache.revocationList (Cache.state m') ->
            is_permit_1_0 (@V1_0.verifyLocally platform params clock).1 = false.
Proof.
  split; [done|]. split.
  - intros c. unfold Cache.isCatalogFresh. simpl. rewrite Z.ltb_lt. lia.
  - intros revocations action. cbv zeta.
    assert (Hin : forall id,
              id ∈ Cache.revocationList
                     (Cache.state (Cache.updateRevocationList revocations t m))
              <-> id ∈ revocations).
    { intros id. simpl. apply elem_of_list_to_set. }
    split; [exact Hin|]. split; [|split; [|split; [done|]]].
    + intros Hno. unfold Cache.isRevocationListFresh, Cache.getFailMode,
        Cache.override_of. simpl.
      assert (match action with
              | Some a =>
                  if String.eqb a EmptyString then None
                  else Cache.fail_mode_overrides (Cache.config m)
                       ≫= (fun overrides => overrides !! a)
              | None => None
              end = None) as ->.
      { destruct action as [a|]; [|done]. simpl in Hno.
        destruct (String.eqb_spec a EmptyString); [done|]. by destruct Hno. }
      simpl. rewrite Z.ltb_lt. split; [lia|done].
    + intros a overrides o -> Hne Hov Ho.
      unfold Cache.isRevocationListFresh, Cache.getFailMode, Cache.override_of. simpl.
      destruct (String.eqb_spec a EmptyString); [done|].
      rewrite Hov. simpl. rewrite Ho. simpl. rewrite Z.ltb_lt. split; [lia|done].
    + intros platform params clock p Hp Hrev Hlist.
      unfold V1_0.verifyLocally. cbv zeta. rewrite Hp.
      destruct (lookup_issuerKey _ _) as [issuerKey|]; [|done].
      destruct (negb (V1_0.skipSignatureVerification params)
                && negb (verifySignatureSync p issuerKey)); [done|].
      destruct (date_lt _ _); [done|].
      rewrite bool_decide_eq_true_2; [done|].
      rewrite Hlist. by apply Hin.
Qed.

(** * The request context *)

Section WrapperFacts.
Import Wrapper.
Context `{Platform}.
Variable Input : Type.
Variable JSONPath : string -> Input -> Outcome JSError (list JSValue).
Variable String_of : JSValue -> Outcome JSError string.





End WrapperFacts.


